(** * Serial console: prompt synchroniser, i2cdump capture, macro playback
      and dump compare (uart_250904_0003_.py)

    A shallow embedding of the live program text of
    [uart_250904_0003_.py] (lines 1-1365; the rest of the file holds older
    revisions as comments and string literals) and the properties of its
    design document checked against it.

    Modelling conventions.
    - Python [str] values are Rocq [string]s; the characters are the code
      points 0..255.  Character classes ([\s], [str.isspace], hex digits,
      line boundaries of [str.splitlines]) are transcribed for that range.
    - Regular expressions are terms, decided by derivatives; the matcher
      is proved to decide membership in the language of the term.
    - Module globals ([prompt_seq], [_i2c_capture_*], [_dumpcmp_results],
      the two JSON files) are fields of explicit state records that every
      operation takes and returns.  Writing a file always succeeds.
    - [print] is not modelled, except that every finalisation of a capture
      (which the source reports with a [print]) is recorded in a ghost log;
      the sessions and the playback state carry ghost logs of what was
      appended and sent.
    - A Python exception ([IndexError] on [lines[0]], [KeyError] on a
      missing matrix row) is the [None] of an [option] result.
    - Loops without a structural bound ([while True], the recursion of
      [play_slot_recursive], the polling loop) take fuel, and are proved to
      return with the fuel their callers give them. *)

From Stdlib Require Import String Ascii NArith ZArith List Bool Lia.
From Stdlib Require Import QArith Qround Lqa.
From stdpp Require Import base option list gmap strings.

Import ListNotations.
Local Open Scope string_scope.

(** ** Python string primitives *)
Module PyStr.

Definition LF : ascii := "010"%char.
Definition CR : ascii := "013"%char.

Definition code (c : ascii) : N := N_of_ascii c.

Definition in_range (lo hi : N) (c : ascii) : bool :=
  (N.leb lo (code c)) && (N.leb (code c) hi).

(** [Py_UNICODE_ISSPACE] below 256: TAB..CR, FS..US, space, NEL, NBSP.
    It is the class of [\s], [str.strip()], [str.split()]. *)
Definition is_space (c : ascii) : bool :=
  in_range 9 13 c || in_range 28 32 c || N.eqb (code c) 133 || N.eqb (code c) 160.

(** [[0-9A-Fa-f]] *)
Definition is_hex (c : ascii) : bool :=
  in_range 48 57 c || in_range 65 70 c || in_range 97 102 c.

(** Line boundaries of [str.splitlines()] below 256. *)
Definition is_linebreak (c : ascii) : bool :=
  in_range 10 13 c || in_range 28 30 c || N.eqb (code c) 133.

Definition is_lf (c : ascii) : bool := Ascii.eqb c LF.

(** [str.lower()] / [str.upper()] on one character.  [lower] covers
    A-Z and the Latin-1 capitals; [upper] is only ever applied to the
    ASCII tokens kept by [_parse_dump_to_matrix]. *)
Definition lower_char (c : ascii) : ascii :=
  if in_range 65 90 c || in_range 192 214 c || in_range 216 222 c
  then ascii_of_N (code c + 32) else c.

Definition upper_char (c : ascii) : ascii :=
  if in_range 97 122 c then ascii_of_N (code c - 32) else c.

Fixpoint map_str (f : ascii -> ascii) (s : string) : string :=
  match s with
  | EmptyString => EmptyString
  | String c s' => String (f c) (map_str f s')
  end.

Definition lower : string -> string := map_str lower_char.
Definition upper : string -> string := map_str upper_char.

(** [s.startswith(p)] *)
Fixpoint startswith (s p : string) {struct p} : bool :=
  match p with
  | EmptyString => true
  | String c p' =>
      match s with
      | EmptyString => false
      | String d s' => Ascii.eqb c d && startswith s' p'
      end
  end.

(** [p in text] *)
Fixpoint str_in (p text : string) : bool :=
  startswith text p ||
  match text with
  | EmptyString => false
  | String _ t => str_in p t
  end.

(** ['\n' in s] together with [s.split('\n', 1)]: [None] when [s] holds no
    newline, otherwise the text before and after the first one. *)
Fixpoint split_first_nl (s : string) : option (string * string) :=
  match s with
  | EmptyString => None
  | String c s' =>
      if is_lf c then Some (EmptyString, s')
      else match split_first_nl s' with
           | Some (l, r) => Some (String c l, r)
           | None => None
           end
  end.

(** [s.rstrip('\r')] *)
Fixpoint rstrip_cr (s : string) : string :=
  match s with
  | EmptyString => EmptyString
  | String c s' =>
      match rstrip_cr s' with
      | EmptyString => if Ascii.eqb c CR then EmptyString else String c EmptyString
      | r => String c r
      end
  end.

Fixpoint lstrip (s : string) : string :=
  match s with
  | EmptyString => EmptyString
  | String c s' => if is_space c then lstrip s' else s
  end.

Fixpoint rstrip (s : string) : string :=
  match s with
  | EmptyString => EmptyString
  | String c s' =>
      match rstrip s' with
      | EmptyString => if is_space c then EmptyString else String c EmptyString
      | r => String c r
      end
  end.

(** [s.strip()] *)
Definition strip (s : string) : string := rstrip (lstrip s).

Definition is_empty (s : string) : bool :=
  match s with EmptyString => true | _ => false end.

(** [s.split()]: the maximal runs of non-whitespace characters.
    [cur] is the token being read. *)
Fixpoint split_ws_aux (cur : option string) (s : string) : list string :=
  match s with
  | EmptyString => match cur with Some t => [t] | None => [] end
  | String c s' =>
      if is_space c
      then match cur with
           | Some t => t :: split_ws_aux None s'
           | None => split_ws_aux None s'
           end
      else split_ws_aux (Some (match cur with Some t => t ++ String c "" | None => String c "" end)) s'
  end.

Definition split_ws (s : string) : list string := split_ws_aux None s.

(** [s.splitlines()]: split at line boundaries, CR LF counting as one;
    no empty last line. *)
Fixpoint splitlines_aux (cur : string) (s : string) : list string :=
  match s with
  | EmptyString => if is_empty cur then [] else [cur]
  | String c s' =>
      if is_linebreak c
      then match s' with
           | String d s'' =>
               if Ascii.eqb c CR && Ascii.eqb d LF
               then cur :: splitlines_aux "" s''
               else cur :: splitlines_aux "" s'
           | EmptyString => [cur]
           end
      else splitlines_aux (cur ++ String c "") s'
  end.

Definition splitlines (s : string) : list string := splitlines_aux "" s.

(** [s.split(sep)] for a non-empty separator: cut at every occurrence of
    [sep], scanning from the left.  [skip] counts the characters of an
    occurrence that are still to be dropped. *)
Fixpoint split_on_aux (sep : string) (skip : nat) (cur : string) (s : string)
  : list string :=
  match s with
  | EmptyString => [cur]
  | String c s' =>
      match skip with
      | S k => split_on_aux sep k cur s'
      | O =>
          if startswith s sep
          then cur :: split_on_aux sep (String.length sep - 1) "" s'
          else split_on_aux sep 0 (cur ++ String c "") s'
      end
  end.

Definition split_on (sep s : string) : list string := split_on_aux sep 0 "" s.

(** [sep.join(l)] *)
Fixpoint join (sep : string) (l : list string) : string :=
  match l with
  | [] => ""
  | [x] => x
  | x :: r => x ++ sep ++ join sep r
  end.

End PyStr.

(** ** Regular expressions

    The patterns of the source are kept as regular-expression terms and
    decided with Brzozowski derivatives.  All of them are anchored, so
    [re.match] is a membership test. *)
Module Regex.

Inductive re : Type :=
| Void : re
| Eps : re
| Cls (p : ascii -> bool) : re
| Cat (r s : re) : re
| Alt (r s : re) : re
| Star (r : re) : re.

Fixpoint nullable (r : re) : bool :=
  match r with
  | Void => false
  | Eps => true
  | Cls _ => false
  | Cat r s => nullable r && nullable s
  | Alt r s => nullable r || nullable s
  | Star _ => true
  end.

Fixpoint deriv (c : ascii) (r : re) : re :=
  match r with
  | Void => Void
  | Eps => Void
  | Cls p => if p c then Eps else Void
  | Cat r s =>
      if nullable r then Alt (Cat (deriv c r) s) (deriv c s)
      else Cat (deriv c r) s
  | Alt r s => Alt (deriv c r) (deriv c s)
  | Star r => Cat (deriv c r) (Star r)
  end.

(** The whole of [s] is in the language of [r]. *)
Fixpoint fullmatch (r : re) (s : string) : bool :=
  match s with
  | EmptyString => nullable r
  | String c s' => fullmatch (deriv c r) s'
  end.

(** Some prefix of [s] is in the language of [r]. *)
Fixpoint prefixmatch (r : re) (s : string) : bool :=
  nullable r ||
  match s with
  | EmptyString => false
  | String c s' => prefixmatch (deriv c r) s'
  end.

(** [r] has an empty language for a syntactic reason. *)
Fixpoint dead (r : re) : bool :=
  match r with
  | Void => true
  | Cat r s => dead r || dead s
  | Alt r s => dead r && dead s
  | _ => false
  end.

Definition chr (c : ascii) : re := Cls (Ascii.eqb c).

Fixpoint lit (s : string) : re :=
  match s with
  | EmptyString => Eps
  | String c s' => Cat (chr c) (lit s')
  end.

(** [r+] *)
Definition plus (r : re) : re := Cat r (Star r).

(** [r{n}] *)
Fixpoint rep (n : nat) (r : re) : re :=
  match n with
  | O => Eps
  | S k => Cat r (rep k r)
  end.

(** [r{0,n}] *)
Fixpoint upto (n : nat) (r : re) : re :=
  match n with
  | O => Eps
  | S k => Alt Eps (Cat r (upto k r))
  end.

(** [\s], [[0-9A-Fa-f]], [.] *)
Definition ws : re := Cls PyStr.is_space.
Definition hex : re := Cls PyStr.is_hex.
Definition dot : re := Cls (fun c => negb (PyStr.is_lf c)).

(** [$] at the end of a pattern: the end of the text, or the position
    before a newline that ends the text. *)
Definition eol : re := Alt Eps (Cls PyStr.is_lf).

(** The language of a pattern. *)
Inductive lang : re -> string -> Prop :=
| lang_eps : lang Eps EmptyString
| lang_cls (p : ascii -> bool) (c : ascii) :
    p c = true -> lang (Cls p) (String c EmptyString)
| lang_cat (r s : re) (u v : string) :
    lang r u -> lang s v -> lang (Cat r s) (u ++ v)
| lang_alt_l (r s : re) (u : string) : lang r u -> lang (Alt r s) u
| lang_alt_r (r s : re) (u : string) : lang s u -> lang (Alt r s) u
| lang_star_nil (r : re) : lang (Star r) EmptyString
| lang_star_app (r : re) (u v : string) :
    lang r u -> lang (Star r) v -> lang (Star r) (u ++ v).

End Regex.

(** ** Prompt tracking ([prompt_seq], lines 307-342) *)
Module Prompt.

(** Default of [PROMPT_PATTERNS]; [main] replaces it by the non-blank
    strings of the [prompt_patterns] key of the user configuration. *)
Definition DEFAULT_PROMPT_PATTERNS : list string := ["i2c>"].

Definition truthy_list {A} (l : list A) : bool :=
  match l with [] => false | _ => true end.

Section WithPatterns.
Variable PROMPT_PATTERNS : list string.

(** [for p in PROMPT_PATTERNS: if p and p in text: return True] *)
Definition _any_prompt_in (text : string) : bool :=
  existsb (fun p => negb (PyStr.is_empty p) && PyStr.str_in p text) PROMPT_PATTERNS.

(** [for p in PROMPT_PATTERNS: if p and line.startswith(p): return True] *)
Definition _line_is_prompt_start (line : string) : bool :=
  existsb (fun p => negb (PyStr.is_empty p) && PyStr.startswith line p) PROMPT_PATTERNS.

(** [inc_prompt_if_in]: the state is the global [prompt_seq]. *)
Definition inc_prompt_if_in (prompt_seq : Z) (text : string) : Z :=
  if truthy_list PROMPT_PATTERNS && _any_prompt_in text
  then (prompt_seq + 1)%Z
  else prompt_seq.

Definition get_prompt_seq (prompt_seq : Z) : Z := prompt_seq.

(** The receiver path: [inc_prompt_if_in] once per received chunk. *)
Definition observe_all (prompt_seq : Z) (chunks : list string) : Z :=
  fold_left inc_prompt_if_in chunks prompt_seq.

End WithPatterns.

(** The design's reading of "the chunk contains a configured marker". *)
Definition is_substring (p text : string) : Prop :=
  exists pre post, text = pre ++ p ++ post.

Definition contains_marker (pats : list string) (text : string) : Prop :=
  exists p, In p pats /\ is_substring p text.

End Prompt.

(** ** i2cdump capture (lines 344-401) *)
Module Capture.
Import Regex.

(** [^\s+00(?:\s+[0-9A-Fa-f]{2}){15}\s*$] *)
Definition _I2C_HEADER_RE : re :=
  Cat (plus ws) (Cat (lit "00")
    (Cat (rep 15 (Cat (plus ws) (rep 2 hex))) (Cat (Star ws) eol))).

(** [^[0-9A-Fa-f]{2}:\s+([0-9A-Fa-f]{2}\s+){0,15}[0-9A-Fa-f]{2}\s*$] *)
Definition _I2C_DATA_ROW_RE : re :=
  Cat (rep 2 hex) (Cat (lit ":") (Cat (plus ws)
    (Cat (upto 15 (Cat (rep 2 hex) (plus ws)))
       (Cat (rep 2 hex) (Cat (Star ws) eol))))).

(** [^00:\s] *)
Definition FIRST_ROW_RE : re := Cat (lit "00:") ws.

Definition _LAST_ADDR : string := "f0".
Definition NO_HEADER : string := "#NO_HEADER#".

(** Why a capture was finalised: the terminal-address path of
    [_i2c_capture_feed] (the design's "complete"), or
    [_maybe_finalize_partial] with its reason string ("prompt", the
    design's "prompt-interrupt", and "overflow"). *)
Inductive reason : Type :=
| Complete
| Partial (why : string).

Record finalized : Type := { fin_reason : reason; fin_lines : list string }.

Record state : Type := {
  fragment : string;                  (* _i2c_capture_buffer_fragment *)
  active : bool;                      (* _i2c_capture_active *)
  lines : list string;                (* _i2c_capture_lines *)
  last_dump : option (list string);   (* _last_captured_dump *)
  finals : list finalized             (* ghost: every finalisation, in order *)
}.

(** Process start: Idle. *)
Definition init : state :=
  {| fragment := ""; active := false; lines := []; last_dump := None; finals := [] |}.

Definition set_fragment (st : state) (f : string) : state :=
  {| fragment := f; active := active st; lines := lines st;
     last_dump := last_dump st; finals := finals st |}.

Definition set_capture (st : state) (a : bool) (l : list string) : state :=
  {| fragment := fragment st; active := a; lines := l;
     last_dump := last_dump st; finals := finals st |}.

Definition with_fragment (f : string) (st : state) : state := set_fragment st f.

(** [_last_captured_dump = _i2c_capture_lines[:]] and its [print]. *)
Definition record_dump (st : state) (why : reason) : state :=
  {| fragment := fragment st; active := active st; lines := lines st;
     last_dump := Some (lines st);
     finals := finals st ++ [{| fin_reason := why; fin_lines := lines st |}] |}.

Definition _maybe_finalize_partial (why : string) (st : state) : state :=
  let st1 := if active st && Prompt.truthy_list (lines st)
             then record_dump st (Partial why) else st in
  set_capture st1 false [].

Section WithPatterns.
Variable PROMPT_PATTERNS : list string.

(** The part of the loop body that runs while capturing (lines 386-401);
    [lines[0]] raises on an empty list. *)
Definition capture_line (st : state) (line : string) : option state :=
  match lines st with
  | [] => None
  | first :: _ =>
      let st1 :=
        if fullmatch _I2C_DATA_ROW_RE line || String.eqb line first
        then (if negb (String.eqb line first)
              then set_capture st (active st) (lines st ++ [line]) else st)
        else (if negb (PyStr.is_empty (PyStr.strip line))
              then set_capture st (active st) (lines st ++ [line]) else st) in
      if PyStr.startswith (PyStr.lower line) (_LAST_ADDR ++ ":")
      then Some (set_capture (record_dump st1 Complete) false [])
      else if Nat.ltb 60 (length (lines st1))
           then Some (_maybe_finalize_partial "overflow" st1)
           else Some st1
  end.

(** One turn of the loop body for an already split and CR-stripped line
    (lines 372-401). *)
Definition process_line (st : state) (line : string) : option state :=
  if Prompt.truthy_list PROMPT_PATTERNS && Prompt._line_is_prompt_start PROMPT_PATTERNS line
  then Some (if active st then _maybe_finalize_partial "prompt" st else st)
  else if negb (active st)
       then if fullmatch _I2C_HEADER_RE line
            then Some (set_capture st true [line])
            else if prefixmatch FIRST_ROW_RE line
                 then capture_line (set_capture st true [NO_HEADER]) line
                 else Some st
       else capture_line st line.

(** The [while True] loop; every turn removes a newline from the
    fragment, so [fuel] bounds the turns. *)
Fixpoint feed_loop (fuel : nat) (st : state) : option state :=
  match fuel with
  | O => Some st
  | S k =>
      match PyStr.split_first_nl (fragment st) with
      | None => Some st
      | Some (line, rest) =>
          match process_line (set_fragment st rest) (PyStr.rstrip_cr line) with
          | None => None
          | Some st' => feed_loop k st'
          end
      end
  end.

Definition _i2c_capture_feed (st : state) (chunk : string) : option state :=
  if PyStr.is_empty chunk then Some st
  else let st1 := set_fragment st (fragment st ++ chunk) in
       feed_loop (String.length (fragment st1)) st1.

(** The loop body on each of a list of lines in turn. *)
Fixpoint run_lines (ls : list string) (st : state) : option state :=
  match ls with
  | [] => Some st
  | l :: r =>
      match process_line st (PyStr.rstrip_cr l) with
      | None => None
      | Some st' => run_lines r st'
      end
  end.

(** The receiver path: one call per received chunk. *)
Fixpoint feed_all (st : state) (chunks : list string) : option state :=
  match chunks with
  | [] => Some st
  | c :: rest =>
      match _i2c_capture_feed st c with
      | None => None
      | Some st' => feed_all st' rest
      end
  end.

End WithPatterns.

(** The complete lines of a text and what follows its last newline. *)
Fixpoint split_lines (s : string) : list string * string :=
  match s with
  | EmptyString => ([], EmptyString)
  | String c s' =>
      let '(ls, t) := split_lines s' in
      if PyStr.is_lf c then (EmptyString :: ls, t)
      else match ls with
           | [] => ([], String c t)
           | l :: ls' => (String c l :: ls', t)
           end
  end.

(** A text without newline. *)
Definition one_line (l : string) : Prop := PyStr.split_first_nl l = None.

(** The chunks of a text, put together. *)
Fixpoint cat_all (chunks : list string) : string :=
  match chunks with
  | [] => ""
  | c :: r => c ++ cat_all r
  end.

(** The text of a list of lines, each newline-terminated. *)
Fixpoint unlines (ls : list string) : string :=
  match ls with
  | [] => ""
  | l :: r => l ++ String PyStr.LF (unlines r)
  end.

(** The invariant of the capture loop. *)
Definition capture_inv (st : state) : Prop :=
  (active st = true -> lines st <> [])
  /\ length (lines st) <= 60
  /\ Forall (fun d => length (fin_lines d) <= 61) (finals st)
  /\ (forall d, last_dump st = Some d -> length d <= 61).

(** A data row that is not at the terminal address, as the loop sees it. *)
Definition plain_row (pats : list string) (r : string) : Prop :=
  Regex.fullmatch _I2C_DATA_ROW_RE (PyStr.rstrip_cr r) = true
  /\ PyStr.startswith (PyStr.lower (PyStr.rstrip_cr r)) (_LAST_ADDR ++ ":") = false
  /\ Prompt._line_is_prompt_start pats (PyStr.rstrip_cr r) = false.

End Capture.

(** ** Dump compare (lines 801-920) and its persisted logs (lines 269-305) *)
Module Compare.
Import Regex.

Definition MAX_CMP_HISTORY_ENTRIES : nat := 200.
Definition MAX_CMP_RESULTS_ENTRIES : nat := 400.

(** [l[-n:]] for [n > 0]; [del l[:-n]] keeps the same elements. *)
Definition lastn {A} (n : nat) (l : list A) : list A := drop (List.length l - n) l.

Definition hexdigit (n : nat) : ascii :=
  ascii_of_nat (if Nat.ltb n 10 then 48 + n else 87 + n).

(** [f"{i:02x}"] for [i < 256] *)
Definition fmt_02x (i : nat) : string :=
  String (hexdigit (i / 16)) (String (hexdigit (i mod 16)) "").

(** [HEADER_LINE = "     " + " ".join(f"{i:02x}" for i in range(16))] *)
Definition HEADER_LINE : string :=
  "     " ++ PyStr.join " " (map fmt_02x (seq 0 16)).

(** [ROW_ADDRS = [f"{i:02x}" for i in range(0,256,16)]] *)
Definition ROW_ADDRS : list string := map (fun k => fmt_02x (16 * k)) (seq 0 16).

(** The pattern of a dump row: two hex digits in group 1, a colon,
    [\s+], then any characters but newline in group 2, up to [$]. *)
Definition ROW_RE : re :=
  Cat (rep 2 hex) (Cat (lit ":") (Cat (plus ws) (Cat (Star dot) eol))).

Fixpoint skipn_str (n : nat) (s : string) : string :=
  match n, s with
  | O, _ => s
  | S k, String _ s' => skipn_str k s'
  | S _, EmptyString => EmptyString
  end.

Fixpoint firstn_str (n : nat) (s : string) : string :=
  match n, s with
  | S k, String c s' => String c (firstn_str k s')
  | _, _ => EmptyString
  end.

Fixpoint take_dots (s : string) : string :=
  match s with
  | String c s' => if PyStr.is_lf c then EmptyString else String c (take_dots s')
  | EmptyString => EmptyString
  end.

(** The groups of a successful match of [ROW_RE]: the two address
    characters, and what the greedy [.*] takes after the greedy [\s+]. *)
Definition group1 (ln : string) : string := firstn_str 2 ln.
Definition group2 (ln : string) : string := take_dots (PyStr.lstrip (skipn_str 3 ln)).

Definition PLACEHOLDER : string := "--".
Definition MASK : string := "XX".

(** The row stored for one matching line (lines 812-816). *)
Definition parse_row (ln : string) : list string :=
  let rest := PyStr.strip (group2 ln) in
  let bytes_list := filter (fun b => Is_true (fullmatch (rep 2 hex) b)) (PyStr.split_ws rest) in
  let bytes_list :=
    if Nat.ltb (List.length bytes_list) 16
    then (bytes_list ++ replicate (16 - List.length bytes_list) PLACEHOLDER)%list
    else if Nat.ltb 16 (List.length bytes_list) then take 16 bytes_list
         else bytes_list in
  map PyStr.upper bytes_list.

Definition parse_line (matrix : gmap string (list string)) (ln : string)
  : gmap string (list string) :=
  if PyStr.startswith ln Capture.NO_HEADER then matrix
  else if fullmatch ROW_RE ln
       then <[PyStr.lower (group1 ln) := parse_row ln]> matrix
       else matrix.

Definition fill_row (matrix : gmap string (list string)) (a : string)
  : gmap string (list string) :=
  match matrix !! a with
  | Some _ => matrix
  | None => <[a := replicate 16 PLACEHOLDER]> matrix
  end.

Definition _parse_dump_to_matrix (lines : list string) : gmap string (list string) :=
  fold_left fill_row ROW_ADDRS (fold_left parse_line lines ∅).

Definition hexval (c : ascii) : option nat :=
  let n := nat_of_ascii c in
  if PyStr.in_range 48 57 c then Some (n - 48)
  else if PyStr.in_range 65 70 c then Some (n - 55)
  else if PyStr.in_range 97 102 c then Some (n - 87)
  else None.

Definition bit (v k : nat) : ascii := if Nat.testbit v k then "1"%char else "0"%char.

Definition nibble (v : nat) : string :=
  String (bit v 3) (String (bit v 2) (String (bit v 1) (String (bit v 0) ""))).

(** [_hex_to_bin] on a matrix cell: two hex digits give their eight bits
    in two groups; ["--"], on which [int(h,16)] raises, gives the dashes.
    Cells are never of another form ([parse_dump_cells]). *)
Definition _hex_to_bin (h : string) : string :=
  match h with
  | String c1 (String c2 EmptyString) =>
      match hexval c1, hexval c2 with
      | Some d1, Some d2 => nibble d1 ++ "_" ++ nibble d2
      | _, _ => "----_----"
      end
  | _ => "----_----"
  end.

(** [mA[addr]], a [KeyError] when the row is missing. *)
Definition row_of (m : gmap string (list string)) (addr : string) : option (list string) :=
  m !! addr.

(** Cell [i] of a row; rows have sixteen cells. *)
Definition cell (row : list string) (i : nat) : string := nth i row "".

(** One rendered row: ["XX" if rowA[i]==rowB[i] else f(shown[i])] for
    [i in range(16)], joined after the address. *)
Definition render_tokens (f : string -> string) (rowA rowB shown : list string)
  : list string :=
  map (fun i => if String.eqb (cell rowA i) (cell rowB i) then MASK else f (cell shown i))
      (seq 0 16).

Definition render_line (addr : string) (tokens : list string) : string :=
  addr ++ ":  " ++ PyStr.join " " tokens.

Definition count_diff (rowA rowB : list string) : nat :=
  List.length (filter (fun i => Is_true (negb (String.eqb (cell rowA i) (cell rowB i)))) (seq 0 16)).

Record cmp_result : Type := {
  r_timestamp : string;
  r_a : string;
  r_b : string;
  r_changed_rows : nat;
  r_changed_bytes : nat;
  r_hex_lines : list string;
  r_binary_lines : list string
}.

Record pair_stats : Type := {
  s_a : string;
  s_b : string;
  s_changed_rows : nat;
  s_changed_bytes : nat
}.

Record history_entry : Type := {
  h_timestamp : string;
  h_pairs : list pair_stats
}.

(** What the compare of two parsed matrices renders and counts
    (lines 839-872); [None] is a [KeyError]. *)
Record rendering : Type := {
  changed_rows : nat;
  changed_bytes : nat;
  hex_lines : list string;
  bin_lines : list string
}.

Definition rows_of (m : gmap string (list string)) : option (list (string * list string)) :=
  mapM (fun a => r ← row_of m a; Some (a, r)) ROW_ADDRS.

(** The sixteen rendered rows of one side of one view. *)
Definition side (f : string -> string) (pickA : bool)
    (rows : list ((string * list string) * (string * list string))) : list string :=
  map (fun '((addr, rowA), (_, rowB)) =>
         render_line addr (render_tokens f rowA rowB (if pickA then rowA else rowB)))
      rows.

Definition title (prefix a : string) : string := prefix ++ a.

Definition render (a b : string) (mA mB : gmap string (list string)) : option rendering :=
  rowsA ← rows_of mA;
  rowsB ← rows_of mB;
  let rows := zip rowsA rowsB in
  Some {|
    changed_rows :=
      List.length (filter (fun '((_, rowA), (_, rowB)) => 0 < count_diff rowA rowB) rows);
    changed_bytes :=
      foldr (fun '((_, rowA), (_, rowB)) n => count_diff rowA rowB + n) 0 rows;
    hex_lines :=
      (["hex"; title " disk:" a; HEADER_LINE] ++ side id true rows
       ++ [title "disk:" b; HEADER_LINE] ++ side id false rows)%list;
    bin_lines :=
      ([""; "binary"; title "disk:" a; HEADER_LINE] ++ side _hex_to_bin true rows
       ++ [title "disk:" b; HEADER_LINE] ++ side _hex_to_bin false rows)%list
  |}.

(** The session: dump slots, the two logs in memory and on disk, and the
    number of clock readings so far.  [stored] and [batches] are ghost
    logs of every record and history entry appended, in order. *)
Record session : Type := {
  i2c_dump_slots : gmap string (list string);
  _dumpcmp_results : list cmp_result;     (* in memory *)
  results_file : list cmp_result;         (* .dumpcmp_results.json *)
  cmp_history : list history_entry;       (* in memory *)
  history_file : list history_entry;      (* .dumpcmp_history.json *)
  ticks : nat;
  stored : list cmp_result;
  batches : list history_entry
}.

Definition truthy_dump (d : option (list string)) : option (list string) :=
  match d with
  | Some (l :: r) => Some (l :: r)
  | _ => None
  end.

Section WithClock.
(** [datetime.now().strftime(...)]: the text of the k-th clock reading. *)
Variable now : nat -> string.

(** [save_cmp_results]: nothing is written for an empty list. *)
Definition save_cmp_results (s : session) : session :=
  match _dumpcmp_results s with
  | [] => s
  | _ =>
    {| i2c_dump_slots := i2c_dump_slots s;
       _dumpcmp_results := _dumpcmp_results s;
       results_file := lastn MAX_CMP_RESULTS_ENTRIES (_dumpcmp_results s);
       cmp_history := cmp_history s; history_file := history_file s;
       ticks := ticks s; stored := stored s; batches := batches s |}
  end.

Definition _store_cmp_result (entry : cmp_result) (s : session) : session :=
  let mem := (_dumpcmp_results s ++ [entry])%list in
  let mem := if Nat.ltb MAX_CMP_RESULTS_ENTRIES (List.length mem)
             then lastn MAX_CMP_RESULTS_ENTRIES mem else mem in
  save_cmp_results
    {| i2c_dump_slots := i2c_dump_slots s;
       _dumpcmp_results := mem;
       results_file := results_file s;
       cmp_history := cmp_history s; history_file := history_file s;
       ticks := ticks s; stored := (stored s ++ [entry])%list; batches := batches s |}.

Definition tick (s : session) : session :=
  {| i2c_dump_slots := i2c_dump_slots s;
     _dumpcmp_results := _dumpcmp_results s; results_file := results_file s;
     cmp_history := cmp_history s; history_file := history_file s;
     ticks := S (ticks s); stored := stored s; batches := batches s |}.

(** [_dump_compare_single]: the statistics returned ([None] for an empty
    slot) and the session afterwards; the outer [None] is a [KeyError]. *)
Definition _dump_compare_single (a b : string) (s : session)
  : option (option pair_stats * session) :=
  match truthy_dump (i2c_dump_slots s !! a), truthy_dump (i2c_dump_slots s !! b) with
  | Some da, Some db =>
      r ← render a b (_parse_dump_to_matrix da) (_parse_dump_to_matrix db);
      let entry := {| r_timestamp := now (ticks s); r_a := a; r_b := b;
                      r_changed_rows := changed_rows r;
                      r_changed_bytes := changed_bytes r;
                      r_hex_lines := hex_lines r;
                      r_binary_lines := bin_lines r |} in
      Some (Some {| s_a := a; s_b := b;
                    s_changed_rows := changed_rows r;
                    s_changed_bytes := changed_bytes r |},
            _store_cmp_result entry (tick s))
  | _, _ => Some (None, s)
  end.

Definition dump_compare (a b : string) (s : session) : option session :=
  snd <$> _dump_compare_single a b s.

(** [cmp_history.append(entry); save_cmp_history(file, cmp_history)] *)
Definition append_history (entry : history_entry) (s : session) : session :=
  let mem := (cmp_history s ++ [entry])%list in
  {| i2c_dump_slots := i2c_dump_slots s;
     _dumpcmp_results := _dumpcmp_results s; results_file := results_file s;
     cmp_history := mem;
     history_file := lastn MAX_CMP_HISTORY_ENTRIES mem;
     ticks := ticks s; stored := stored s; batches := (batches s ++ [entry])%list |}.

(** The [for] loop of [multi_dump_compare] over the pairs still to do. *)
Fixpoint compare_pairs (pairs : list (string * string))
    (session_stats : list pair_stats) (s : session)
  : option (list pair_stats * session) :=
  match pairs with
  | [] => Some (session_stats, s)
  | (a, b) :: rest =>
      match _dump_compare_single a b s with
      | None => None
      | Some (Some stats, s') => compare_pairs rest (session_stats ++ [stats]) s'
      | Some (None, s') => compare_pairs rest session_stats s'
      end
  end.

Definition multi_dump_compare (pairs : list (string * string)) (s : session)
  : option session :=
  match pairs with
  | [] => Some s
  | _ =>
      '(session_stats, s1) ← compare_pairs pairs [] s;
      let entry := {| h_timestamp := now (ticks s1); h_pairs := session_stats |} in
      Some (append_history entry (tick s1))
  end.

(** The compare commands of a session. *)
Inductive command : Type :=
| DumpCmp (a b : string)
| DumpCmpMulti (pairs : list (string * string)).

Definition run_command (c : command) (s : session) : option session :=
  match c with
  | DumpCmp a b => dump_compare a b s
  | DumpCmpMulti pairs => multi_dump_compare pairs s
  end.

Fixpoint run_commands (cs : list command) (s : session) : option session :=
  match cs with
  | [] => Some s
  | c :: rest =>
      match run_command c s with
      | None => None
      | Some s' => run_commands rest s'
      end
  end.

End WithClock.

(** Every row of a matrix has sixteen cells. *)
Definition rows16 (m : gmap string (list string)) : Prop :=
  forall a row, m !! a = Some row -> length row = 16.

(** One side of one view when nothing differs. *)
Definition masked_rows (addrs : list string) : list string :=
  map (fun addr => render_line addr (replicate 16 MASK)) addrs.

(** What a run that appended the records [new] and the history entries
    [newh] has done to a session [s0]. *)
Definition effect (s0 : session) (new : list cmp_result)
    (newh : list history_entry) (s : session) : Prop :=
  i2c_dump_slots s = i2c_dump_slots s0
  /\ stored s = (stored s0 ++ new)%list
  /\ batches s = (batches s0 ++ newh)%list
  /\ cmp_history s = (cmp_history s0 ++ newh)%list
  /\ _dumpcmp_results s
     = match new with
       | [] => _dumpcmp_results s0
       | _ => lastn MAX_CMP_RESULTS_ENTRIES
                (_dumpcmp_results s0 ++ new)%list
       end
  /\ results_file s
     = match new with
       | [] => results_file s0
       | _ => lastn MAX_CMP_RESULTS_ENTRIES
                (_dumpcmp_results s0 ++ new)%list
       end
  /\ history_file s
     = match newh with
       | [] => history_file s0
       | _ => lastn MAX_CMP_HISTORY_ENTRIES
                (cmp_history s0 ++ newh)%list
       end.

(** The cells of a matrix are the placeholder or two hex digits, the
    only forms [_hex_to_bin] is given. *)
Definition cell_ok (cell : string) : Prop :=
  cell = PLACEHOLDER
  \/ exists c1 c2, cell = String c1 (String c2 "")
                   /\ PyStr.is_hex c1 = true /\ PyStr.is_hex c2 = true.

End Compare.

(** ** Slot playback (lines 727-750 and 974-1015) *)
Module Play.

Definition TOKEN_ENTER : string := "<ENTER>".
Definition DEPTH_LIMIT : nat := 40.

(** A slot value as [normalize_slot_value] and the [/set], [/combo] and
    [/enter] commands build it: a dict whose ["type"] is ["enter"],
    ["combo"] (with ["seq"]) or anything else (with ["data"]). *)
Inductive slot_value : Type :=
| Enter
| Combo (seq : string)
| Raw (data : string).

(** The dict object of a slot: [oid] is its [id(v)]. *)
Record slot : Type := { oid : positive; value : slot_value }.

(** A call of [send_line] or of [send_enter_only] with [safe=True]. *)
Inductive transmission : Type :=
| TxLine (text : string)
| TxEnter.

(** [ScriptContext]: the first-send flag, and a ghost count of the calls
    of [wait_for_next_prompt] it made. *)
Record ScriptContext : Type := { first_send : bool; waits : nat }.

Record pstate : Type := {
  visited : gset positive;
  ctx : ScriptContext;
  sent : list transmission
}.

Definition new_pstate : pstate :=
  {| visited := ∅; ctx := {| first_send := true; waits := 0 |}; sent := [] |}.

Section WithRegistry.
(** [slot_cmds]: a key maps to [None] (empty slot) or to a slot object. *)
Variable slot_cmds : gmap ascii (option slot).
Variable FAST_PLAY_MODE : bool.
Variable SCRIPT_WAIT_PROMPT : bool.

Definition wait_ready_if_needed (c : ScriptContext) : ScriptContext :=
  if FAST_PLAY_MODE then c
  else if negb SCRIPT_WAIT_PROMPT then c
  else if first_send c then {| first_send := false; waits := waits c |}
  else {| first_send := first_send c; waits := S (waits c) |}.

Definition transmit (t : transmission) (st : pstate) : pstate :=
  {| visited := visited st;
     ctx := wait_ready_if_needed (ctx st);
     sent := sent st ++ [t] |}.

Definition send_line (text : string) : pstate -> pstate := transmit (TxLine text).
Definition send_enter_only : pstate -> pstate := transmit TxEnter.

Definition set_visited (v : gset positive) (st : pstate) : pstate :=
  {| visited := v; ctx := ctx st; sent := sent st |}.

(** The inner [for line in lines] of the raw branch. *)
Definition play_line (st : pstate) (line : string) : pstate :=
  if PyStr.is_empty (PyStr.strip line) && negb (PyStr.is_empty line)
  then send_enter_only st
  else if negb (PyStr.is_empty line) then send_line line st
  else st.

(** One segment, without the break that may follow it. *)
Definition play_segment (segment : string) (st : pstate) : pstate :=
  let lines := PyStr.splitlines segment in
  let st1 := if negb (Prompt.truthy_list lines) && PyStr.is_empty segment
             then send_enter_only st else st in
  fold_left play_line lines st1.

(** [for pi,segment in enumerate(parts)]; [pi < len(parts)-1] exactly
    when a segment follows. *)
Fixpoint play_parts (parts : list string) (st : pstate) : pstate :=
  match parts with
  | [] => st
  | segment :: rest =>
      let st1 := play_segment segment st in
      let st2 := match rest with [] => st1 | _ => send_enter_only st1 end in
      play_parts rest st2
  end.

Definition play_raw (data : string) (st : pstate) : pstate :=
  play_parts (PyStr.split_on TOKEN_ENTER data) st.

(** [for c in v.get("seq",""): if c in slot_cmds: play(c)], with the
    recursive call as a parameter. *)
Fixpoint play_seq (play : ascii -> pstate -> option pstate) (seq : string)
    (st : pstate) : option pstate :=
  match seq with
  | EmptyString => Some st
  | String c seq' =>
      match (if bool_decide (is_Some (slot_cmds !! c)) then play c st else Some st) with
      | None => None
      | Some st' => play_seq play seq' st'
      end
  end.

(** [play_slot_recursive]; [None] only when [fuel] runs out. *)
Fixpoint play_slot_recursive (fuel : nat) (idx_char : ascii) (depth : nat)
    (st : pstate) : option pstate :=
  match fuel with
  | O => None
  | S k =>
      if Nat.ltb DEPTH_LIMIT depth then Some st
      else match slot_cmds !! idx_char with
           | None => Some st
           | Some None => Some st
           | Some (Some v) =>
               if bool_decide (oid v ∈ visited st) then Some st
               else
                 let st1 := set_visited ({[oid v]} ∪ visited st) st in
                 let body :=
                   match value v with
                   | Enter => Some (send_enter_only st1)
                   | Combo seq =>
                       play_seq (fun c => play_slot_recursive k c (S depth)) seq st1
                   | Raw data => Some (play_raw data st1)
                   end in
                 match body with
                 | None => None
                 | Some st2 => Some (set_visited (visited st2 ∖ {[oid v]}) st2)
                 end
           end
  end.

(** [play_slot]: a fresh context and an empty visited set.  Depth [d] is
    reached with [DEPTH_LIMIT + 2 - d] units of fuel left. *)
Definition play_slot (k : ascii) : option pstate :=
  match slot_cmds !! k with
  | None => Some new_pstate
  | Some _ => play_slot_recursive (DEPTH_LIMIT + 2) k 0 new_pstate
  end.

End WithRegistry.

(** The claim under test for raw slots, in the design's words: a line
    transmission per non-empty line, a terminator-only transmission per
    blank line and per segment boundary. *)
Definition designed_line (line : string) : transmission :=
  if PyStr.is_empty (PyStr.strip line) then TxEnter else TxLine line.

Fixpoint designed_parts (parts : list string) : list transmission :=
  match parts with
  | [] => []
  | segment :: rest =>
      (map designed_line (PyStr.splitlines segment)
       ++ match rest with [] => [] | _ => [TxEnter] end
       ++ designed_parts rest)%list
  end.

Definition designed_raw (data : string) : list transmission :=
  designed_parts (PyStr.split_on TOKEN_ENTER data).

(** The texts of the line transmissions, and the number of
    terminator-only transmissions, of a trace. *)
Definition texts (ts : list transmission) : list string :=
  flat_map (fun t => match t with TxLine s => [s] | TxEnter => [] end) ts.

Definition enters (ts : list transmission) : nat :=
  List.length (flat_map (fun t => match t with TxLine _ => [] | TxEnter => [tt] end) ts).

(** The three kinds of line the raw branch tells apart. *)
Definition has_text (line : string) : bool := negb (PyStr.is_empty (PyStr.strip line)).
Definition only_spaces (line : string) : bool :=
  PyStr.is_empty (PyStr.strip line) && negb (PyStr.is_empty line).

(** What the raw branch sends for one line and for one segment. *)
Definition line_tx (line : string) : list transmission :=
  if only_spaces line then [TxEnter]
  else if negb (PyStr.is_empty line) then [TxLine line]
  else [].

Definition segment_tx (segment : string) : list transmission :=
  ((if PyStr.is_empty segment then [TxEnter] else [])
   ++ flat_map line_tx (PyStr.splitlines segment))%list.

Fixpoint parts_tx (parts : list string) : list transmission :=
  match parts with
  | [] => []
  | segment :: rest =>
      (segment_tx segment
       ++ match rest with [] => [] | _ => [TxEnter] end
       ++ parts_tx rest)%list
  end.

(** Two registries that differ only in slots whose object is in [V]. *)
Definition agree_outside (V : gset positive) (r1 r2 : gmap ascii (option slot))
  : Prop :=
  forall c, r1 !! c = r2 !! c
            \/ exists v1 v2, r1 !! c = Some (Some v1) /\ r2 !! c = Some (Some v2)
                             /\ oid v1 ∈ V /\ oid v2 ∈ V.

End Play.

(** ** Waiting for the next prompt (lines 333-342)

    Time is a count of milliseconds.  [time.time()] reads the clock;
    [time.sleep(d)] called at time [t] returns at time [sleep t d], which
    is at least [t + d]; nothing else takes time.  The receiver thread is
    the function [seq_at], giving [prompt_seq] at each instant.  Whole
    milliseconds serve where only the order of the events matters;
    [WaitSeconds] below is the same function on a clock in seconds, with
    timeouts that need not be whole milliseconds, for the bounds on how
    long a call lasts. *)
Module Wait.

Definition POST_PROMPT_STABILIZE_MS : Z := 5.
Definition POLL_MS : Z := 10.

Inductive exit : Type :=
| Disabled      (* [if not SCRIPT_WAIT_PROMPT: return prev_seq] *)
| Advanced      (* [return cur], inside the loop *)
| TimedOut.     (* [return get_prompt_seq()], after the loop *)

Record outcome : Type := { result : Z; finished_at : Z; via : exit }.


Section WithWorld.
Variable SCRIPT_WAIT_PROMPT : bool.
Variable seq_at : Z -> Z.
Variable sleep : Z -> Z -> Z.

(** The [while time.time() < deadline] loop, entered at time [t]. *)
Fixpoint wait_loop (fuel : nat) (prev_seq deadline t : Z) : option outcome :=
  match fuel with
  | O => None
  | S k =>
      if (t <? deadline)%Z
      then let cur := seq_at t in
           if (prev_seq <? cur)%Z
           then Some {| result := cur;
                        finished_at := sleep t POST_PROMPT_STABILIZE_MS;
                        via := Advanced |}
           else wait_loop k prev_seq deadline (sleep t POLL_MS)
      else Some {| result := seq_at t; finished_at := t; via := TimedOut |}
  end.

(** [wait_for_next_prompt(prev_seq, timeout)] called at time [t0]; the
    loop makes at most [timeout / 10 + 1] turns before the deadline. *)
Definition wait_for_next_prompt (prev_seq timeout t0 : Z) : option outcome :=
  if negb SCRIPT_WAIT_PROMPT
  then Some {| result := prev_seq; finished_at := t0; via := Disabled |}
  else wait_loop (Z.to_nat (timeout / POLL_MS) + 2) prev_seq (t0 + timeout)%Z t0.

End WithWorld.

End Wait.

(** ** Sample device output *)
Module Samples.

Definition header : string :=
  "     00 01 02 03 04 05 06 07 08 09 0a 0b 0c 0d 0e 0f".

Definition row (addr : string) : string :=
  addr ++ ": 00 11 22 33 44 55 66 77 88 99 aa bb cc dd ee ff".

Definition first_fifteen : list string :=
  map row ["00"; "10"; "20"; "30"; "40"; "50"; "60"; "70";
           "80"; "90"; "a0"; "b0"; "c0"; "d0"; "e0"].


Definition prompt_line : string := "i2c> ".

Definition clock (k : nat) : string := "2025-09-04 00:03:00".

(** A raw text with an empty line between two commands. *)
Definition blank_line_text : string :=
  "a" ++ String PyStr.LF (String PyStr.LF "b").

Definition raw_slot (o : positive) (data : string) : option Play.slot :=
  Some {| Play.oid := o; Play.value := Play.Raw data |}.

Definition combo_slot (o : positive) (seq : string) : option Play.slot :=
  Some {| Play.oid := o; Play.value := Play.Combo seq |}.

(** Slot [a] is the combo [ab]: it names itself, then the raw slot [b]. *)
Definition self_combo : gmap ascii (option Play.slot) :=
  {[ "a"%char := combo_slot 1 "ab"; "b"%char := raw_slot 2 "x" ]}.

(** Slot [a] is the combo [cb], slot [c] the combo [a]: a cycle through
    an intermediate slot. *)
Definition indirect_combo : gmap ascii (option Play.slot) :=
  {[ "a"%char := combo_slot 1 "cb"; "b"%char := raw_slot 2 "x";
     "c"%char := combo_slot 3 "a" ]}.

(** Two saved dumps that differ in one byte, and empty logs. *)
Definition session0 : Compare.session :=
  {| Compare.i2c_dump_slots :=
       {[ "1" := [header; "00: aa 01"; "f0: ff"]; "2" := [header; "00: ab 01"] ]};
     Compare._dumpcmp_results := []; Compare.results_file := [];
     Compare.cmp_history := []; Compare.history_file := [];
     Compare.ticks := 0; Compare.stored := []; Compare.batches := [] |}.

End Samples.

(** ** The shape of captured dumps (lines 354-401, what the loop keeps) *)
Module CaptureShape.
Import Capture.

(** [line.lower().startswith(_LAST_ADDR + ":")] *)
Definition is_terminal_row (l : string) : bool :=
  PyStr.startswith (PyStr.lower l) (_LAST_ADDR ++ ":").

(** [line.strip()] is truthy. *)
Definition nonblank (l : string) : bool := negb (PyStr.is_empty (PyStr.strip l)).

(** What [_i2c_capture_lines[0]] can be: a header line or the sentinel. *)
Definition first_line_ok (f : string) : Prop :=
  f = NO_HEADER \/ Regex.fullmatch _I2C_HEADER_RE f = true.

(** A line the loop appended behind the first one and went on. *)
Definition kept_line (f l : string) : Prop :=
  l <> f /\ nonblank l = true /\ is_terminal_row l = false.

(** The buffer between two turns of the loop. *)
Definition buffer_ok (ls : list string) : Prop :=
  match ls with
  | [] => True
  | f :: rest => first_line_ok f /\ Forall (kept_line f) rest
  end.

(** A finalised dump, by the reason it was finalised for. *)
Definition dump_ok (d : finalized) : Prop :=
  match fin_lines d with
  | [] => False
  | f :: rest =>
      first_line_ok f
      /\ match fin_reason d with
         | Complete =>
             exists body t, rest = (body ++ [t])%list
                            /\ Forall (kept_line f) body
                            /\ t <> f /\ is_terminal_row t = true
         | Partial why =>
             Forall (kept_line f) rest
             /\ ((why = "prompt" /\ List.length (fin_lines d) <= 60)
                 \/ (why = "overflow" /\ List.length (fin_lines d) = 61))
         end
  end.

(** The state between two turns of the loop. *)
Definition state_ok (st : state) : Prop :=
  (active st = true -> lines st <> [])
  /\ (active st = false -> lines st = [])
  /\ buffer_ok (lines st)
  /\ List.length (lines st) <= 60
  /\ Forall dump_ok (finals st)
  /\ last_dump st = fin_lines <$> last (finals st).

(** A line that the Idle machine drops: neither a header nor a first row
    (a prompt line is dropped in Idle as well). *)
Definition idle_noise (l : string) : Prop :=
  Regex.fullmatch _I2C_HEADER_RE (PyStr.rstrip_cr l) = false
  /\ Regex.prefixmatch FIRST_ROW_RE (PyStr.rstrip_cr l) = false.

End CaptureShape.

(** ** Further sample data *)
Module Cases.

(** Console chatter that is neither a header nor a first row. *)
Definition chatter : list string := ["booting"; ""; "i2cdump -y 1 0x50"].

(** A dump that a tool printed without its header line. *)
Definition bare_rows : list string :=
  map Samples.row ["00"; "10"; "20"].

End Cases.

(** ** The receiver thread in hex-dump mode (lines 143-144, 408-423) *)
Module Receiver.

(** The digit of [format(b, "02X")] for a value below 16. *)
Definition HEXDIGIT (n : nat) : ascii :=
  ascii_of_nat (if Nat.ltb n 10 then 48 + n else 55 + n).

(** [f"{b:02X}"] for a byte *)
Definition fmt_02X (b : Byte.byte) : string :=
  let n := N.to_nat (Byte.to_N b) in
  String (HEXDIGIT (n / 16)) (String (HEXDIGIT (n mod 16)) "").

(** [format_hex]: [" ".join(f"{b:02X}" for b in data)] *)
Definition format_hex (data : list Byte.byte) : string :=
  PyStr.join " " (map fmt_02X data).

(** The globals the receiver writes: the prompt counter and the capture
    machine. *)
Record rx : Type := { prompt_seq : Z; capture : Capture.state }.

Section WithPatterns.
Variable PROMPT_PATTERNS : list string.

(** One turn of [SerialReaderThread.run] with [quiet] off and [hex_dump]
    on, for the bytes that [ser.read] returned (the log file and the
    print left out): nothing on an empty read; otherwise the hex text
    is shown to the prompt counter and fed, with a newline, to the capture
    machine. *)
Definition run_hex_dump (st : rx) (data : list Byte.byte) : option rx :=
  match data with
  | [] => Some st
  | _ =>
      let txt := format_hex data in
      let seq := Prompt.inc_prompt_if_in PROMPT_PATTERNS (prompt_seq st) txt in
      match Capture._i2c_capture_feed PROMPT_PATTERNS (capture st)
              (txt ++ String PyStr.LF "") with
      | None => None
      | Some c => Some {| prompt_seq := seq; capture := c |}
      end
  end.

(** The turns of the loop for a sequence of reads. *)
Fixpoint run_hex_dump_all (st : rx) (reads : list (list Byte.byte)) : option rx :=
  match reads with
  | [] => Some st
  | data :: rest =>
      match run_hex_dump st data with
      | None => None
      | Some st' => run_hex_dump_all st' rest
      end
  end.

End WithPatterns.

(** The characters that [format_hex] can produce. *)
Definition hex_text_char (c : ascii) : bool :=
  PyStr.in_range 48 57 c || PyStr.in_range 65 70 c || Ascii.eqb c " ".

Fixpoint all_chars (p : ascii -> bool) (s : string) : bool :=
  match s with
  | EmptyString => true
  | String c s' => p c && all_chars p s'
  end.

End Receiver.

(** ** Global combos (lines 1017-1036) *)
Module GlobalCombo.
Import Play.

(** [DIGIT_SLOTS = [str(i) for i in range(10)]] *)
Definition DIGIT_SLOTS : list ascii :=
  ["0"; "1"; "2"; "3"; "4"; "5"; "6"; "7"; "8"; "9"]%char.

Section WithRegistry.
Variable slot_cmds : gmap ascii (option slot).
(** [global_combos]: the key sequence defined for a digit. *)
Variable global_combos : gmap ascii string.
Variable FAST_PLAY_MODE : bool.
Variable SCRIPT_WAIT_PROMPT : bool.

(** [for c in seq: if c in slot_cmds: play_slot_recursive(c,0,set(),ctx)]:
    every key is played at depth 0 with a fresh visited set, all keys
    with the one context. *)
Fixpoint run_seq (seq : string) (st : pstate) : option pstate :=
  match seq with
  | EmptyString => Some st
  | String c seq' =>
      match (if bool_decide (is_Some (slot_cmds !! c))
             then play_slot_recursive slot_cmds FAST_PLAY_MODE SCRIPT_WAIT_PROMPT
                    (DEPTH_LIMIT + 2) c 0 (set_visited ∅ st)
             else Some st) with
      | None => None
      | Some st' => run_seq seq' st'
      end
  end.

(** [run_global_combo(d)]: nothing for an undefined digit. *)
Definition run_global_combo (d : ascii) : option pstate :=
  match global_combos !! d with
  | None => Some new_pstate
  | Some seq => run_seq seq new_pstate
  end.

(** [for d in defined: seq=global_combos[d]; ...] *)
Fixpoint run_defined (defined : list ascii) (st : pstate) : option pstate :=
  match defined with
  | [] => Some st
  | d :: rest =>
      match global_combos !! d with
      | None => None
      | Some seq =>
          match run_seq seq st with
          | None => None
          | Some st' => run_defined rest st'
          end
      end
  end.

(** [run_all_global_combos()]: one context for all the defined digits. *)
Definition run_all_global_combos : option pstate :=
  let defined :=
    List.filter (fun d => bool_decide (is_Some (global_combos !! d))) DIGIT_SLOTS in
  if negb (Prompt.truthy_list defined) then Some new_pstate
  else run_defined defined new_pstate.

(** What a key sends when it is played alone with [play_slot], and what
    [run_global_combo] sends for a digit. *)
Definition slot_trace (c : ascii) : list transmission :=
  match play_slot slot_cmds FAST_PLAY_MODE SCRIPT_WAIT_PROMPT c with
  | Some st => sent st
  | None => []
  end.

Definition combo_trace (d : ascii) : list transmission :=
  match run_global_combo d with
  | Some st => sent st
  | None => []
  end.

(** The state after the transmissions [tx], in order. *)
Definition emit (tx : list transmission) (st : pstate) : pstate :=
  {| visited := visited st;
     ctx := Nat.iter (List.length tx)
              (wait_ready_if_needed FAST_PLAY_MODE SCRIPT_WAIT_PROMPT) (ctx st);
     sent := (sent st ++ tx)%list |}.

End WithRegistry.

(** A transmission that a script may make: a terminator alone, or a line
    that holds a character other than whitespace. *)
Definition sound (t : transmission) : Prop :=
  match t with
  | TxEnter => True
  | TxLine text => has_text text = true
  end.

End GlobalCombo.

(** ** The views of a compare (lines 839-872) *)
Module CompareViews.
Import Compare.

(** The row of a parsed dump at an address. *)
Definition fixed_row (lines : list string) (addr : string) : list string :=
  default [] (_parse_dump_to_matrix lines !! addr).

(** The rows at the sixteen fixed addresses, as the compare reads them. *)
Definition fixed_rows (lines : list string) : list (string * list string) :=
  map (fun a => (a, fixed_row lines a)) ROW_ADDRS.

(** The sixteen data rows of a rendered view that follow its first [off]
    lines: in [hex_lines] the side of [a] is at 3 and the side of [b] at
    21, in [binary_lines] at 4 and at 22. *)
Definition view_rows (off : nat) (lines : list string) : list string :=
  take 16 (drop off lines).

End CompareViews.

(** ** Cycles, in the design's words *)
Module PlayPath.
Import Play.

Section WithRegistry.
Variable slot_cmds : gmap ascii (option slot).

(** What playing key [c] should send when the slots whose objects are in
    [path] are being played (the slot that was asked for, and every combo
    through which the play came down to [c]): nothing for a slot on the
    path, whatever the number of slots in between; otherwise the slot's
    own transmissions, a combo being the transmissions of its keys, in
    order, each with the combo's object added to the path.  The depth cap
    of the code is kept. *)
Fixpoint path_trace (fuel : nat) (path : gset positive) (depth : nat) (c : ascii)
  : list transmission :=
  match fuel with
  | O => []
  | S k =>
      if Nat.ltb DEPTH_LIMIT depth then []
      else match slot_cmds !! c with
           | Some (Some v) =>
               if bool_decide (oid v ∈ path) then []
               else match value v with
                    | Enter => [TxEnter]
                    | Raw data => parts_tx (PyStr.split_on TOKEN_ENTER data)
                    | Combo seq =>
                        flat_map
                          (fun c' => if bool_decide (is_Some (slot_cmds !! c'))
                                     then path_trace k ({[oid v]} ∪ path) (S depth) c'
                                     else [])
                          (list_ascii_of_string seq)
                    end
           | _ => []
           end
  end.

End WithRegistry.

End PlayPath.

(** ** The rows of a dump, in the design's words *)
Module DumpRows.
Import Regex Compare.

(** The line is a row line for the address: it does not start with the
    no-header sentinel, it has the form of a row, and its two address
    characters, in lower case, are [addr]. *)
Definition carries (addr ln : string) : bool :=
  negb (PyStr.startswith ln Capture.NO_HEADER)
  && fullmatch ROW_RE ln
  && String.eqb (PyStr.lower (group1 ln)) addr.

(** The byte tokens of a row line: the whitespace-separated words after
    the address that are two hex digits. *)
Definition tokens (ln : string) : list string :=
  filter (fun b => Is_true (fullmatch (rep 2 hex) b))
         (PyStr.split_ws (PyStr.strip (group2 ln))).

(** Sixteen cells out of the tokens: the first sixteen, in upper case,
    and the placeholder for every cell that is missing. *)
Definition padded (toks : list string) : list string :=
  (map PyStr.upper (take 16 toks) ++ replicate (16 - List.length toks) PLACEHOLDER)%list.

(** The last line of the dump that carries the address, if any. *)
Definition last_row (lines : list string) (addr : string) : option string :=
  last (List.filter (carries addr) lines).

(** The matrix the design asks for. *)
Definition expected (lines : list string) (addr : string) : option (list string) :=
  match last_row lines addr with
  | Some ln => Some (padded (tokens ln))
  | None => if bool_decide (In addr ROW_ADDRS)
            then Some (replicate 16 PLACEHOLDER) else None
  end.

End DumpRows.

(** ** The log that a run of compares should leave *)
Module CompareLog.
Import Compare.

Section WithClock.
Variable now : nat -> string.
(** The dump slots; no compare changes them. *)
Variable slots : gmap string (list string).

(** Both slots hold a dump: the compare of the pair completes. *)
Definition completes (p : string * string) : bool :=
  match truthy_dump (slots !! fst p), truthy_dump (slots !! snd p) with
  | Some _, Some _ => true
  | _, _ => false
  end.

(** The record of the compare of a pair that completes, made at clock
    reading [t]. *)
Definition record_of (t : nat) (p : string * string) : option cmp_result :=
  match truthy_dump (slots !! fst p), truthy_dump (slots !! snd p) with
  | Some da, Some db =>
      r ← render (fst p) (snd p) (_parse_dump_to_matrix da) (_parse_dump_to_matrix db);
      Some {| r_timestamp := now t; r_a := fst p; r_b := snd p;
              r_changed_rows := changed_rows r; r_changed_bytes := changed_bytes r;
              r_hex_lines := hex_lines r; r_binary_lines := bin_lines r |}
  | _, _ => None
  end.

(** The records of the pairs that complete, in order; each takes one
    clock reading. *)
Fixpoint records_of (t : nat) (pairs : list (string * string)) : list cmp_result :=
  match pairs with
  | [] => []
  | p :: rest =>
      match record_of t p with
      | Some e => e :: records_of (S t) rest
      | None => records_of t rest
      end
  end.

Definition stats_of (e : cmp_result) : pair_stats :=
  {| s_a := r_a e; s_b := r_b e;
     s_changed_rows := r_changed_rows e; s_changed_bytes := r_changed_bytes e |}.

(** What one command appends: its records, its history entries (one for
    a batch with at least one pair, made after the records), and the
    clock readings it takes. *)
Definition command_records (t : nat) (c : command) : list cmp_result :=
  match c with
  | DumpCmp a b => records_of t [(a, b)]
  | DumpCmpMulti pairs => records_of t pairs
  end.

Definition command_entries (t : nat) (c : command) : list history_entry :=
  match c with
  | DumpCmp _ _ => []
  | DumpCmpMulti [] => []
  | DumpCmpMulti pairs =>
      let rs := records_of t pairs in
      [{| h_timestamp := now (t + List.length rs); h_pairs := map stats_of rs |}]
  end.

Definition command_ticks (t : nat) (c : command) : nat :=
  (t + List.length (command_records t c) + List.length (command_entries t c))%nat.

Fixpoint records (t : nat) (cs : list command) : list cmp_result :=
  match cs with
  | [] => []
  | c :: rest => (command_records t c ++ records (command_ticks t c) rest)%list
  end.

Fixpoint entries (t : nat) (cs : list command) : list history_entry :=
  match cs with
  | [] => []
  | c :: rest => (command_entries t c ++ entries (command_ticks t c) rest)%list
  end.

(** The pairs a command compares. *)
Definition command_pairs (c : command) : list (string * string) :=
  match c with
  | DumpCmp a b => [(a, b)]
  | DumpCmpMulti pairs => pairs
  end.

End WithClock.

End CompareLog.

(** ** Waiting for the next prompt, in seconds *)
Module WaitSeconds.

(** [POST_PROMPT_STABILIZE_MS/1000.0] and the [0.01] of the poll, in
    seconds. *)
Definition POST_PROMPT_STABILIZE : Q := 5 # 1000.
Definition POLL : Q := 1 # 100.

Record outcome : Type := { result : Z; finished_at : Q; via : Wait.exit }.

Section WithWorld.
Variable SCRIPT_WAIT_PROMPT : bool.
Variable seq_at : Q -> Z.

(** The [while time.time() < deadline] loop, entered at time [t]; a
    sleep lasts exactly as long as asked. *)
Fixpoint wait_loop (fuel : nat) (prev_seq : Z) (deadline t : Q) : option outcome :=
  match fuel with
  | O => None
  | S k =>
      if Qlt_le_dec t deadline
      then let cur := seq_at t in
           if (prev_seq <? cur)%Z
           then Some {| result := cur;
                        finished_at := (t + POST_PROMPT_STABILIZE)%Q;
                        via := Wait.Advanced |}
           else wait_loop k prev_seq deadline (t + POLL)%Q
      else Some {| result := seq_at t; finished_at := t; via := Wait.TimedOut |}
  end.

(** [wait_for_next_prompt(prev_seq, timeout)] called at time [t0], both
    in seconds; the loop makes at most [ceil(timeout / 0.01) + 1] turns. *)
Definition wait_for_next_prompt (prev_seq : Z) (timeout t0 : Q) : option outcome :=
  if negb SCRIPT_WAIT_PROMPT
  then Some {| result := prev_seq; finished_at := t0; via := Wait.Disabled |}
  else wait_loop (Z.to_nat (Qceiling (timeout / POLL)) + 2) prev_seq (t0 + timeout)%Q t0.

End WithWorld.

End WaitSeconds.

(** * Properties *)

(** ** Strings *)

Lemma startswith_app (t p : string) :
  PyStr.startswith t p = true <-> exists post, t = p ++ post.
Proof.
  revert t; induction p as [|c p IH]; intros t; simpl.
  - split; [intros _; exists t; reflexivity | reflexivity].
  - destruct t as [|d t].
    + split; [discriminate | intros [post H]; discriminate].
    + rewrite andb_true_iff, IH, Ascii.eqb_eq. split.
      * intros [-> [post ->]]. exists post; reflexivity.
      * intros [post H]. injection H as -> ->. eauto.
Qed.

Lemma str_in_spec (p t : string) :
  PyStr.str_in p t = true <-> Prompt.is_substring p t.
Proof.
  unfold Prompt.is_substring.
  induction t as [|d t IH]; simpl.
  - rewrite orb_false_r, startswith_app. split.
    + intros [post H]; exists "", post; exact H.
    + intros [pre [post H]]. destruct pre; simpl in H; [eauto | discriminate].
  - rewrite orb_true_iff, IH, startswith_app. split.
    + intros [[post H] | [pre [post H]]].
      * exists "", post; exact H.
      * exists (String d pre), post; simpl; now rewrite H.
    + intros [pre [post H]]. destruct pre as [|e pre]; simpl in H.
      * left; eauto.
      * right; exists pre, post; now injection H.
Qed.

Lemma append_cons (c : ascii) (s t : string) : String c s ++ t = String c (s ++ t).
Proof. reflexivity. Qed.

Lemma append_nil_r (s : string) : s ++ "" = s.
Proof. induction s as [|c s IH]; [reflexivity|]. now rewrite append_cons, IH. Qed.

Lemma append_assoc (s t u : string) : (s ++ t) ++ u = s ++ (t ++ u).
Proof. induction s as [|c s IH]; [reflexivity|]. now rewrite !append_cons, IH. Qed.

Lemma length_append (s t : string) :
  String.length (s ++ t) = String.length s + String.length t.
Proof. induction s as [|c s IH]; [reflexivity|]. rewrite append_cons. simpl. now rewrite IH. Qed.

Lemma append_nil_l (s : string) : "" ++ s = s.
Proof. reflexivity. Qed.

Lemma is_empty_spec (s : string) : PyStr.is_empty s = true <-> s = "".
Proof. destruct s; simpl; split; congruence. Qed.

(** ** The prompt counter *)

Lemma _any_prompt_in_spec (pats : list string) (text : string) :
  Forall (fun p => p <> "") pats ->
  Prompt._any_prompt_in pats text = true <-> Prompt.contains_marker pats text.
Proof.
  intros Hne. unfold Prompt._any_prompt_in, Prompt.contains_marker.
  rewrite existsb_exists. split.
  - intros [p [Hin H]]. apply andb_true_iff in H as [_ H].
    exists p; split; [exact Hin | now apply str_in_spec].
  - intros [p [Hin H]]. exists p; split; [exact Hin|].
    apply andb_true_iff; split.
    + rewrite Forall_forall in Hne. specialize (Hne p).
      destruct p; [exfalso; apply Hne; [now apply list_elem_of_In | reflexivity] | reflexivity].
    + now apply str_in_spec.
Qed.

#[local] Instance contains_marker_dec (pats : list string) (text : string) :
  Decision (Prompt.contains_marker pats text).
Proof.
  destruct (existsb (fun p => PyStr.str_in p text) pats) eqn:E.
  - left. apply existsb_exists in E as [p [Hin H]].
    exists p; split; [exact Hin | now apply str_in_spec].
  - right. intros [p [Hin H]].
    assert (existsb (fun p => PyStr.str_in p text) pats = true); [|congruence].
    apply existsb_exists; exists p; split; [exact Hin | now apply str_in_spec].
Defined.

Lemma inc_prompt_if_in_step (pats : list string) (n : Z) (text : string) :
  Forall (fun p => p <> "") pats ->
  Prompt.inc_prompt_if_in pats n text
  = (n + Z.of_nat (length (filter (Prompt.contains_marker pats) [text])))%Z.
Proof.
  intros Hne. unfold Prompt.inc_prompt_if_in.
  rewrite filter_cons, filter_nil.
  destruct (decide (Prompt.contains_marker pats text)) as [H|H].
  - pose proof (proj2 (_any_prompt_in_spec pats text Hne) H) as ->.
    destruct pats; [destruct H as [p [[] _]] | simpl; lia].
  - destruct (Prompt._any_prompt_in pats text) eqn:E.
    + exfalso; apply H; now apply _any_prompt_in_spec.
    + rewrite andb_false_r; simpl; lia.
Qed.

Lemma observe_all_count (pats : list string) (chunks : list string) (n : Z) :
  Forall (fun p => p <> "") pats ->
  Prompt.observe_all pats n chunks
  = (n + Z.of_nat (length (filter (Prompt.contains_marker pats) chunks)))%Z.
Proof.
  intros Hne. unfold Prompt.observe_all.
  revert n; induction chunks as [|c chunks IH]; intros n.
  - rewrite filter_nil; simpl; lia.
  - cbn [fold_left]. rewrite IH, (inc_prompt_if_in_step pats n c Hne).
    rewrite !filter_cons, filter_nil.
    destruct (decide (Prompt.contains_marker pats c)); cbn [length]; lia.
Qed.

(** C5.  For every sequence of chunks passed to [inc_prompt_if_in], the
    counter read by [get_prompt_seq] has grown by exactly the number of
    chunks that contain a configured marker as a substring (one per chunk,
    however many occurrences it holds), and it never decreases when more
    chunks follow.  Configured markers are non-empty. *)
Theorem prompt_seq_counts_chunks (pats : list string) (n0 : Z)
    (chunks more : list string) :
  Forall (fun p => p <> "") pats ->
  Prompt.get_prompt_seq (Prompt.observe_all pats n0 chunks)
  = (n0 + Z.of_nat (length (filter (Prompt.contains_marker pats) chunks)))%Z
  /\ (Prompt.get_prompt_seq (Prompt.observe_all pats n0 chunks)
      <= Prompt.get_prompt_seq (Prompt.observe_all pats n0 (chunks ++ more)))%Z.
Proof.
  intros Hne. unfold Prompt.get_prompt_seq.
  rewrite !observe_all_count by exact Hne.
  split; [reflexivity|].
  rewrite filter_app, length_app. lia.
Qed.

Lemma prompt_seq_counts_chunks_witness :
  Prompt.get_prompt_seq
    (Prompt.observe_all ["i2c>"] 7 ["x i2c> y i2c>"; "noise"; "i2c>"]) = 9%Z.
Proof.
  assert (Hne : Forall (fun p : string => p <> "") ["i2c>"]).
  { repeat constructor; discriminate. }
  destruct (prompt_seq_counts_chunks ["i2c>"] 7
              ["x i2c> y i2c>"; "noise"; "i2c>"] [] Hne) as [H _].
  rewrite H. reflexivity.
Defined.

(** ** Regular expressions *)

Lemma dead_not_nullable (r : Regex.re) : Regex.dead r = true -> Regex.nullable r = false.
Proof.
  induction r; simpl; try discriminate; try reflexivity.
  - intros H. apply orb_true_iff in H as [H|H].
    + now rewrite IHr1.
    + rewrite IHr2 by exact H. apply andb_false_r.
  - intros H. apply andb_true_iff in H as [H1 H2].
    now rewrite IHr1, IHr2.
Qed.

Lemma dead_deriv (c : ascii) (r : Regex.re) :
  Regex.dead r = true -> Regex.dead (Regex.deriv c r) = true.
Proof.
  induction r; simpl; try discriminate; try reflexivity.
  - intros H. destruct (Regex.nullable r1) eqn:N; simpl.
    + apply orb_true_iff in H as [H|H].
      * rewrite (dead_not_nullable r1 H) in N; discriminate.
      * rewrite H, IHr2 by exact H. now rewrite orb_true_r.
    + apply orb_true_iff in H as [H|H].
      * now rewrite IHr1.
      * rewrite H. apply orb_true_r.
  - intros H. apply andb_true_iff in H as [H1 H2].
    now rewrite IHr1, IHr2.
Qed.

Lemma dead_fullmatch (r : Regex.re) (s : string) :
  Regex.dead r = true -> Regex.fullmatch r s = false.
Proof.
  revert r; induction s as [|c s IH]; intros r H; simpl.
  - now apply dead_not_nullable.
  - apply IH. now apply dead_deriv.
Qed.

Lemma space_not_hex (c : ascii) : PyStr.is_space c = true -> PyStr.is_hex c = false.
Proof.
  destruct c as [[] [] [] [] [] [] [] []]; vm_compute; congruence.
Qed.

Lemma header_starts_with_space (s : string) :
  Regex.fullmatch Capture._I2C_HEADER_RE s = true ->
  exists c s', s = String c s' /\ PyStr.is_space c = true.
Proof.
  destruct s as [|c s]; [vm_compute; discriminate|].
  intros H. exists c, s; split; [reflexivity|].
  destruct (PyStr.is_space c) eqn:E; [reflexivity|].
  unfold Capture._I2C_HEADER_RE, Regex.plus in H.
  cbn [Regex.fullmatch Regex.deriv Regex.nullable Regex.ws andb] in H.
  rewrite E in H. rewrite dead_fullmatch in H; [discriminate | reflexivity].
Qed.

Lemma data_row_starts_with_hex (s : string) :
  Regex.fullmatch Capture._I2C_DATA_ROW_RE s = true ->
  exists c s', s = String c s' /\ PyStr.is_hex c = true.
Proof.
  destruct s as [|c s]; [vm_compute; discriminate|].
  intros H. exists c, s; split; [reflexivity|].
  destruct (PyStr.is_hex c) eqn:E; [reflexivity|].
  unfold Capture._I2C_DATA_ROW_RE in H.
  cbn [Regex.fullmatch Regex.deriv Regex.nullable Regex.rep Regex.hex andb] in H.
  rewrite E in H. rewrite dead_fullmatch in H; [discriminate | reflexivity].
Qed.

Lemma data_row_is_not_header (h r : string) :
  Regex.fullmatch Capture._I2C_HEADER_RE h = true ->
  Regex.fullmatch Capture._I2C_DATA_ROW_RE r = true ->
  String.eqb r h = false.
Proof.
  intros Hh Hr. apply String.eqb_neq. intros ->.
  destruct (header_starts_with_space _ Hh) as (c & s & -> & Hc).
  destruct (data_row_starts_with_hex _ Hr) as (c' & s' & Heq & Hc').
  injection Heq as <- <-. rewrite (space_not_hex c Hc) in Hc'. discriminate.
Qed.

Lemma default_prompt_first_char (c : ascii) (s : string) :
  c <> "i"%char ->
  Prompt._line_is_prompt_start Prompt.DEFAULT_PROMPT_PATTERNS (String c s) = false.
Proof.
  intros Hc.
  unfold Prompt._line_is_prompt_start, Prompt.DEFAULT_PROMPT_PATTERNS.
  cbn [existsb PyStr.is_empty negb andb orb PyStr.startswith].
  destruct (Ascii.eqb "i" c) eqn:E; [|reflexivity].
  apply Ascii.eqb_eq in E. congruence.
Qed.

(** With the default marker [i2c>], no header line and no data row is
    taken for a prompt. *)
Lemma default_prompt_not_header (h : string) :
  Regex.fullmatch Capture._I2C_HEADER_RE h = true ->
  Prompt._line_is_prompt_start Prompt.DEFAULT_PROMPT_PATTERNS h = false.
Proof.
  intros Hh. destruct (header_starts_with_space _ Hh) as (c & s & -> & Hc).
  apply default_prompt_first_char. intros ->. discriminate Hc.
Qed.

Lemma default_prompt_not_data_row (r : string) :
  Regex.fullmatch Capture._I2C_DATA_ROW_RE r = true ->
  Prompt._line_is_prompt_start Prompt.DEFAULT_PROMPT_PATTERNS r = false.
Proof.
  intros Hr. destruct (data_row_starts_with_hex _ Hr) as (c & s & -> & Hc).
  apply default_prompt_first_char. intros ->. discriminate Hc.
Qed.

(** *** The matcher is exact *)

Lemma append_eq_nil (u v : string) : (u ++ v)%string = "" -> u = "" /\ v = "".
Proof. destruct u; [auto | discriminate]. Qed.

Lemma nullable_lang (r : Regex.re) : Regex.nullable r = true <-> Regex.lang r "".
Proof.
  split.
  - induction r; cbn; intros H; try discriminate.
    + constructor.
    + apply andb_true_iff in H as [H1 H2].
      change "" with ("" ++ "")%string. constructor; auto.
    + apply orb_true_iff in H as [H|H]; [apply Regex.lang_alt_l | apply Regex.lang_alt_r]; auto.
    + constructor.
  - intros H. remember "" as e eqn:He. induction H; cbn; try discriminate; auto.
    + apply append_eq_nil in He as [-> ->]. now rewrite IHlang1, IHlang2.
    + rewrite IHlang by exact He. reflexivity.
    + rewrite IHlang by exact He. apply orb_true_r.
Qed.

Lemma lang_star_cons (r : Regex.re) (c : ascii) (s : string) :
  Regex.lang (Regex.Star r) (String c s) ->
  exists u v, s = (u ++ v)%string /\ Regex.lang r (String c u) /\ Regex.lang (Regex.Star r) v.
Proof.
  intros H. remember (Regex.Star r) as q eqn:Hq. remember (String c s) as w eqn:Hw.
  induction H; try discriminate.
  injection Hq as ->.
  destruct u as [|d u].
  - apply IHlang2; [reflexivity | exact Hw].
  - rewrite append_cons in Hw. injection Hw as -> <-. eauto.
Qed.

Lemma deriv_lang (c : ascii) (r : Regex.re) (s : string) :
  Regex.lang (Regex.deriv c r) s <-> Regex.lang r (String c s).
Proof.
  revert s; induction r as [| |p|r1 IH1 r2 IH2|r1 IH1 r2 IH2|r IH]; intros s; cbn.
  - split; intros H; inversion H.
  - split; intros H; inversion H.
  - destruct (p c) eqn:E; split; intros H; inversion H; subst.
    + now constructor.
    + constructor.
    + congruence.
  - assert (Hcat : Regex.lang (Regex.Cat (Regex.deriv c r1) r2) s ->
                   Regex.lang (Regex.Cat r1 r2) (String c s)).
    { intros H. inversion H; subst.
      rewrite <- append_cons. constructor; [now apply IH1 | assumption]. }
    destruct (Regex.nullable r1) eqn:N; split; intros H.
    + inversion H; subst; [now apply Hcat|].
      change (String c s) with ("" ++ String c s)%string.
      constructor; [now apply nullable_lang | now apply IH2].
    + inversion H as [| |? ? u v Hu Hv Heq| | | |]; subst.
      destruct u as [|d u].
      * rewrite append_nil_l in *. subst v. apply Regex.lang_alt_r. now apply IH2.
      * rewrite append_cons in *. match goal with E : String _ _ = String _ _ |- _ =>
          injection E as -> <- end.
        apply Regex.lang_alt_l. constructor; [now apply IH1 | assumption].
    + now apply Hcat.
    + inversion H as [| |? ? u v Hu Hv Heq| | | |]; subst.
      destruct u as [|d u].
      * apply nullable_lang in Hu. congruence.
      * rewrite append_cons in *. match goal with E : String _ _ = String _ _ |- _ =>
          injection E as -> <- end.
        constructor; [now apply IH1 | assumption].
  - split; intros H; inversion H; subst;
      [apply Regex.lang_alt_l | apply Regex.lang_alt_r | apply Regex.lang_alt_l | apply Regex.lang_alt_r];
      now apply IH1 || now apply IH2.
  - split; intros H.
    + inversion H; subst. rewrite <- append_cons.
      constructor; [now apply IH | assumption].
    + apply lang_star_cons in H as (u & v & -> & Hu & Hv).
      constructor; [now apply IH | assumption].
Qed.

(** The derivative matcher decides membership in the language of the
    pattern. *)
Lemma fullmatch_lang (r : Regex.re) (s : string) :
  Regex.fullmatch r s = true <-> Regex.lang r s.
Proof.
  revert r; induction s as [|c s IH]; intros r; cbn.
  - apply nullable_lang.
  - rewrite IH. apply deriv_lang.
Qed.

(** ** The capture loop *)

Lemma unlines_cons (l : string) (ls : list string) :
  Capture.unlines (l :: ls) = l ++ String PyStr.LF (Capture.unlines ls).
Proof. reflexivity. Qed.

Lemma unlines_split_lines (s : string) :
  Capture.unlines (fst (Capture.split_lines s)) ++ snd (Capture.split_lines s) = s.
Proof.
  induction s as [|c s IH]; [reflexivity|].
  cbn [Capture.split_lines]. destruct (Capture.split_lines s) as [ls t].
  cbn [fst snd] in IH.
  destruct (PyStr.is_lf c) eqn:E.
  - apply Ascii.eqb_eq in E; subst c. cbn [fst snd].
    now rewrite unlines_cons, append_nil_l, append_cons, IH.
  - destruct ls as [|l ls]; cbn [fst snd] in *.
    + change (Capture.unlines []) with "" in *. rewrite append_nil_l in *.
      now rewrite IH.
    + rewrite unlines_cons in *. rewrite !append_cons. now rewrite IH.
Qed.

Lemma split_first_nl_split_lines (s : string) :
  PyStr.split_first_nl s =
  match Capture.split_lines s with
  | (l :: ls, t) => Some (l, Capture.unlines ls ++ t)
  | ([], _) => None
  end.
Proof.
  induction s as [|c s IH]; [reflexivity|].
  cbn [Capture.split_lines PyStr.split_first_nl].
  pose proof (unlines_split_lines s) as U.
  destruct (Capture.split_lines s) as [ls t]. cbn [fst snd] in U.
  destruct (PyStr.is_lf c).
  - now rewrite U.
  - rewrite IH. destruct ls; reflexivity.
Qed.

Lemma split_lines_one_line (t : string) :
  Capture.one_line t -> Capture.split_lines t = ([], t).
Proof.
  unfold Capture.one_line. rewrite split_first_nl_split_lines.
  pose proof (unlines_split_lines t) as U.
  destruct (Capture.split_lines t) as [[|l ls] u]; [|discriminate].
  intros _. cbn [fst snd] in U. change (Capture.unlines []) with "" in U.
  rewrite append_nil_l in U. now rewrite U.
Qed.

Lemma split_lines_tail_one_line (s : string) :
  Capture.one_line (snd (Capture.split_lines s)).
Proof.
  unfold Capture.one_line.
  induction s as [|c s IH]; [reflexivity|].
  cbn [Capture.split_lines]. destruct (Capture.split_lines s) as [ls t].
  cbn [fst snd] in IH.
  destruct (PyStr.is_lf c) eqn:E; [exact IH|].
  destruct ls; cbn [fst snd PyStr.split_first_nl]; [|exact IH].
  now rewrite E, IH.
Qed.

Lemma split_lines_app (a b : string) :
  Capture.split_lines (a ++ b) =
  (fst (Capture.split_lines a)
     ++ fst (Capture.split_lines (snd (Capture.split_lines a) ++ b)),
   snd (Capture.split_lines (snd (Capture.split_lines a) ++ b)))%list.
Proof.
  induction a as [|c a IH].
  - cbn [Capture.split_lines fst snd app]. rewrite !append_nil_l.
    now destruct (Capture.split_lines b).
  - rewrite append_cons. cbn [Capture.split_lines]. rewrite IH.
    destruct (Capture.split_lines a) as [la ta]. cbn [fst snd].
    destruct (PyStr.is_lf c) eqn:E; [reflexivity|].
    destruct la as [|l la]; cbn [fst snd app].
    + rewrite append_cons. cbn [Capture.split_lines].
      destruct (Capture.split_lines (ta ++ b)) as [lb tb]. cbn [fst snd].
      rewrite E. now destruct lb.
    + reflexivity.
Qed.

Lemma one_line_cons (c : ascii) (l : string) :
  Capture.one_line (String c l) -> PyStr.is_lf c = false /\ Capture.one_line l.
Proof.
  unfold Capture.one_line. cbn [PyStr.split_first_nl].
  destruct (PyStr.is_lf c); [discriminate|].
  destruct (PyStr.split_first_nl l) as [[]|]; [discriminate|]. auto.
Qed.

Lemma split_lines_line (l s : string) :
  Capture.one_line l ->
  Capture.split_lines (l ++ String PyStr.LF s)
  = (l :: fst (Capture.split_lines s), snd (Capture.split_lines s)).
Proof.
  induction l as [|c l IH]; intros Hl.
  - rewrite append_nil_l. cbn [Capture.split_lines].
    destruct (Capture.split_lines s). reflexivity.
  - apply one_line_cons in Hl as [E Hl].
    rewrite append_cons. cbn [Capture.split_lines].
    rewrite (IH Hl), E. reflexivity.
Qed.

Lemma split_lines_unlines (ls : list string) (t : string) :
  Forall Capture.one_line ls -> Capture.one_line t ->
  Capture.split_lines (Capture.unlines ls ++ t) = (ls, t).
Proof.
  intros Hls Ht. induction Hls as [|l ls Hl _ IH].
  - now apply split_lines_one_line.
  - rewrite unlines_cons, append_assoc, append_cons.
    rewrite (split_lines_line _ _ Hl), IH. reflexivity.
Qed.
Ltac proj :=
  cbn [Capture.lines Capture.active Capture.fragment Capture.last_dump
       Capture.finals fmap option_fmap option_map].

Lemma capture_line_fragment (st : Capture.state) (f line : string) :
  Capture.capture_line (Capture.set_fragment st f) line
  = Capture.with_fragment f <$> Capture.capture_line st line.
Proof.
  destruct st as [fr a ls ld fs].
  unfold Capture.capture_line, Capture._maybe_finalize_partial, Capture.with_fragment,
    Capture.set_capture, Capture.record_dump, Capture.set_fragment.
  cbn [Capture.lines Capture.active Capture.fragment Capture.last_dump Capture.finals].
  destruct ls as [|first ls]; [reflexivity|].
  repeat (proj; match goal with
                | |- context [if ?b then _ else _] =>
                    lazymatch b with
                    | context [if _ then _ else _] => fail
                    | _ => destruct b
                    end
                end);
    proj; reflexivity.
Qed.

Lemma process_line_fragment (pats : list string) (st : Capture.state) (f line : string) :
  Capture.process_line pats (Capture.set_fragment st f) line
  = Capture.with_fragment f <$> Capture.process_line pats st line.
Proof.
  unfold Capture.process_line.
  destruct (Prompt.truthy_list pats && Prompt._line_is_prompt_start pats line).
  - destruct st as [fr a ls ld fs]; cbn. unfold Capture._maybe_finalize_partial.
    destruct a; cbn; [|reflexivity]. destruct ls; reflexivity.
  - replace (Capture.active (Capture.set_fragment st f)) with (Capture.active st)
      by now destruct st.
    destruct (Capture.active st); cbn [negb].
    + apply capture_line_fragment.
    + destruct (Regex.fullmatch Capture._I2C_HEADER_RE line).
      { now destruct st. }
      destruct (Regex.prefixmatch Capture.FIRST_ROW_RE line); [|reflexivity].
      rewrite <- capture_line_fragment. now destruct st.
Qed.

Lemma run_lines_fragment (pats : list string) (ls : list string)
    (st : Capture.state) (f : string) :
  Capture.run_lines pats ls (Capture.set_fragment st f)
  = Capture.with_fragment f <$> Capture.run_lines pats ls st.
Proof.
  revert st; induction ls as [|l ls IH]; intros st; [reflexivity|].
  cbn [Capture.run_lines]. rewrite process_line_fragment.
  destruct (Capture.process_line pats st (PyStr.rstrip_cr l)) as [st'|]; [|reflexivity].
  cbn. apply IH.
Qed.

Lemma run_lines_app (pats : list string) (l1 l2 : list string) (st : Capture.state) :
  Capture.run_lines pats (l1 ++ l2) st
  = Capture.run_lines pats l1 st ≫= Capture.run_lines pats l2.
Proof.
  revert st; induction l1 as [|l l1 IH]; intros st; [reflexivity|].
  cbn [Capture.run_lines app].
  destruct (Capture.process_line pats st (PyStr.rstrip_cr l)); [apply IH | reflexivity].
Qed.

Lemma split_lines_lines_one_line (s : string) :
  Forall Capture.one_line (fst (Capture.split_lines s)).
Proof.
  induction s as [|c s IH]; [constructor|].
  cbn [Capture.split_lines]. destruct (Capture.split_lines s) as [ls t].
  cbn [fst] in IH.
  destruct (PyStr.is_lf c) eqn:E; cbn [fst].
  - constructor; [reflexivity | exact IH].
  - destruct ls as [|l ls]; cbn [fst]; [constructor|].
    inversion IH as [|? ? Hl Hls]; subst. constructor; [|exact Hls].
    unfold Capture.one_line in *. cbn [PyStr.split_first_nl]. now rewrite E, Hl.
Qed.

Lemma with_fragment_twice (f g : string) (o : option Capture.state) :
  Capture.with_fragment g <$> (Capture.with_fragment f <$> o) = Capture.with_fragment g <$> o.
Proof. destruct o as [[]|]; reflexivity. Qed.

(** The loop, with fuel for every character of the fragment, runs the
    loop body on every complete line and leaves what follows the last
    newline in the fragment. *)
Lemma feed_loop_run_lines (pats : list string) (fuel : nat) (st : Capture.state) :
  String.length (Capture.fragment st) <= fuel ->
  Capture.feed_loop pats fuel st
  = Capture.with_fragment (snd (Capture.split_lines (Capture.fragment st)))
    <$> Capture.run_lines pats (fst (Capture.split_lines (Capture.fragment st))) st.
Proof.
  revert st; induction fuel as [|fuel IH]; intros st Hlen.
  - destruct st as [fr a ls ld fs]; cbn in *.
    destruct fr; [reflexivity | cbn in Hlen; lia].
  - cbn [Capture.feed_loop]. rewrite split_first_nl_split_lines.
    pose proof (unlines_split_lines (Capture.fragment st)) as U.
    pose proof (split_lines_tail_one_line (Capture.fragment st)) as T.
    destruct (Capture.split_lines (Capture.fragment st)) as [[|l ls] t] eqn:E;
      cbn [fst snd] in *.
    + change (Capture.unlines []) with "" in U. rewrite append_nil_l in U. subst t.
      now destruct st.
    + cbn [Capture.run_lines]. rewrite process_line_fragment.
      destruct (Capture.process_line pats st (PyStr.rstrip_cr l)) as [st'|];
        [|reflexivity].
      cbn [fmap option_fmap option_map].
      assert (Hfr : Capture.fragment (Capture.with_fragment (Capture.unlines ls ++ t) st')
                    = Capture.unlines ls ++ t) by now destruct st'.
      rewrite IH.
      * rewrite Hfr. assert (Forall Capture.one_line ls) as Hls.
        { pose proof (split_lines_lines_one_line (Capture.fragment st)) as L.
          rewrite E in L. now inversion L. }
        rewrite (split_lines_unlines ls t Hls T). cbn [fst snd].
        unfold Capture.with_fragment at 2. rewrite run_lines_fragment.
        apply with_fragment_twice.
      * rewrite Hfr. rewrite <- U in Hlen. rewrite unlines_cons in Hlen.
        rewrite append_assoc, length_append, append_cons in Hlen.
        cbn [String.length] in Hlen. lia.
Qed.
Lemma feed_run_lines (pats : list string) (st : Capture.state) (chunk : string) :
  Capture.one_line (Capture.fragment st) ->
  Capture._i2c_capture_feed pats st chunk
  = Capture.with_fragment (snd (Capture.split_lines (Capture.fragment st ++ chunk)))
    <$> Capture.run_lines pats
          (fst (Capture.split_lines (Capture.fragment st ++ chunk))) st.
Proof.
  intros Hf. unfold Capture._i2c_capture_feed.
  destruct chunk as [|c chunk]; cbn [PyStr.is_empty].
  - rewrite append_nil_r, (split_lines_one_line _ Hf). now destruct st.
  - rewrite feed_loop_run_lines by (destruct st; cbn; lia).
    replace (Capture.fragment (Capture.set_fragment st (Capture.fragment st ++ String c chunk)))
      with (Capture.fragment st ++ String c chunk) by now destruct st.
    rewrite run_lines_fragment. apply with_fragment_twice.
Qed.

Lemma run_lines_keeps_fragment (pats : list string) (ls : list string)
    (st st' : Capture.state) :
  Capture.run_lines pats ls st = Some st' ->
  Capture.fragment st' = Capture.fragment st.
Proof.
  intros H.
  assert (E : Capture.set_fragment st (Capture.fragment st) = st) by now destruct st.
  pose proof (run_lines_fragment pats ls st (Capture.fragment st)) as R.
  rewrite E, H in R. cbn in R. injection R as R.
  rewrite R. now destruct st'.
Qed.

(** Chunking does not matter: feeding a text in any pieces runs the loop
    body once on each of its complete lines, in order, and keeps the
    unfinished last line in the fragment. *)
Lemma feed_all_run_lines (pats : list string) (chunks : list string) (st : Capture.state) :
  Capture.one_line (Capture.fragment st) ->
  Capture.feed_all pats st chunks
  = Capture.with_fragment
      (snd (Capture.split_lines (Capture.fragment st ++ Capture.cat_all chunks)))
    <$> Capture.run_lines pats
          (fst (Capture.split_lines (Capture.fragment st ++ Capture.cat_all chunks))) st.
Proof.
  revert st; induction chunks as [|c chunks IH]; intros st Hf.
  - cbn [Capture.feed_all Capture.cat_all].
    rewrite append_nil_r, (split_lines_one_line _ Hf). now destruct st.
  - cbn [Capture.feed_all Capture.cat_all].
    rewrite feed_run_lines by exact Hf.
    rewrite <- append_assoc, (split_lines_app (Capture.fragment st ++ c)).
    cbn [fst snd]. rewrite run_lines_app.
    destruct (Capture.run_lines pats (fst (Capture.split_lines (Capture.fragment st ++ c))) st)
      as [st1|] eqn:R; [|reflexivity].
    cbn [fmap option_fmap option_map mbind option_bind].
    assert (F : Capture.fragment
                  (Capture.with_fragment (snd (Capture.split_lines (Capture.fragment st ++ c))) st1)
                = snd (Capture.split_lines (Capture.fragment st ++ c))) by now destruct st1.
    rewrite IH by (rewrite F; apply split_lines_tail_one_line).
    rewrite F. unfold Capture.with_fragment at 2.
    rewrite run_lines_fragment. apply with_fragment_twice.
Qed.
(** ** The capture buffer is bounded *)

Ltac split_inv := unfold Capture.capture_inv; split; [|split; [|split]].

Lemma capture_inv_init : Capture.capture_inv Capture.init.
Proof.
  split_inv; cbn; try lia; try constructor; try discriminate.
Qed.

Lemma capture_inv_with_fragment (f : string) (st : Capture.state) :
  Capture.capture_inv st -> Capture.capture_inv (Capture.with_fragment f st).
Proof. now destruct st. Qed.

Lemma _maybe_finalize_partial_inv (why : string) (st : Capture.state) :
  length (Capture.lines st) <= 61 ->
  Forall (fun d => length (Capture.fin_lines d) <= 61) (Capture.finals st) ->
  (forall d, Capture.last_dump st = Some d -> length d <= 61) ->
  Capture.capture_inv (Capture._maybe_finalize_partial why st).
Proof.
  intros Hl Hf Hd. destruct st as [fr a ls ld fs]; cbn in *.
  unfold Capture._maybe_finalize_partial; cbn.
  destruct (a && Prompt.truthy_list ls); split_inv; cbn;
    try discriminate; try lia; auto.
  - apply Forall_app; split; [exact Hf|]. constructor; [exact Hl | constructor].
  - intros d [= <-]. exact Hl.
Qed.

Lemma capture_line_inv (st : Capture.state) (line : string) :
  Capture.active st = true -> Capture.capture_inv st ->
  exists st', Capture.capture_line st line = Some st' /\ Capture.capture_inv st'.
Proof.
  intros Ha (Hne & Hl & Hf & Hd). specialize (Hne Ha).
  destruct st as [fr a ls ld fs]; cbn in *. subst a.
  unfold Capture.capture_line. proj.
  destruct ls as [|first ls]; [congruence|].
  change (length (first :: ls)) with (S (length ls)) in Hl.
  set (st1 := if Regex.fullmatch Capture._I2C_DATA_ROW_RE line || (line =? first)%string
              then _ else _).
  assert (H1 : Capture.active st1 = true
               /\ Capture.lines st1 <> []
               /\ length (Capture.lines st1) <= 61
               /\ Capture.finals st1 = fs /\ Capture.last_dump st1 = ld).
  { subst st1.
    repeat match goal with
           | |- context [if ?b then _ else _] => destruct b
           end; cbn; rewrite ?length_app; cbn;
      (split; [|split; [|split; [|split]]]); try lia; congruence. }
  destruct H1 as (A1 & N1 & L1 & F1 & D1).
  destruct (PyStr.startswith (PyStr.lower line) (Capture._LAST_ADDR ++ ":")).
  - eexists; split; [reflexivity|].
    split_inv; cbn; rewrite ?F1; try discriminate; try lia.
    + apply Forall_app; split; [exact Hf|]. constructor; [exact L1 | constructor].
    + intros d [= <-]. exact L1.
  - destruct (Nat.ltb 60 (length (Capture.lines st1))) eqn:E.
    + eexists; split; [reflexivity|].
      apply _maybe_finalize_partial_inv; [exact L1 | now rewrite F1 | now rewrite D1].
    + eexists; split; [reflexivity|].
      apply Nat.ltb_ge in E.
      split_inv; rewrite ?F1, ?D1; auto.
Qed.

Lemma process_line_inv (pats : list string) (st : Capture.state) (line : string) :
  Capture.capture_inv st ->
  exists st', Capture.process_line pats st line = Some st' /\ Capture.capture_inv st'.
Proof.
  intros Hinv. unfold Capture.process_line.
  destruct (Prompt.truthy_list pats && Prompt._line_is_prompt_start pats line).
  - eexists; split; [reflexivity|].
    destruct (Capture.active st); [|exact Hinv].
    destruct Hinv as (_ & Hl & Hf & Hd).
    apply _maybe_finalize_partial_inv; auto; lia.
  - destruct (Capture.active st) eqn:Ha; cbn [negb].
    + now apply capture_line_inv.
    + destruct (Regex.fullmatch Capture._I2C_HEADER_RE line).
      { eexists; split; [reflexivity|].
        destruct Hinv as (_ & Hl & Hf & Hd). destruct st; cbn in *.
        split_inv; cbn; try lia; auto. }
      destruct (Regex.prefixmatch Capture.FIRST_ROW_RE line).
      * apply capture_line_inv; [now destruct st|].
        destruct Hinv as (_ & Hl & Hf & Hd). destruct st; cbn in *.
        split_inv; cbn; try lia; auto.
      * eauto.
Qed.

Lemma run_lines_inv (pats : list string) (ls : list string) (st : Capture.state) :
  Capture.capture_inv st ->
  exists st', Capture.run_lines pats ls st = Some st' /\ Capture.capture_inv st'.
Proof.
  revert st; induction ls as [|l ls IH]; intros st Hinv; [eauto|].
  cbn [Capture.run_lines].
  destruct (process_line_inv pats st (PyStr.rstrip_cr l) Hinv) as (st1 & -> & H1).
  now apply IH.
Qed.

(** C10.  After any sequence of calls of [_i2c_capture_feed] from process
    start, the call returns, the buffer [_i2c_capture_lines] holds at most
    60 lines, and every dump finalised so far, for whatever reason, as
    well as the most recent capture, holds at most 61 lines. *)
Theorem capture_buffer_bounded (pats : list string) (chunks : list string) :
  exists st,
    Capture.feed_all pats Capture.init chunks = Some st
    /\ length (Capture.lines st) <= 60
    /\ Forall (fun d => length (Capture.fin_lines d) <= 61) (Capture.finals st)
    /\ (forall d, Capture.last_dump st = Some d -> length d <= 61).
Proof.
  rewrite feed_all_run_lines by reflexivity.
  destruct (run_lines_inv pats
              (fst (Capture.split_lines (Capture.fragment Capture.init ++ Capture.cat_all chunks)))
              Capture.init capture_inv_init) as (st & -> & Hinv).
  eexists; split; [reflexivity|].
  apply (capture_inv_with_fragment
           (snd (Capture.split_lines (Capture.fragment Capture.init ++ Capture.cat_all chunks))))
    in Hinv.
  destruct Hinv as (_ & Hl & Hf & Hd). auto.
Qed.
Lemma capture_buffer_bounded_witness :
  exists st,
    Capture.feed_all Prompt.DEFAULT_PROMPT_PATTERNS Capture.init
      [Capture.unlines (Samples.header :: Samples.first_fifteen); Samples.prompt_line]
    = Some st
    /\ length (Capture.lines st) <= 60
    /\ Forall (fun d => length (Capture.fin_lines d) <= 61) (Capture.finals st)
    /\ (forall d, Capture.last_dump st = Some d -> length d <= 61).
Proof.
  apply (capture_buffer_bounded Prompt.DEFAULT_PROMPT_PATTERNS
           [Capture.unlines (Samples.header :: Samples.first_fifteen);
            Samples.prompt_line]).
Defined.

(** ** Complete and interrupted captures *)










(** ** The parsed matrix and the compare of a dump with itself *)

Lemma parse_row_length (ln : string) : length (Compare.parse_row ln) = 16.
Proof.
  unfold Compare.parse_row. rewrite length_map.
  set (toks := filter _ _).
  destruct (Nat.ltb (length toks) 16) eqn:E1.
  - apply Nat.ltb_lt in E1. rewrite length_app, length_replicate. lia.
  - apply Nat.ltb_ge in E1. destruct (Nat.ltb 16 (length toks)) eqn:E2.
    + apply Nat.ltb_lt in E2. rewrite length_take. lia.
    + apply Nat.ltb_ge in E2. lia.
Qed.

Lemma parse_line_rows16 (m : gmap string (list string)) (ln : string) :
  Compare.rows16 m -> Compare.rows16 (Compare.parse_line m ln).
Proof.
  intros Hm. unfold Compare.parse_line.
  destruct (PyStr.startswith ln Capture.NO_HEADER); [exact Hm|].
  destruct (Regex.fullmatch Compare.ROW_RE ln); [|exact Hm].
  intros a row. rewrite lookup_insert. case_decide.
  - intros [= <-]. apply parse_row_length.
  - apply Hm.
Qed.

Lemma fill_row_rows16 (m : gmap string (list string)) (a : string) :
  Compare.rows16 m -> Compare.rows16 (Compare.fill_row m a).
Proof.
  intros Hm. unfold Compare.fill_row.
  destruct (m !! a) eqn:E; [exact Hm|].
  intros b row. rewrite lookup_insert. case_decide.
  - intros [= <-]. reflexivity.
  - apply Hm.
Qed.

Lemma fold_parse_line_rows16 (lines : list string) (m : gmap string (list string)) :
  Compare.rows16 m -> Compare.rows16 (fold_left Compare.parse_line lines m).
Proof.
  revert m; induction lines as [|ln lines IH]; intros m Hm; [exact Hm|].
  apply IH. now apply parse_line_rows16.
Qed.

Lemma fold_fill_row_rows16 (addrs : list string) (m : gmap string (list string)) :
  Compare.rows16 m -> Compare.rows16 (fold_left Compare.fill_row addrs m).
Proof.
  revert m; induction addrs as [|a addrs IH]; intros m Hm; [exact Hm|].
  apply IH. now apply fill_row_rows16.
Qed.

Lemma fill_row_keeps (m : gmap string (list string)) (a b : string) (row : list string) :
  m !! b = Some row -> Compare.fill_row m a !! b = Some row.
Proof.
  intros Hb. unfold Compare.fill_row.
  destruct (m !! a) eqn:E; [exact Hb|].
  rewrite lookup_insert_ne; [exact Hb | congruence].
Qed.

Lemma fold_fill_row_keeps (addrs : list string) (m : gmap string (list string))
    (b : string) (row : list string) :
  m !! b = Some row -> fold_left Compare.fill_row addrs m !! b = Some row.
Proof.
  revert m; induction addrs as [|a addrs IH]; intros m Hb; [exact Hb|].
  apply IH. now apply fill_row_keeps.
Qed.

(** A row absent from the source is synthesised, all placeholders; a row
    present in it is kept. *)
Lemma fold_fill_row_lookup (addrs : list string) (m : gmap string (list string))
    (a : string) :
  In a addrs ->
  fold_left Compare.fill_row addrs m !! a
  = Some (default (replicate 16 Compare.PLACEHOLDER) (m !! a)).
Proof.
  revert m; induction addrs as [|b addrs IH]; intros m Hin; [destruct Hin|].
  cbn [fold_left].
  destruct (decide (b = a)) as [->|Hne].
  - apply fold_fill_row_keeps. unfold Compare.fill_row.
    destruct (m !! a) eqn:Ea; [exact Ea | apply lookup_insert_eq].
  - destruct Hin as [->|Hin]; [congruence|].
    rewrite IH by exact Hin. do 2 f_equal.
    unfold Compare.fill_row. destruct (m !! b); [reflexivity|].
    now apply lookup_insert_ne.
Qed.

Lemma rows_of_fixed (m : gmap string (list string)) (addrs : list string) :
  (forall a, In a addrs -> is_Some (m !! a)) ->
  exists rs, mapM (fun a => r ← Compare.row_of m a; Some (a, r)) addrs = Some rs
             /\ map fst rs = addrs.
Proof.
  induction addrs as [|a addrs IH]; intros H.
  - exists []. split; reflexivity.
  - destruct (H a (or_introl eq_refl)) as [row Hrow].
    destruct IH as (rs & Hrs & Hfst); [intros b Hb; apply H; now right|].
    exists ((a, row) :: rs). split.
    + unfold Compare.row_of in *. cbn [mapM]. rewrite Hrow.
      cbn [mbind option_bind]. rewrite Hrs. reflexivity.
    + cbn. now rewrite Hfst.
Qed.

Lemma render_tokens_self (f : string -> string) (row shown : list string) :
  Compare.render_tokens f row row shown = replicate 16 Compare.MASK.
Proof.
  unfold Compare.render_tokens.
  assert (E : forall l : list nat,
             map (fun i => if String.eqb (Compare.cell row i) (Compare.cell row i)
                           then Compare.MASK else f (Compare.cell shown i)) l
             = replicate (length l) Compare.MASK).
  { induction l as [|i l IHl]; [reflexivity|].
    cbn. rewrite String.eqb_refl, IHl. reflexivity. }
  rewrite E. reflexivity.
Qed.

Lemma count_diff_self (row : list string) : Compare.count_diff row row = 0.
Proof.
  unfold Compare.count_diff.
  induction (seq 0 16) as [|i l IH]; [reflexivity|].
  rewrite filter_cons. rewrite String.eqb_refl. cbn [negb].
  destruct (decide (Is_true false)) as [[]|_]. exact IH.
Qed.

Lemma side_self (f : string -> string) (pickA : bool) (rs : list (string * list string)) :
  Compare.side f pickA (zip rs rs) = Compare.masked_rows (map fst rs).
Proof.
  induction rs as [|[addr row] rs IH]; [reflexivity|].
  cbn [zip zip_with Compare.side map fst Compare.masked_rows] in *.
  rewrite render_tokens_self. f_equal. exact IH.
Qed.

Lemma counts_self (rs : list (string * list string)) :
  length (filter (fun '((_, rowA), (_, rowB)) => 0 < Compare.count_diff rowA rowB)
            (zip rs rs)) = 0
  /\ foldr (fun '((_, rowA), (_, rowB)) n => Compare.count_diff rowA rowB + n) 0
       (zip rs rs) = 0.
Proof.
  induction rs as [|[addr row] rs [IH1 IH2]]; [split; reflexivity|].
  cbn [zip zip_with foldr]. rewrite filter_cons.
  pose proof (count_diff_self row) as Z.
  destruct (decide (0 < Compare.count_diff row row)) as [H|_]; [lia|].
  rewrite Z. split; [exact IH1 | exact IH2].
Qed.

Lemma parse_has_fixed_rows (lines : list string) (a : string) :
  In a Compare.ROW_ADDRS -> is_Some (Compare._parse_dump_to_matrix lines !! a).
Proof.
  intros Hin. unfold Compare._parse_dump_to_matrix.
  rewrite fold_fill_row_lookup by exact Hin. eauto.
Qed.

Lemma render_self (a : string) (lines : list string) :
  Compare.render a a (Compare._parse_dump_to_matrix lines)
    (Compare._parse_dump_to_matrix lines)
  = Some {| Compare.changed_rows := 0;
            Compare.changed_bytes := 0;
            Compare.hex_lines :=
              ["hex"; Compare.title " disk:" a; Compare.HEADER_LINE]
              ++ Compare.masked_rows Compare.ROW_ADDRS
              ++ [Compare.title "disk:" a; Compare.HEADER_LINE]
              ++ Compare.masked_rows Compare.ROW_ADDRS;
            Compare.bin_lines :=
              [""; "binary"; Compare.title "disk:" a; Compare.HEADER_LINE]
              ++ Compare.masked_rows Compare.ROW_ADDRS
              ++ [Compare.title "disk:" a; Compare.HEADER_LINE]
              ++ Compare.masked_rows Compare.ROW_ADDRS |}.
Proof.
  unfold Compare.render, Compare.rows_of.
  destruct (rows_of_fixed (Compare._parse_dump_to_matrix lines) Compare.ROW_ADDRS)
    as (rs & -> & Hfst); [intros b Hb; now apply parse_has_fixed_rows|].
  cbn [mbind option_bind].
  destruct (counts_self rs) as [-> ->].
  rewrite !side_self, Hfst. reflexivity.
Qed.
(** C6, as stated, fails: the matrix is keyed by whatever two-hex-digit
    address a line carries, so a dump with a row at [01] gives a matrix
    with a seventeenth row. *)
Lemma parse_matrix_extra_row :
  ~ (forall addr,
       is_Some (Compare._parse_dump_to_matrix ["01: aa"] !! addr) ->
       In addr Compare.ROW_ADDRS).
Proof.
  intros H.
  assert (E : Compare._parse_dump_to_matrix ["01: aa"] !! "01"
              = Some (["AA"] ++ replicate 15 "--")%list) by (vm_compute; reflexivity).
  specialize (H "01" (ex_intro _ _ E)).
  vm_compute in H. intuition discriminate.
Qed.

Local Open Scope list_scope.

Lemma parse_row_padded (ln : string) :
  Compare.parse_row ln = DumpRows.padded (DumpRows.tokens ln).
Proof.
  unfold Compare.parse_row, DumpRows.padded. fold (DumpRows.tokens ln).
  set (toks := DumpRows.tokens ln).
  destruct (Nat.ltb (length toks) 16) eqn:E1.
  - apply Nat.ltb_lt in E1. rewrite map_app, take_ge by lia. f_equal.
    induction (16 - length toks) as [|n IH]; [reflexivity|].
    cbn [replicate map]. now rewrite IH.
  - apply Nat.ltb_ge in E1.
    replace (16 - length toks) with 0 by lia. cbn [replicate]. rewrite app_nil_r.
    destruct (Nat.ltb 16 (length toks)) eqn:E2; [reflexivity|].
    apply Nat.ltb_ge in E2. now rewrite take_ge by lia.
Qed.

Lemma parse_line_lookup (m : gmap string (list string)) (ln addr : string) :
  Compare.parse_line m ln !! addr
  = if DumpRows.carries addr ln then Some (Compare.parse_row ln) else m !! addr.
Proof.
  unfold Compare.parse_line, DumpRows.carries.
  destruct (PyStr.startswith ln Capture.NO_HEADER); [reflexivity|].
  destruct (Regex.fullmatch Compare.ROW_RE ln); [|reflexivity].
  cbn [negb andb].
  destruct (String.eqb_spec (PyStr.lower (Compare.group1 ln)) addr) as [->|Hne].
  - apply lookup_insert_eq.
  - now apply lookup_insert_ne.
Qed.

Lemma last_app_one {A} (l : list A) (x : A) : last (l ++ [x]) = Some x.
Proof. induction l as [|y [|z l] IH]; [reflexivity | reflexivity | exact IH]. Qed.

Lemma fold_parse_line_lookup (lines : list string) (addr : string) :
  fold_left Compare.parse_line lines ∅ !! addr
  = Compare.parse_row <$> DumpRows.last_row lines addr.
Proof.
  unfold DumpRows.last_row.
  induction lines as [|ln lines IH] using rev_ind.
  - cbn. apply lookup_empty.
  - rewrite fold_left_app. cbn [fold_left].
    rewrite parse_line_lookup, List.filter_app. cbn [List.filter].
    destruct (DumpRows.carries addr ln).
    + now rewrite last_app_one.
    + now rewrite app_nil_r.
Qed.

Lemma fill_row_other (m : gmap string (list string)) (a b : string) :
  a <> b -> Compare.fill_row m a !! b = m !! b.
Proof.
  intros H. unfold Compare.fill_row.
  destruct (m !! a); [reflexivity|]. now apply lookup_insert_ne.
Qed.

Lemma fold_fill_row_other (addrs : list string) (m : gmap string (list string))
    (b : string) :
  ~ In b addrs -> fold_left Compare.fill_row addrs m !! b = m !! b.
Proof.
  revert m; induction addrs as [|a addrs IH]; intros m H; [reflexivity|].
  cbn [fold_left]. rewrite IH by (intros Hb; apply H; now right).
  apply fill_row_other. intros ->. apply H. now left.
Qed.

(** The parsed matrix is the matrix of the design. *)
Lemma parse_dump_expected (lines : list string) (addr : string) :
  Compare._parse_dump_to_matrix lines !! addr = DumpRows.expected lines addr.
Proof.
  unfold Compare._parse_dump_to_matrix, DumpRows.expected.
  destruct (decide (In addr Compare.ROW_ADDRS)) as [Hin|Hin].
  - rewrite bool_decide_eq_true_2 by exact Hin.
    rewrite fold_fill_row_lookup by exact Hin.
    rewrite fold_parse_line_lookup.
    destruct (DumpRows.last_row lines addr) as [ln|];
      [rewrite <- parse_row_padded|]; reflexivity.
  - rewrite bool_decide_eq_false_2 by exact Hin.
    rewrite fold_fill_row_other by exact Hin.
    rewrite fold_parse_line_lookup.
    destruct (DumpRows.last_row lines addr) as [ln|];
      [rewrite <- parse_row_padded|]; reflexivity.
Qed.

Lemma padded_length (toks : list string) : length (DumpRows.padded toks) = 16.
Proof.
  unfold DumpRows.padded. rewrite length_app, length_map, length_take, length_replicate. lia.
Qed.

(** C6 (amended).  For every list of lines the parsed matrix is the
    matrix of the rows of the dump: the row of an address is read from
    the last row line that carries the address, its two-hex-digit tokens
    in upper case, the first sixteen of them, the placeholder [--] in the
    cells that are missing; an address that no line carries has the
    all-placeholder row when it is one of the sixteen fixed addresses and
    no row otherwise.  So there is a row at each fixed address, and every
    row, at a fixed address or not, has exactly sixteen cells.
    Consequently the compare of a slot holding a non-empty dump with
    itself counts no changed row and no changed byte, and every cell of
    the four rendered blocks is the mask [XX]. *)
Theorem parse_matrix_shape_self_compare (now : nat -> string) (lines : list string)
    (a : string) (s : Compare.session) :
  let m := Compare._parse_dump_to_matrix lines in
  (forall addr, m !! addr = DumpRows.expected lines addr)
  /\ (forall toks, length (DumpRows.padded toks) = 16
                   /\ (length toks <= 16 ->
                       DumpRows.padded toks
                       = map PyStr.upper toks
                         ++ replicate (16 - length toks) Compare.PLACEHOLDER)
                   /\ (16 <= length toks ->
                       DumpRows.padded toks = map PyStr.upper (take 16 toks)))
  /\ (forall addr, In addr Compare.ROW_ADDRS -> is_Some (m !! addr))
  /\ (forall addr row, m !! addr = Some row -> length row = 16)
  /\ (forall addr, In addr Compare.ROW_ADDRS ->
        fold_left Compare.parse_line lines ∅ !! addr = None ->
        m !! addr = Some (replicate 16 Compare.PLACEHOLDER))
  /\ (lines <> [] ->
      Compare.i2c_dump_slots s !! a = Some lines ->
      exists entry,
        Compare._dump_compare_single now a a s
        = Some (Some {| Compare.s_a := a; Compare.s_b := a;
                        Compare.s_changed_rows := 0; Compare.s_changed_bytes := 0 |},
                Compare._store_cmp_result entry (Compare.tick s))
        /\ Compare.r_changed_rows entry = 0
        /\ Compare.r_changed_bytes entry = 0
        /\ Compare.r_hex_lines entry
           = (["hex"; Compare.title " disk:" a; Compare.HEADER_LINE]
              ++ Compare.masked_rows Compare.ROW_ADDRS
              ++ [Compare.title "disk:" a; Compare.HEADER_LINE]
              ++ Compare.masked_rows Compare.ROW_ADDRS)%list
        /\ Compare.r_binary_lines entry
           = ([""; "binary"; Compare.title "disk:" a; Compare.HEADER_LINE]
              ++ Compare.masked_rows Compare.ROW_ADDRS
              ++ [Compare.title "disk:" a; Compare.HEADER_LINE]
              ++ Compare.masked_rows Compare.ROW_ADDRS)%list).
Proof.
  intros m. split; [|split; [|split; [|split; [|split]]]].
  - intros addr. apply parse_dump_expected.
  - intros toks. split; [apply padded_length|]. unfold DumpRows.padded. split.
    + intros H. now rewrite take_ge by lia.
    + intros H. replace (16 - length toks) with 0 by lia. cbn [replicate].
      apply app_nil_r.
  - intros addr Hin. now apply parse_has_fixed_rows.
  - apply fold_fill_row_rows16, fold_parse_line_rows16.
    intros addr row. rewrite lookup_empty. discriminate.
  - intros addr Hin Hnone. subst m. unfold Compare._parse_dump_to_matrix.
    rewrite fold_fill_row_lookup by exact Hin. now rewrite Hnone.
  - intros Hne Hslot. unfold Compare._dump_compare_single. rewrite Hslot.
    destruct lines as [|l lines']; [congruence|].
    cbn [Compare.truthy_dump]. rewrite render_self.
    cbn [mbind option_bind].
    eexists; split; [reflexivity|].
    cbn [Compare.r_changed_rows Compare.r_changed_bytes Compare.r_hex_lines
         Compare.r_binary_lines].
    split; [reflexivity|]. split; [reflexivity|]. split; reflexivity.
Qed.
Lemma parse_matrix_shape_self_compare_witness :
  Compare._parse_dump_to_matrix [Samples.header; "00: aa 01"; "00: bb"; "f0: ff"; "0a: 1"]
    !! "00" = Some (["BB"] ++ replicate 15 "--")
  /\ Compare._parse_dump_to_matrix [Samples.header; "00: aa 01"; "00: bb"; "f0: ff"; "0a: 1"]
       !! "10" = Some (replicate 16 "--")
  /\ Compare._parse_dump_to_matrix [Samples.header; "00: aa 01"; "00: bb"; "f0: ff"; "0a: 1"]
       !! "0a" = Some (replicate 16 "--")
  /\ Compare._parse_dump_to_matrix [Samples.header; "00: aa 01"; "00: bb"; "f0: ff"; "0a: 1"]
       !! "0b" = None
  /\ exists entry,
       Compare._dump_compare_single Samples.clock "1" "1" Samples.session0
       = Some (Some {| Compare.s_a := "1"; Compare.s_b := "1";
                       Compare.s_changed_rows := 0; Compare.s_changed_bytes := 0 |},
               Compare._store_cmp_result entry (Compare.tick Samples.session0))
       /\ Compare.r_changed_rows entry = 0
       /\ Compare.r_changed_bytes entry = 0.
Proof.
  destruct (parse_matrix_shape_self_compare Samples.clock
              [Samples.header; "00: aa 01"; "00: bb"; "f0: ff"; "0a: 1"] "1"
              Samples.session0) as (E & _).
  destruct (parse_matrix_shape_self_compare Samples.clock
              [Samples.header; "00: aa 01"; "f0: ff"] "1" Samples.session0)
    as (_ & _ & _ & _ & _ & H).
  split; [rewrite E; vm_compute; reflexivity|].
  split; [rewrite E; vm_compute; reflexivity|].
  split; [rewrite E; vm_compute; reflexivity|].
  split; [rewrite E; vm_compute; reflexivity|].
  destruct H as (entry & H1 & H2 & H3 & _); [discriminate | reflexivity |].
  exists entry. split; [exact H1|]. split; [exact H2 | exact H3].
Defined.

Local Close Scope list_scope.

(** *** The cells of a parsed matrix *)

Lemma two_hex_digits (b : string) :
  Regex.fullmatch (Regex.rep 2 Regex.hex) b = true ->
  exists c1 c2, b = String c1 (String c2 "")
                /\ PyStr.is_hex c1 = true /\ PyStr.is_hex c2 = true.
Proof.
  destruct b as [|c1 [|c2 [|c3 b]]]; try (vm_compute; discriminate).
  - cbn. destruct (PyStr.is_hex c1); cbn; discriminate.
  - cbn. destruct (PyStr.is_hex c1) eqn:E1; cbn;
      [|intros H; discriminate].
    destruct (PyStr.is_hex c2) eqn:E2; cbn; [eauto | discriminate].
  - intros H. exfalso. cbn [Regex.fullmatch Regex.rep Regex.deriv Regex.nullable
                            Regex.hex andb] in H.
    destruct (PyStr.is_hex c1); cbn [Regex.deriv Regex.nullable andb orb] in H;
      destruct (PyStr.is_hex c2); cbn [Regex.deriv Regex.nullable andb orb] in H;
      rewrite dead_fullmatch in H by reflexivity; discriminate.
Qed.

Lemma upper_hex (c : ascii) :
  PyStr.is_hex c = true -> PyStr.is_hex (PyStr.upper_char c) = true.
Proof. destruct c as [[] [] [] [] [] [] [] []]; vm_compute; congruence. Qed.

Lemma parse_row_cells (ln : string) : Forall Compare.cell_ok (Compare.parse_row ln).
Proof.
  unfold Compare.parse_row.
  set (toks := filter _ _).
  assert (Htoks : Forall (fun b => Regex.fullmatch (Regex.rep 2 Regex.hex) b = true) toks).
  { subst toks. apply Forall_forall. intros b Hb.
    apply list_elem_of_filter in Hb as [Hb _]. now apply Is_true_true. }
  assert (Hup : forall l,
             Forall (fun b => b = Compare.PLACEHOLDER
                              \/ Regex.fullmatch (Regex.rep 2 Regex.hex) b = true) l ->
             Forall Compare.cell_ok (map PyStr.upper l)).
  { intros l Hl. apply Forall_map. eapply Forall_impl; [exact Hl|].
    intros b [->|Hb]; [left; reflexivity|].
    apply two_hex_digits in Hb as (c1 & c2 & -> & H1 & H2).
    right. exists (PyStr.upper_char c1), (PyStr.upper_char c2).
    split; [reflexivity|]. split; now apply upper_hex. }
  assert (Hr : Forall (fun b => b = Compare.PLACEHOLDER
                                \/ Regex.fullmatch (Regex.rep 2 Regex.hex) b = true) toks).
  { eapply Forall_impl; [exact Htoks|]. intros b Hb; now right. }
  apply Hup.
  destruct (Nat.ltb (length toks) 16).
  - apply Forall_app; split; [exact Hr|].
    apply Forall_replicate. now left.
  - destruct (Nat.ltb 16 (length toks)); [|exact Hr].
    now apply Forall_take.
Qed.

Lemma parse_dump_cells (lines : list string) (a : string) (row : list string) :
  Compare._parse_dump_to_matrix lines !! a = Some row -> Forall Compare.cell_ok row.
Proof.
  unfold Compare._parse_dump_to_matrix.
  assert (P : forall (m : gmap string (list string)),
             (forall b r, m !! b = Some r -> Forall Compare.cell_ok r) ->
             forall ls b r, fold_left Compare.parse_line ls m !! b = Some r ->
                            Forall Compare.cell_ok r).
  { intros m Hm ls. revert m Hm. induction ls as [|ln ls IH]; intros m Hm; [exact Hm|].
    cbn [fold_left]. apply IH. intros b r. unfold Compare.parse_line.
    destruct (PyStr.startswith ln Capture.NO_HEADER); [apply Hm|].
    destruct (Regex.fullmatch Compare.ROW_RE ln); [|apply Hm].
    rewrite lookup_insert. case_decide; [|apply Hm].
    intros [= <-]. apply parse_row_cells. }
  assert (F : forall addrs (m : gmap string (list string)),
             (forall b r, m !! b = Some r -> Forall Compare.cell_ok r) ->
             forall b r, fold_left Compare.fill_row addrs m !! b = Some r ->
                         Forall Compare.cell_ok r).
  { induction addrs as [|x addrs IH]; intros m Hm; [exact Hm|].
    cbn [fold_left]. apply IH. intros b r. unfold Compare.fill_row.
    destruct (m !! x); [apply Hm|].
    rewrite lookup_insert. case_decide; [|apply Hm].
    intros [= <-]. repeat constructor. }
  apply F. apply P. intros b r. rewrite lookup_empty. discriminate.
Qed.

(** ** The persisted logs *)

Local Open Scope list_scope.

Lemma lastn_length {A} (n : nat) (l : list A) : length (Compare.lastn n l) <= n.
Proof. unfold Compare.lastn. rewrite length_drop. lia. Qed.

Lemma lastn_short {A} (n : nat) (l : list A) : length l <= n -> Compare.lastn n l = l.
Proof.
  intros H. unfold Compare.lastn.
  replace (length l - n) with 0 by lia. reflexivity.
Qed.

Lemma lastn_idem {A} (n : nat) (l : list A) :
  Compare.lastn n (Compare.lastn n l) = Compare.lastn n l.
Proof. apply lastn_short, lastn_length. Qed.

Lemma lastn_app_lastn {A} (n : nat) (l k : list A) :
  Compare.lastn n (Compare.lastn n l ++ k) = Compare.lastn n (l ++ k).
Proof.
  unfold Compare.lastn.
  rewrite !length_app, length_drop, !drop_app, drop_drop, length_drop.
  f_equal; f_equal; lia.
Qed.

(** The newest entries are the ones kept: the log ends with the last
    [n] entries appended, or with all of them when they are fewer. *)
Lemma lastn_suffix {A} (n : nat) (l k : list A) :
  exists old, Compare.lastn n (l ++ k) = old ++ Compare.lastn n k.
Proof.
  unfold Compare.lastn. rewrite length_app, drop_app.
  destruct (decide (length l + length k <= n)) as [H|H].
  - exists l. replace (length l + length k - n) with 0 by lia.
    replace (length k - n) with 0 by lia. reflexivity.
  - exists (drop (length l + length k - n) l). f_equal. f_equal. lia.
Qed.

Lemma save_cmp_results_spec (s : Compare.session) :
  Compare._dumpcmp_results s <> [] ->
  Compare.save_cmp_results s
  = {| Compare.i2c_dump_slots := Compare.i2c_dump_slots s;
       Compare._dumpcmp_results := Compare._dumpcmp_results s;
       Compare.results_file :=
         Compare.lastn Compare.MAX_CMP_RESULTS_ENTRIES (Compare._dumpcmp_results s);
       Compare.cmp_history := Compare.cmp_history s;
       Compare.history_file := Compare.history_file s;
       Compare.ticks := Compare.ticks s; Compare.stored := Compare.stored s;
       Compare.batches := Compare.batches s |}.
Proof.
  intros H. unfold Compare.save_cmp_results.
  destruct (Compare._dumpcmp_results s); [congruence | reflexivity].
Qed.

Lemma lastn_snoc_nonempty {A} (l : list A) (e : A) :
  Compare.lastn Compare.MAX_CMP_RESULTS_ENTRIES (l ++ [e]) <> [].
Proof.
  unfold Compare.lastn. rewrite length_app, drop_app. cbn [length].
  intros H. apply app_eq_nil in H as [_ H].
  replace (length l + 1 - Compare.MAX_CMP_RESULTS_ENTRIES - length l)
    with 0 in H by (unfold Compare.MAX_CMP_RESULTS_ENTRIES; lia).
  discriminate H.
Qed.

Lemma _store_cmp_result_spec (e : Compare.cmp_result) (s : Compare.session) :
  let s' := Compare._store_cmp_result e s in
  Compare._dumpcmp_results s'
  = Compare.lastn Compare.MAX_CMP_RESULTS_ENTRIES (Compare._dumpcmp_results s ++ [e])
  /\ Compare.results_file s' = Compare._dumpcmp_results s'
  /\ Compare.stored s' = Compare.stored s ++ [e]
  /\ Compare.cmp_history s' = Compare.cmp_history s
  /\ Compare.history_file s' = Compare.history_file s
  /\ Compare.batches s' = Compare.batches s
  /\ Compare.i2c_dump_slots s' = Compare.i2c_dump_slots s
  /\ Compare.ticks s' = Compare.ticks s.
Proof.
  unfold Compare._store_cmp_result.
  set (mem := Compare._dumpcmp_results s ++ [e]).
  assert (Hmem : (if Nat.ltb Compare.MAX_CMP_RESULTS_ENTRIES (length mem)
                  then Compare.lastn Compare.MAX_CMP_RESULTS_ENTRIES mem else mem)
                 = Compare.lastn Compare.MAX_CMP_RESULTS_ENTRIES mem).
  { destruct (Nat.ltb _ _) eqn:E; [reflexivity|].
    apply Nat.ltb_ge in E. now rewrite lastn_short. }
  rewrite Hmem, save_cmp_results_spec by apply lastn_snoc_nonempty.
  cbn [Compare._dumpcmp_results Compare.results_file Compare.stored
       Compare.cmp_history Compare.history_file Compare.batches
       Compare.i2c_dump_slots Compare.ticks].
  rewrite lastn_idem. auto 10.
Qed.
Lemma effect_refl (s : Compare.session) : Compare.effect s [] [] s.
Proof. unfold Compare.effect. rewrite !app_nil_r. auto 10. Qed.

Lemma effect_trans (s0 s1 s2 : Compare.session)
    (n1 n2 : list Compare.cmp_result) (h1 h2 : list Compare.history_entry) :
  Compare.effect s0 n1 h1 s1 -> Compare.effect s1 n2 h2 s2 -> Compare.effect s0 (n1 ++ n2) (h1 ++ h2) s2.
Proof.
  intros (A1 & A2 & A3 & A4 & A5 & A6 & A7) (B1 & B2 & B3 & B4 & B5 & B6 & B7).
  unfold Compare.effect.
  rewrite B1, B2, B3, B4, B5, B6, B7, A1, A2, A3, A4, A5, A6, A7, <- !app_assoc.
  split; [reflexivity|]. split; [reflexivity|].
  split; [reflexivity|]. split; [reflexivity|].
  assert (R : forall (X : list Compare.cmp_result),
            match n2 with
            | [] => X
            | _ => Compare.lastn Compare.MAX_CMP_RESULTS_ENTRIES
                     (match n1 with
                      | [] => Compare._dumpcmp_results s0
                      | _ => Compare.lastn Compare.MAX_CMP_RESULTS_ENTRIES
                               (Compare._dumpcmp_results s0 ++ n1)
                      end ++ n2)
            end
            = match n1 ++ n2 with
              | [] => match n1 with [] => X | _ => X end
              | _ => match n2 with
                     | [] => X
                     | _ => Compare.lastn Compare.MAX_CMP_RESULTS_ENTRIES
                              (Compare._dumpcmp_results s0 ++ n1 ++ n2)
                     end
              end).
  { intros X. destruct n1 as [|a n1], n2 as [|b n2]; cbn [app]; try reflexivity.
    now rewrite lastn_app_lastn, <- app_assoc. }
  split; [|split].
  - rewrite R. destruct n1, n2; cbn [app]; rewrite ?app_nil_r; reflexivity.
  - rewrite R. destruct n1, n2; cbn [app]; rewrite ?app_nil_r; reflexivity.
  - destruct h1, h2; cbn [app]; rewrite ?app_nil_r; reflexivity.
Qed.

Lemma effect_store (e : Compare.cmp_result) (s : Compare.session) :
  Compare.effect s [e] [] (Compare._store_cmp_result e s).
Proof.
  destruct (_store_cmp_result_spec e s) as (H1 & H2 & H3 & H4 & H5 & H6 & H7 & H8).
  unfold Compare.effect. rewrite H2, H1, H3, H4, H5, H6, H7, !app_nil_r. auto 10.
Qed.

Lemma effect_tick (s : Compare.session) : Compare.effect s [] [] (Compare.tick s).
Proof. unfold Compare.effect. cbn. rewrite !app_nil_r. auto 10. Qed.

Lemma effect_history (h : Compare.history_entry) (s : Compare.session) :
  Compare.effect s [] [h] (Compare.append_history h s).
Proof. unfold Compare.effect. cbn. rewrite !app_nil_r. auto 10. Qed.

Lemma render_total (a b : string) (la lb : list string) :
  is_Some (Compare.render a b (Compare._parse_dump_to_matrix la)
             (Compare._parse_dump_to_matrix lb)).
Proof.
  unfold Compare.render, Compare.rows_of.
  destruct (rows_of_fixed (Compare._parse_dump_to_matrix la) Compare.ROW_ADDRS)
    as (ra & -> & _); [intros x Hx; now apply parse_has_fixed_rows|].
  destruct (rows_of_fixed (Compare._parse_dump_to_matrix lb) Compare.ROW_ADDRS)
    as (rb & -> & _); [intros x Hx; now apply parse_has_fixed_rows|].
  cbn [mbind option_bind]. eauto.
Qed.

(** One compare returns; with statistics it has stored exactly one
    record, without (an empty slot) it has stored none. *)
Lemma _dump_compare_single_effect (now : nat -> string) (a b : string)
    (s : Compare.session) :
  exists r s' new,
    Compare._dump_compare_single now a b s = Some (r, s')
    /\ Compare.effect s new [] s'
    /\ length new = match r with Some _ => 1 | None => 0 end.
Proof.
  unfold Compare._dump_compare_single.
  destruct (Compare.truthy_dump (Compare.i2c_dump_slots s !! a)) as [da|];
    [|exists None, s, []; split; [reflexivity | split; [apply effect_refl | reflexivity]]].
  destruct (Compare.truthy_dump (Compare.i2c_dump_slots s !! b)) as [db|];
    [|exists None, s, []; split; [reflexivity | split; [apply effect_refl | reflexivity]]].
  destruct (render_total a b da db) as [r ->]. cbn [mbind option_bind].
  eexists (Some _), _, [_]. split; [reflexivity|]. split; [|reflexivity].
  apply (effect_trans s (Compare.tick s) _ [] [_] [] []);
    [apply effect_tick | apply effect_store].
Qed.

Lemma compare_pairs_effect (now : nat -> string) (pairs : list (string * string))
    (stats : list Compare.pair_stats) (s : Compare.session) :
  exists stats' s' new,
    Compare.compare_pairs now pairs stats s = Some (stats ++ stats', s')
    /\ Compare.effect s new [] s'
    /\ length new = length stats'.
Proof.
  revert stats s; induction pairs as [|[a b] pairs IH]; intros stats s.
  - exists [], s, []. cbn. rewrite app_nil_r.
    split; [reflexivity | split; [apply effect_refl | reflexivity]].
  - cbn [Compare.compare_pairs].
    destruct (_dump_compare_single_effect now a b s) as (r & s1 & n1 & -> & E1 & L1).
    destruct r as [st|].
    + destruct (IH (stats ++ [st]) s1) as (stats' & s2 & n2 & -> & E2 & L2).
      exists (st :: stats'), s2, (n1 ++ n2).
      split; [now rewrite <- app_assoc|].
      split; [apply (effect_trans s s1 s2 n1 n2 [] [] E1 E2)|].
      rewrite length_app. cbn. lia.
    + destruct (IH stats s1) as (stats' & s2 & n2 & -> & E2 & L2).
      exists stats', s2, (n1 ++ n2).
      split; [reflexivity|].
      split; [apply (effect_trans s s1 s2 n1 n2 [] [] E1 E2)|].
      rewrite length_app. destruct n1; [exact L2 | discriminate L1].
Qed.

Lemma compare_pairs_app (now : nat -> string) (p1 p2 : list (string * string))
    (stats : list Compare.pair_stats) (s : Compare.session) :
  Compare.compare_pairs now (p1 ++ p2) stats s
  = '(stats1, s1) ← Compare.compare_pairs now p1 stats s;
    Compare.compare_pairs now p2 stats1 s1.
Proof.
  revert stats s; induction p1 as [|[a b] p1 IH]; intros stats s; [reflexivity|].
  cbn [Compare.compare_pairs app].
  destruct (Compare._dump_compare_single now a b s) as [[[st|] s1]|];
    [apply IH | apply IH | reflexivity].
Qed.
Lemma multi_dump_compare_effect (now : nat -> string) (pairs : list (string * string))
    (s : Compare.session) :
  pairs <> [] ->
  exists stats s1 new,
    Compare.compare_pairs now pairs [] s = Some (stats, s1)
    /\ Compare.effect s new [] s1
    /\ length new = length stats
    /\ Compare.multi_dump_compare now pairs s
       = Some (Compare.append_history
                 {| Compare.h_timestamp := now (Compare.ticks s1);
                    Compare.h_pairs := stats |} (Compare.tick s1))
    /\ Compare.effect s new [{| Compare.h_timestamp := now (Compare.ticks s1);
                        Compare.h_pairs := stats |}]
         (Compare.append_history
            {| Compare.h_timestamp := now (Compare.ticks s1);
               Compare.h_pairs := stats |} (Compare.tick s1)).
Proof.
  intros Hne.
  destruct (compare_pairs_effect now pairs [] s) as (stats & s1 & new & Hc & E & L).
  cbn [app] in Hc.
  exists stats, s1, new. split; [exact Hc|]. split; [exact E|]. split; [exact L|].
  split.
  - unfold Compare.multi_dump_compare. destruct pairs; [congruence|].
    rewrite Hc. reflexivity.
  - rewrite <- (app_nil_r new).
    apply (effect_trans s s1 _ new [] [] [_] E).
    apply (effect_trans s1 (Compare.tick s1) _ [] [] [] [_]);
      [apply effect_tick | apply effect_history].
Qed.

Lemma run_command_effect (now : nat -> string) (c : Compare.command)
    (s : Compare.session) :
  exists s' new newh, Compare.run_command now c s = Some s' /\ Compare.effect s new newh s'.
Proof.
  destruct c as [a b|pairs]; cbn [Compare.run_command].
  - unfold Compare.dump_compare.
    destruct (_dump_compare_single_effect now a b s) as (r & s' & new & -> & E & _).
    exists s', new, []. split; [reflexivity | exact E].
  - destruct pairs as [|p pairs].
    + exists s, [], []. split; [reflexivity | apply effect_refl].
    + destruct (multi_dump_compare_effect now (p :: pairs) s)
        as (stats & s1 & new & _ & _ & _ & -> & E); [discriminate|].
      eauto.
Qed.

Lemma run_commands_effect (now : nat -> string) (cs : list Compare.command)
    (s : Compare.session) :
  exists s' new newh, Compare.run_commands now cs s = Some s' /\ Compare.effect s new newh s'.
Proof.
  revert s; induction cs as [|c cs IH]; intros s.
  - exists s, [], []. split; [reflexivity | apply effect_refl].
  - cbn [Compare.run_commands].
    destruct (run_command_effect now c s) as (s1 & n1 & h1 & -> & E1).
    destruct (IH s1) as (s2 & n2 & h2 & -> & E2).
    exists s2, (n1 ++ n2), (h1 ++ h2). split; [reflexivity|].
    now apply (effect_trans s s1 s2).
Qed.

Section Log.
Variable now : nat -> string.

Lemma record_of_render (slots : gmap string (list string)) (t : nat) (a b : string)
    (da db : list string) :
  Compare.truthy_dump (slots !! a) = Some da ->
  Compare.truthy_dump (slots !! b) = Some db ->
  exists r,
    Compare.render a b (Compare._parse_dump_to_matrix da) (Compare._parse_dump_to_matrix db)
    = Some r
    /\ CompareLog.record_of now slots t (a, b)
       = Some {| Compare.r_timestamp := now t; Compare.r_a := a; Compare.r_b := b;
                 Compare.r_changed_rows := Compare.changed_rows r;
                 Compare.r_changed_bytes := Compare.changed_bytes r;
                 Compare.r_hex_lines := Compare.hex_lines r;
                 Compare.r_binary_lines := Compare.bin_lines r |}.
Proof.
  intros Ha Hb. destruct (render_total a b da db) as [r Hr].
  exists r. split; [exact Hr|].
  unfold CompareLog.record_of. cbn [fst snd]. rewrite Ha, Hb, Hr. reflexivity.
Qed.

(** One compare does what the log asks of it. *)
Lemma _dump_compare_single_exact (a b : string) (s : Compare.session) :
  let rs := CompareLog.records_of now (Compare.i2c_dump_slots s) (Compare.ticks s) [(a, b)] in
  exists s',
    Compare._dump_compare_single now a b s
    = Some (CompareLog.stats_of
              <$> CompareLog.record_of now (Compare.i2c_dump_slots s) (Compare.ticks s) (a, b),
            s')
    /\ Compare.effect s rs [] s'
    /\ Compare.ticks s' = Compare.ticks s + length rs.
Proof.
  cbn zeta. unfold Compare._dump_compare_single. cbn [CompareLog.records_of].
  destruct (Compare.truthy_dump (Compare.i2c_dump_slots s !! a)) as [da|] eqn:Ha.
  2:{ unfold CompareLog.record_of. cbn [fst snd]. rewrite Ha.
      exists s. split; [reflexivity|]. split; [apply effect_refl | cbn; lia]. }
  destruct (Compare.truthy_dump (Compare.i2c_dump_slots s !! b)) as [db|] eqn:Hb.
  2:{ unfold CompareLog.record_of. cbn [fst snd]. rewrite Ha, Hb.
      exists s. split; [reflexivity|]. split; [apply effect_refl | cbn; lia]. }
  destruct (record_of_render (Compare.i2c_dump_slots s) (Compare.ticks s) a b da db Ha Hb)
    as (r & -> & ->).
  cbn [mbind option_bind fmap option_fmap option_map].
  eexists. split; [reflexivity|]. split.
  - apply (effect_trans s (Compare.tick s) _ [] [_] [] []);
      [apply effect_tick | apply effect_store].
  - destruct (_store_cmp_result_spec
                {| Compare.r_timestamp := now (Compare.ticks s); Compare.r_a := a;
                   Compare.r_b := b;
                   Compare.r_changed_rows := Compare.changed_rows r;
                   Compare.r_changed_bytes := Compare.changed_bytes r;
                   Compare.r_hex_lines := Compare.hex_lines r;
                   Compare.r_binary_lines := Compare.bin_lines r |} (Compare.tick s))
      as (_ & _ & _ & _ & _ & _ & _ & ->).
    cbn. lia.
Qed.

Lemma effect_slots (s0 s : Compare.session) (new : list Compare.cmp_result)
    (newh : list Compare.history_entry) :
  Compare.effect s0 new newh s -> Compare.i2c_dump_slots s = Compare.i2c_dump_slots s0.
Proof. now intros (H & _). Qed.

Lemma compare_pairs_exact (pairs : list (string * string))
    (stats : list Compare.pair_stats) (s : Compare.session) :
  let rs := CompareLog.records_of now (Compare.i2c_dump_slots s) (Compare.ticks s) pairs in
  exists s',
    Compare.compare_pairs now pairs stats s
    = Some (stats ++ map CompareLog.stats_of rs, s')
    /\ Compare.effect s rs [] s'
    /\ Compare.ticks s' = Compare.ticks s + length rs.
Proof.
  cbn zeta. revert stats s; induction pairs as [|[a b] pairs IH]; intros stats s.
  - exists s. cbn. rewrite app_nil_r.
    split; [reflexivity|]. split; [apply effect_refl | lia].
  - cbn [Compare.compare_pairs CompareLog.records_of].
    destruct (_dump_compare_single_exact a b s) as (s1 & -> & E1 & T1).
    cbn [CompareLog.records_of] in E1, T1.
    destruct (CompareLog.record_of now (Compare.i2c_dump_slots s) (Compare.ticks s) (a, b))
      as [e|] eqn:R; cbn [fmap option_fmap option_map] in *.
    + destruct (IH (stats ++ [CompareLog.stats_of e]) s1) as (s2 & -> & E2 & T2).
      rewrite (effect_slots _ _ _ _ E1), T1 in *. cbn [length] in *.
      replace (Compare.ticks s + 1) with (S (Compare.ticks s)) in * by lia.
      exists s2. split; [cbn [map]; now rewrite <- app_assoc|].
      split; [apply (effect_trans s s1 s2 [e] _ [] [] E1 E2)|].
      rewrite T2. cbn [length]. lia.
    + destruct (IH stats s1) as (s2 & -> & E2 & T2).
      rewrite (effect_slots _ _ _ _ E1), T1 in *. cbn [length] in *.
      replace (Compare.ticks s + 0) with (Compare.ticks s) in * by lia.
      exists s2. split; [reflexivity|].
      split; [apply (effect_trans s s1 s2 [] _ [] [] E1 E2)|].
      rewrite T2. lia.
Qed.

Lemma run_command_exact (c : Compare.command) (s : Compare.session) :
  exists s',
    Compare.run_command now c s = Some s'
    /\ Compare.effect s
         (CompareLog.command_records now (Compare.i2c_dump_slots s) (Compare.ticks s) c)
         (CompareLog.command_entries now (Compare.i2c_dump_slots s) (Compare.ticks s) c) s'
    /\ Compare.ticks s'
       = CompareLog.command_ticks now (Compare.i2c_dump_slots s) (Compare.ticks s) c.
Proof.
  unfold CompareLog.command_ticks.
  destruct c as [a b|pairs]; cbn [Compare.run_command CompareLog.command_records
                                    CompareLog.command_entries].
  - unfold Compare.dump_compare.
    destruct (_dump_compare_single_exact a b s) as (s' & -> & E & T).
    exists s'. split; [reflexivity|]. split; [exact E|]. cbn [length]. lia.
  - destruct pairs as [|p pairs].
    + exists s. split; [reflexivity|]. split; [apply effect_refl | cbn; lia].
    + unfold Compare.multi_dump_compare.
      destruct (compare_pairs_exact (p :: pairs) [] s) as (s1 & -> & E & T).
      cbn [app mbind option_bind].
      set (rs := CompareLog.records_of now (Compare.i2c_dump_slots s) (Compare.ticks s)
                   (p :: pairs)) in *.
      eexists. split; [reflexivity|]. rewrite T. split.
      * rewrite <- (app_nil_r rs) at 1.
        apply (effect_trans s s1 _ rs [] [] [_] E).
        apply (effect_trans s1 (Compare.tick s1) _ [] [] [] [_]);
          [apply effect_tick | apply effect_history].
      * cbn [Compare.ticks Compare.append_history Compare.tick length]. lia.
Qed.

Lemma run_commands_exact (cs : list Compare.command) (s : Compare.session) :
  exists s',
    Compare.run_commands now cs s = Some s'
    /\ Compare.effect s
         (CompareLog.records now (Compare.i2c_dump_slots s) (Compare.ticks s) cs)
         (CompareLog.entries now (Compare.i2c_dump_slots s) (Compare.ticks s) cs) s'.
Proof.
  revert s; induction cs as [|c cs IH]; intros s.
  - exists s. split; [reflexivity | apply effect_refl].
  - cbn [Compare.run_commands CompareLog.records CompareLog.entries].
    destruct (run_command_exact c s) as (s1 & -> & E1 & T1).
    destruct (IH s1) as (s2 & -> & E2).
    rewrite (effect_slots _ _ _ _ E1), T1 in E2.
    exists s2. split; [reflexivity|].
    now apply (effect_trans s s1 s2).
Qed.

(** One record per pair that completes, in the order of the pairs. *)
Lemma records_of_pairs (slots : gmap string (list string)) (t : nat)
    (pairs : list (string * string)) :
  map (fun e => (Compare.r_a e, Compare.r_b e)) (CompareLog.records_of now slots t pairs)
  = List.filter (CompareLog.completes slots) pairs.
Proof.
  revert t; induction pairs as [|[a b] pairs IH]; intros t; [reflexivity|].
  cbn [CompareLog.records_of List.filter].
  unfold CompareLog.completes at 1. cbn [fst snd].
  destruct (Compare.truthy_dump (slots !! a)) as [da|] eqn:Ha.
  2:{ unfold CompareLog.record_of. cbn [fst snd]. rewrite Ha. apply IH. }
  destruct (Compare.truthy_dump (slots !! b)) as [db|] eqn:Hb.
  2:{ unfold CompareLog.record_of. cbn [fst snd]. rewrite Ha, Hb. apply IH. }
  destruct (record_of_render slots t a b da db Ha Hb) as (r & _ & ->).
  cbn [map Compare.r_a Compare.r_b]. now rewrite IH.
Qed.

Lemma records_pairs (slots : gmap string (list string)) (t : nat)
    (cs : list Compare.command) :
  map (fun e => (Compare.r_a e, Compare.r_b e)) (CompareLog.records now slots t cs)
  = List.filter (CompareLog.completes slots) (flat_map CompareLog.command_pairs cs).
Proof.
  revert t; induction cs as [|c cs IH]; intros t; [reflexivity|].
  cbn [CompareLog.records flat_map]. rewrite map_app, List.filter_app, IH. f_equal.
  destruct c; apply records_of_pairs.
Qed.

End Log.

Lemma entries_count (now : nat -> string) (slots : gmap string (list string)) (t : nat)
    (cs : list Compare.command) :
  length (CompareLog.entries now slots t cs)
  = length (List.filter (fun c => match c with
                                  | Compare.DumpCmpMulti (_ :: _) => true
                                  | _ => false
                                  end) cs).
Proof.
  revert t; induction cs as [|c cs IH]; intros t; [reflexivity|].
  cbn [CompareLog.entries List.filter]. rewrite length_app, IH.
  destruct c as [a b|[|p pairs]]; reflexivity.
Qed.

(** C9.  After any sequence of single and batch compares, every command
    returns and the two logs are the logs of the compares made: the
    records appended are one per compare that completed (both slots
    holding a dump), in order, each with the counts and the views of its
    compare; the history entries appended are one per batch that named a
    pair, each with the statistics of the compares of the batch that
    completed.  When a record was appended, the results list and the
    results file are the last 400 of the old list followed by the
    appended records; when a history entry was appended, the history file
    is the last 200 of the old list followed by the appended entries;
    when nothing was appended the file is as it was.  So a file that was
    within its cap, or to which something was appended, is within its
    cap, and each file ends with the most recently appended entries: all
    of them when they are at most the cap, the last 400 (200) of them
    otherwise.  The oldest are the ones dropped. *)
Theorem persisted_logs_bounded (now : nat -> string) (cs : list Compare.command)
    (s0 : Compare.session) :
  let new := CompareLog.records now (Compare.i2c_dump_slots s0) (Compare.ticks s0) cs in
  let newh := CompareLog.entries now (Compare.i2c_dump_slots s0) (Compare.ticks s0) cs in
  exists s,
    Compare.run_commands now cs s0 = Some s
    /\ map (fun e => (Compare.r_a e, Compare.r_b e)) new
       = List.filter (CompareLog.completes (Compare.i2c_dump_slots s0))
           (flat_map CompareLog.command_pairs cs)
    /\ length newh
       = length (List.filter (fun c => match c with
                                       | Compare.DumpCmpMulti (_ :: _) => true
                                       | _ => false
                                       end) cs)
    /\ Compare.stored s = Compare.stored s0 ++ new
    /\ Compare.batches s = Compare.batches s0 ++ newh
    /\ Compare.cmp_history s = Compare.cmp_history s0 ++ newh
    /\ (new <> [] ->
        Compare.results_file s = Compare.lastn 400 (Compare._dumpcmp_results s0 ++ new)
        /\ Compare._dumpcmp_results s = Compare.results_file s)
    /\ (new = [] ->
        Compare.results_file s = Compare.results_file s0
        /\ Compare._dumpcmp_results s = Compare._dumpcmp_results s0)
    /\ (newh <> [] ->
        Compare.history_file s = Compare.lastn 200 (Compare.cmp_history s0 ++ newh))
    /\ (newh = [] -> Compare.history_file s = Compare.history_file s0)
    /\ (length (Compare.results_file s0) <= 400 \/ new <> [] ->
        length (Compare.results_file s) <= 400)
    /\ (length (Compare.history_file s0) <= 200 \/ newh <> [] ->
        length (Compare.history_file s) <= 200)
    /\ (exists old, Compare.results_file s = old ++ Compare.lastn 400 new)
    /\ (exists old, Compare.history_file s = old ++ Compare.lastn 200 newh).
Proof.
  intros new newh.
  destruct (run_commands_exact now cs s0) as (s & Hrun & _ & E2 & E3 & E4 & E5 & E6 & E7).
  fold new in E2, E5, E6. fold newh in E3, E4, E7.
  exists s. split; [exact Hrun|].
  split; [apply records_pairs|]. split; [apply entries_count|].
  split; [exact E2|]. split; [exact E3|]. split; [exact E4|].
  change Compare.MAX_CMP_RESULTS_ENTRIES with 400 in *.
  change Compare.MAX_CMP_HISTORY_ENTRIES with 200 in *.
  rewrite E5, E6, E7.
  split; [intros H; destruct new; [congruence | split; reflexivity]|].
  split; [intros ->; split; reflexivity|].
  split; [intros H; destruct newh; [congruence | reflexivity]|].
  split; [intros ->; reflexivity|].
  split.
  { intros [H|H]; (destruct new; [first [exact H | congruence] | apply lastn_length]). }
  split.
  { intros [H|H]; (destruct newh; [first [exact H | congruence] | apply lastn_length]). }
  split.
  - destruct new as [|e new']; [exists (Compare.results_file s0); now rewrite app_nil_r|].
    apply lastn_suffix.
  - destruct newh as [|e newh']; [exists (Compare.history_file s0); now rewrite app_nil_r|].
    apply lastn_suffix.
Qed.
Lemma persisted_logs_bounded_witness :
  exists s,
    Compare.run_commands Samples.clock
      [Compare.DumpCmp "1" "2"; Compare.DumpCmpMulti [("1", "2"); ("2", "1"); ("3", "1")]]
      Samples.session0 = Some s
    /\ map (fun e => (Compare.r_a e, Compare.r_b e, Compare.r_changed_bytes e))
         (Compare.results_file s)
       = [("1", "2", 2); ("1", "2", 2); ("2", "1", 2)]
    /\ map (fun h => map (fun p => (Compare.s_a p, Compare.s_b p)) (Compare.h_pairs h))
         (Compare.history_file s)
       = [[("1", "2"); ("2", "1")]].
Proof.
  destruct (persisted_logs_bounded Samples.clock
              [Compare.DumpCmp "1" "2";
               Compare.DumpCmpMulti [("1", "2"); ("2", "1"); ("3", "1")]]
              Samples.session0)
    as (s & Hrun & _ & _ & _ & _ & _ & Hnew & _ & Hh & _).
  exists s. split; [exact Hrun|]. split.
  - destruct Hnew as [-> _]; [intros H; vm_compute in H; discriminate H|].
    vm_compute. reflexivity.
  - rewrite Hh by (intros H; vm_compute in H; discriminate H).
    vm_compute. reflexivity.
Defined.

(** C4, as stated, fails for the history entry: in a batch of two pairs,
    when the first comparison has completed its record is in the results
    file, but the history file is still empty; the one entry that covers
    both pairs is written after the last pair. *)
Lemma history_entry_written_at_batch_end :
  exists stats s1 s2,
    Compare.compare_pairs Samples.clock [("1", "2")] [] Samples.session0
    = Some (stats, s1)
    /\ length stats = 1
    /\ length (Compare.results_file s1) = 1
    /\ Compare.history_file s1 = []
    /\ Compare.multi_dump_compare Samples.clock [("1", "2"); ("2", "1")] Samples.session0
       = Some s2
    /\ map (fun h => length (Compare.h_pairs h)) (Compare.history_file s2) = [2].
Proof.
  destruct (Compare.compare_pairs Samples.clock [("1", "2")] [] Samples.session0)
    as [[stats s1]|] eqn:E1; [|vm_compute in E1; discriminate E1].
  destruct (Compare.multi_dump_compare Samples.clock [("1", "2"); ("2", "1")]
              Samples.session0) as [s2|] eqn:E2; [|vm_compute in E2; discriminate E2].
  exists stats, s1, s2. split; [reflexivity|].
  vm_compute in E1. injection E1 as <- <-.
  vm_compute in E2. injection E2 as <-.
  repeat split.
Qed.

(** C4 (amended).  At the point of a batch where the pairs [done] have
    been compared and the pairs [rest] have not: one record per completed
    comparison has been appended, and the results file already holds them
    (the last 400 of the log); the history file, the history list and the
    batch log are as before the batch.  When the batch ends, exactly one
    history entry, covering every completed comparison of the batch, is
    appended and the history file rewritten. *)
Theorem batch_records_at_once_history_at_end (now : nat -> string)
    (done rest : list (string * string)) (s : Compare.session) :
  exists stats s1 new,
    Compare.compare_pairs now done [] s = Some (stats, s1)
    /\ Compare.stored s1 = Compare.stored s ++ new
    /\ length new = length stats
    /\ (new <> [] ->
        Compare.results_file s1
        = Compare.lastn 400 (Compare._dumpcmp_results s ++ new))
    /\ Compare.history_file s1 = Compare.history_file s
    /\ Compare.cmp_history s1 = Compare.cmp_history s
    /\ Compare.batches s1 = Compare.batches s
    /\ (done ++ rest <> [] ->
        exists s2 entry more,
          Compare.multi_dump_compare now (done ++ rest) s = Some s2
          /\ Compare.stored s2 = Compare.stored s ++ new ++ more
          /\ Compare.batches s2 = Compare.batches s ++ [entry]
          /\ length (Compare.h_pairs entry) = length (new ++ more)
          /\ Compare.history_file s2
             = Compare.lastn 200 (Compare.cmp_history s ++ [entry])).
Proof.
  destruct (compare_pairs_effect now done [] s) as (stats & s1 & new & Hc & E & L).
  cbn [app] in Hc.
  exists stats, s1, new. split; [exact Hc|].
  destruct E as (E1 & E2 & E3 & E4 & E5 & E6 & E7).
  rewrite app_nil_r in E3, E4.
  split; [exact E2|]. split; [exact L|].
  split; [intros Hne; rewrite E6; destruct new; [congruence | reflexivity]|].
  split; [exact E7|]. split; [exact E4|]. split; [exact E3|].
  intros Hne.
  destruct (compare_pairs_effect now rest stats s1) as (stats' & s' & more & Hr & F & L').
  destruct F as (F1 & F2 & F3 & F4 & F5 & F6 & F7).
  rewrite app_nil_r in F3, F4.
  eexists _, {| Compare.h_timestamp := now (Compare.ticks s');
                Compare.h_pairs := stats ++ stats' |}, more.
  split.
  - unfold Compare.multi_dump_compare.
    destruct (done ++ rest) eqn:D; [congruence|]. rewrite <- D.
    rewrite compare_pairs_app, Hc. cbn [mbind option_bind]. rewrite Hr.
    reflexivity.
  - cbn [Compare.append_history Compare.tick Compare.stored Compare.batches
         Compare.history_file Compare.cmp_history Compare.h_pairs].
    rewrite F2, E2, F3, E3, F4, E4, !length_app, L, L', <- app_assoc.
    auto.
Qed.
Lemma batch_records_at_once_history_at_end_witness :
  exists stats s1 new,
    Compare.compare_pairs Samples.clock [("1", "2")] [] Samples.session0
    = Some (stats, s1)
    /\ Compare.stored s1 = Compare.stored Samples.session0 ++ new
    /\ length new = length stats
    /\ (new <> [] ->
        Compare.results_file s1
        = Compare.lastn 400 (Compare._dumpcmp_results Samples.session0 ++ new))
    /\ Compare.history_file s1 = Compare.history_file Samples.session0
    /\ Compare.cmp_history s1 = Compare.cmp_history Samples.session0
    /\ Compare.batches s1 = Compare.batches Samples.session0
    /\ ([("1", "2")] ++ [("2", "1")] <> [] ->
        exists s2 entry more,
          Compare.multi_dump_compare Samples.clock ([("1", "2")] ++ [("2", "1")])
            Samples.session0 = Some s2
          /\ Compare.stored s2 = Compare.stored Samples.session0 ++ new ++ more
          /\ Compare.batches s2 = Compare.batches Samples.session0 ++ [entry]
          /\ length (Compare.h_pairs entry) = length (new ++ more)
          /\ Compare.history_file s2
             = Compare.lastn 200 (Compare.cmp_history Samples.session0 ++ [entry])).
Proof.
  apply (batch_records_at_once_history_at_end Samples.clock
           [("1", "2")] [("2", "1")] Samples.session0).
Defined.

(** ** Raw slots *)

Section RawSlots.
Variables (fast wait : bool).

Lemma play_line_sent (st : Play.pstate) (line : string) :
  Play.sent (Play.play_line fast wait st line) = Play.sent st ++ Play.line_tx line
  /\ Play.visited (Play.play_line fast wait st line) = Play.visited st.
Proof.
  unfold Play.play_line, Play.line_tx, Play.only_spaces.
  destruct (PyStr.is_empty (PyStr.strip line) && negb (PyStr.is_empty line)).
  - split; reflexivity.
  - destruct (negb (PyStr.is_empty line)); cbn; rewrite ?app_nil_r; split; reflexivity.
Qed.

Lemma play_lines_sent (lines : list string) (st : Play.pstate) :
  Play.sent (fold_left (Play.play_line fast wait) lines st)
  = Play.sent st ++ flat_map Play.line_tx lines
  /\ Play.visited (fold_left (Play.play_line fast wait) lines st) = Play.visited st.
Proof.
  revert st; induction lines as [|l lines IH]; intros st.
  - cbn. rewrite app_nil_r. split; reflexivity.
  - cbn [fold_left flat_map]. destruct (IH (Play.play_line fast wait st l)) as [-> ->].
    destruct (play_line_sent st l) as [-> ->]. rewrite <- app_assoc. split; reflexivity.
Qed.

Lemma play_segment_sent (segment : string) (st : Play.pstate) :
  Play.sent (Play.play_segment fast wait segment st) = Play.sent st ++ Play.segment_tx segment
  /\ Play.visited (Play.play_segment fast wait segment st) = Play.visited st.
Proof.
  unfold Play.play_segment, Play.segment_tx.
  destruct segment as [|c segment].
  - cbn. split; reflexivity.
  - cbn [PyStr.is_empty]. rewrite andb_false_r. cbn [app].
    apply play_lines_sent.
Qed.

Lemma play_parts_sent (parts : list string) (st : Play.pstate) :
  Play.sent (Play.play_parts fast wait parts st) = Play.sent st ++ Play.parts_tx parts
  /\ Play.visited (Play.play_parts fast wait parts st) = Play.visited st.
Proof.
  revert st; induction parts as [|seg rest IH]; intros st.
  - cbn. rewrite app_nil_r. split; reflexivity.
  - cbn [Play.play_parts Play.parts_tx].
    destruct (play_segment_sent seg st) as [S1 V1].
    destruct rest as [|seg' rest'].
    + cbn. rewrite S1, V1, app_nil_r. split; reflexivity.
    + destruct (IH (Play.send_enter_only fast wait (Play.play_segment fast wait seg st)))
        as [-> ->].
      cbn [Play.send_enter_only Play.transmit Play.sent Play.visited].
      rewrite S1, V1, <- !app_assoc. split; reflexivity.
Qed.

End RawSlots.

Lemma texts_app (a b : list Play.transmission) :
  Play.texts (a ++ b) = Play.texts a ++ Play.texts b.
Proof. unfold Play.texts. apply flat_map_app. Qed.

Lemma enters_app (a b : list Play.transmission) :
  Play.enters (a ++ b) = Play.enters a + Play.enters b.
Proof. unfold Play.enters. now rewrite flat_map_app, length_app. Qed.

Lemma has_text_nonempty (line : string) :
  Play.has_text line = true -> PyStr.is_empty line = false.
Proof. destruct line; [discriminate | reflexivity]. Qed.

Lemma lines_tx_texts (lines : list string) :
  Play.texts (flat_map Play.line_tx lines)
  = filter (fun l => Is_true (Play.has_text l)) lines.
Proof.
  induction lines as [|l lines IH]; [reflexivity|].
  cbn [flat_map]. rewrite texts_app, IH, filter_cons.
  unfold Play.line_tx, Play.only_spaces.
  pose proof (has_text_nonempty l) as N. unfold Play.has_text in *.
  destruct (PyStr.is_empty (PyStr.strip l)); cbn [negb andb] in *.
  - destruct (decide (Is_true false)) as [[]|_].
    destruct (negb (PyStr.is_empty l)); reflexivity.
  - rewrite N by reflexivity. cbn [negb].
    destruct (decide (Is_true true)) as [_|H]; [reflexivity | exfalso; apply H; exact I].
Qed.

Lemma lines_tx_enters (lines : list string) :
  Play.enters (flat_map Play.line_tx lines)
  = length (filter (fun l => Is_true (Play.only_spaces l)) lines).
Proof.
  induction lines as [|l lines IH]; [reflexivity|].
  cbn [flat_map]. rewrite enters_app, IH, filter_cons.
  unfold Play.line_tx.
  destruct (Play.only_spaces l).
  - destruct (decide (Is_true true)) as [_|H]; [reflexivity | exfalso; apply H; exact I].
  - destruct (decide (Is_true false)) as [[]|_].
    destruct (negb (PyStr.is_empty l)); reflexivity.
Qed.

Lemma parts_tx_texts (parts : list string) :
  Play.texts (Play.parts_tx parts)
  = filter (fun l => Is_true (Play.has_text l)) (flat_map PyStr.splitlines parts).
Proof.
  induction parts as [|seg rest IH]; [reflexivity|].
  cbn [Play.parts_tx flat_map]. rewrite !texts_app, IH, filter_app.
  unfold Play.segment_tx. rewrite texts_app, lines_tx_texts.
  destruct (PyStr.is_empty seg), rest; reflexivity.
Qed.

Lemma parts_tx_enters (parts : list string) :
  Play.enters (Play.parts_tx parts)
  = length (filter (fun l => Is_true (Play.only_spaces l)) (flat_map PyStr.splitlines parts))
    + length (filter (fun seg => Is_true (PyStr.is_empty seg)) parts)
    + (length parts - 1).
Proof.
  induction parts as [|seg rest IH]; [reflexivity|].
  cbn [Play.parts_tx flat_map]. rewrite !enters_app, IH, filter_app, length_app.
  unfold Play.segment_tx. rewrite enters_app, lines_tx_enters, filter_cons.
  assert (B : Play.enters match rest with [] => [] | _ => [Play.TxEnter] end
              + (length rest - 1) = length rest).
  { destruct rest; cbn; lia. }
  destruct (PyStr.is_empty seg).
  - destruct (decide (Is_true true)) as [_|H]; [|exfalso; apply H; exact I].
    cbn [length]. change (Play.enters [Play.TxEnter]) with 1. lia.
  - destruct (decide (Is_true false)) as [[]|_].
    cbn [length]. change (Play.enters []) with 0. lia.
Qed.
(** C3, as stated, fails: the raw text "a", empty line, "b" is one
    segment of three lines; the design asks for a terminator-only
    transmission for the blank line, the code sends the two commands and
    nothing for the empty line. *)
Lemma raw_empty_line_sends_nothing :
  PyStr.splitlines Samples.blank_line_text = ["a"; ""; "b"]
  /\ Play.designed_raw Samples.blank_line_text
     = [Play.TxLine "a"; Play.TxEnter; Play.TxLine "b"]
  /\ Play.sent <$> Play.play_slot {[ "r"%char := Samples.raw_slot 1 Samples.blank_line_text ]}
                     false true "r"
     = Some [Play.TxLine "a"; Play.TxLine "b"].
Proof. repeat split; vm_compute; reflexivity. Qed.

(** C3 (amended).  Playing a raw slot with text [T] returns, and with [T]
    split on ["<ENTER>"] into segments and every segment into lines it
    has sent: the lines that hold a non-whitespace character, in order,
    as line transmissions, and nothing else as a line; and as many
    terminator-only transmissions as there are non-empty lines of
    whitespace only, plus empty segments, plus segment boundaries.  An
    empty line inside a segment sends nothing. *)
Theorem raw_slot_transmissions (slot_cmds : gmap ascii (option Play.slot))
    (fast wait : bool) (k : ascii) (o : positive) (T : string) :
  slot_cmds !! k = Some (Some {| Play.oid := o; Play.value := Play.Raw T |}) ->
  let segments := PyStr.split_on Play.TOKEN_ENTER T in
  let lines := flat_map PyStr.splitlines segments in
  exists st,
    Play.play_slot slot_cmds fast wait k = Some st
    /\ Play.texts (Play.sent st) = filter (fun l => Is_true (Play.has_text l)) lines
    /\ Play.enters (Play.sent st)
       = length (filter (fun l => Is_true (Play.only_spaces l)) lines)
         + length (filter (fun seg => Is_true (PyStr.is_empty seg)) segments)
         + (length segments - 1).
Proof.
  intros Hk segments lines.
  unfold Play.play_slot. rewrite Hk.
  change (Play.DEPTH_LIMIT + 2) with (S 41).
  cbn [Play.play_slot_recursive]. rewrite Hk.
  change (Nat.ltb Play.DEPTH_LIMIT 0) with false. cbn iota.
  cbn [Play.oid Play.value Play.new_pstate Play.visited].
  rewrite bool_decide_eq_false_2 by apply not_elem_of_empty.
  eexists; split; [reflexivity|].
  cbn [Play.set_visited Play.sent]. unfold Play.play_raw.
  match goal with
  | |- context [Play.play_parts fast wait ?p ?s] =>
      destruct (play_parts_sent fast wait p s) as [-> _]
  end.
  cbn [Play.set_visited Play.sent Play.new_pstate app].
  split; [apply parts_tx_texts | apply parts_tx_enters].
Qed.

Lemma raw_slot_transmissions_witness :
  exists st,
    Play.play_slot {[ "r"%char := Samples.raw_slot 1 "i2cdump 0 0x50<ENTER>   " ]}
      false true "r" = Some st
    /\ Play.texts (Play.sent st) = ["i2cdump 0 0x50"]
    /\ Play.enters (Play.sent st) = 2.
Proof.
  destruct (raw_slot_transmissions
              {[ "r"%char := Samples.raw_slot 1 "i2cdump 0 0x50<ENTER>   " ]}
              false true "r" 1 "i2cdump 0 0x50<ENTER>   ") as (st & H1 & H2 & H3).
  - reflexivity.
  - exists st. split; [exact H1|]. split; [rewrite H2 | rewrite H3]; reflexivity.
Defined.
(** ** Combos and cycles *)

Lemma visited_restored (o : positive) (V : gset positive) :
  o ∉ V -> ({[o]} ∪ V) ∖ {[o]} = V.
Proof.
  intros H. apply set_eq. intros x.
  rewrite elem_of_difference, elem_of_union, !elem_of_singleton. split.
  - intros [[Hx|Hx] Hne]; [contradiction | exact Hx].
  - intros Hx. split; [right; exact Hx | intros ->; contradiction].
Qed.

Lemma visited_grows (o : positive) (V W : gset positive) :
  V ⊆ W -> V ⊆ {[o]} ∪ W.
Proof. intros H x Hx. apply elem_of_union_r. now apply H. Qed.

Section Combos.
Variable slot_cmds : gmap ascii (option Play.slot).
Variables (fast wait : bool).

Local Abbreviation play := (Play.play_slot_recursive slot_cmds fast wait).
Local Abbreviation play_seq := (Play.play_seq slot_cmds).

Lemma play_seq_app (f : ascii -> Play.pstate -> option Play.pstate)
    (s1 s2 : string) (st : Play.pstate) :
  play_seq f (s1 ++ s2)%string st = play_seq f s1 st ≫= play_seq f s2.
Proof.
  revert st; induction s1 as [|c s1 IH]; intros st; [reflexivity|].
  rewrite append_cons. cbn [Play.play_seq].
  destruct (if bool_decide (is_Some (slot_cmds !! c)) then f c st else Some st);
    [apply IH | reflexivity].
Qed.

Lemma play_seq_visited (f : ascii -> Play.pstate -> option Play.pstate) :
  (forall c st st', f c st = Some st' -> Play.visited st' = Play.visited st) ->
  forall seq st st',
    play_seq f seq st = Some st' -> Play.visited st' = Play.visited st.
Proof.
  intros Hf. induction seq as [|c seq IH]; intros st st' H.
  - injection H as <-. reflexivity.
  - cbn [Play.play_seq] in H.
    destruct (bool_decide (is_Some (slot_cmds !! c))).
    + destruct (f c st) as [st1|] eqn:E; [|discriminate].
      rewrite (IH _ _ H). now apply Hf in E.
    + now apply IH.
Qed.

(** Every call leaves the visited set as it found it. *)
Lemma play_visited (fuel : nat) :
  forall c depth st st',
    play fuel c depth st = Some st' -> Play.visited st' = Play.visited st.
Proof.
  induction fuel as [|fuel IH]; intros c depth st st' H; [discriminate|].
  cbn [Play.play_slot_recursive] in H.
  destruct (Nat.ltb Play.DEPTH_LIMIT depth); [now inversion H|].
  destruct (slot_cmds !! c) as [[v|]|]; try now inversion H.
  destruct (bool_decide (Play.oid v ∈ Play.visited st)) eqn:B; [now inversion H|].
  apply bool_decide_eq_false in B.
  destruct (Play.value v) as [|seq|data].
  - injection H as H; subst st'. cbn. now apply visited_restored.
  - destruct (Play.play_seq _ _ seq _) as [st2|] eqn:E; [|discriminate].
    injection H as H; subst st'.
    apply (play_seq_visited _ (fun c => IH c (S depth))) in E.
    cbn in *. rewrite E. now apply visited_restored.
  - injection H as H; subst st'. unfold Play.play_raw.
    cbn [Play.visited Play.set_visited].
    destruct (play_parts_sent fast wait (PyStr.split_on Play.TOKEN_ENTER data)
                (Play.set_visited ({[Play.oid v]} ∪ Play.visited st) st)) as [_ ->].
    cbn. now apply visited_restored.
Qed.

Lemma play_seq_total (f : ascii -> Play.pstate -> option Play.pstate) :
  (forall c st, is_Some (f c st)) ->
  forall seq st, is_Some (play_seq f seq st).
Proof.
  intros Hf. induction seq as [|c seq IH]; intros st; [eauto|].
  cbn [Play.play_seq].
  destruct (bool_decide (is_Some (slot_cmds !! c))); [|apply IH].
  destruct (Hf c st) as [st1 ->]. apply IH.
Qed.

(** The depth cap bounds the recursion: a call at depth [depth] returns
    when it has [DEPTH_LIMIT + 2 - depth] units of fuel, whatever the
    registry holds. *)
Lemma play_total (fuel : nat) :
  forall c depth st,
    1 <= fuel -> Play.DEPTH_LIMIT + 2 <= fuel + depth ->
    is_Some (play fuel c depth st).
Proof.
  induction fuel as [|fuel IH]; intros c depth st H1 H2; [lia|].
  cbn [Play.play_slot_recursive].
  destruct (Nat.ltb Play.DEPTH_LIMIT depth) eqn:D; [eauto|].
  apply Nat.ltb_ge in D. unfold Play.DEPTH_LIMIT in *.
  destruct (slot_cmds !! c) as [[v|]|]; eauto.
  destruct (bool_decide (Play.oid v ∈ Play.visited st)); [eauto|].
  destruct (Play.value v) as [|seq|data]; eauto.
  destruct (play_seq_total (fun c => play fuel c (S depth))
              (fun c st => IH c (S depth) st ltac:(lia) ltac:(lia)) seq
              (Play.set_visited ({[Play.oid v]} ∪ Play.visited st) st)) as [st2 ->].
  eauto.
Qed.

(** A reference to a slot that is being played returns at once. *)
Lemma play_cycle (fuel : nat) (c : ascii) (depth : nat) (st : Play.pstate)
    (v : Play.slot) :
  slot_cmds !! c = Some (Some v) ->
  Play.oid v ∈ Play.visited st ->
  play (S fuel) c depth st = Some st.
Proof.
  intros Hc Hv. cbn [Play.play_slot_recursive]. rewrite Hc.
  rewrite bool_decide_eq_true_2 by exact Hv.
  now destruct (Nat.ltb Play.DEPTH_LIMIT depth).
Qed.

End Combos.

Section Agree.
Variables (r1 r2 : gmap ascii (option Play.slot)) (V : gset positive).
Variables (fast wait : bool).
Hypothesis Hagree : Play.agree_outside V r1 r2.

Lemma agree_is_Some (c : ascii) :
  bool_decide (is_Some (r1 !! c)) = bool_decide (is_Some (r2 !! c)).
Proof.
  destruct (Hagree c) as [->|(v1 & v2 & -> & -> & _)]; [reflexivity|].
  rewrite !bool_decide_eq_true_2 by eauto. reflexivity.
Qed.

Lemma play_seq_agree (f1 f2 : ascii -> Play.pstate -> option Play.pstate) :
  (forall c st, V ⊆ Play.visited st -> f1 c st = f2 c st) ->
  (forall c st st', f1 c st = Some st' -> Play.visited st' = Play.visited st) ->
  forall seq st, V ⊆ Play.visited st ->
    Play.play_seq r1 f1 seq st = Play.play_seq r2 f2 seq st.
Proof.
  intros Hf Hv. induction seq as [|c seq IH]; intros st HV; [reflexivity|].
  cbn [Play.play_seq]. rewrite <- agree_is_Some.
  destruct (bool_decide (is_Some (r1 !! c))); [|now apply IH].
  rewrite <- (Hf c st HV).
  destruct (f1 c st) as [st1|] eqn:E; [|reflexivity].
  apply IH. now rewrite (Hv _ _ _ E).
Qed.

(** While the objects of [V] are being played, what their slots hold
    does not matter. *)
Lemma play_agree (fuel : nat) :
  forall c depth st, V ⊆ Play.visited st ->
    Play.play_slot_recursive r1 fast wait fuel c depth st
    = Play.play_slot_recursive r2 fast wait fuel c depth st.
Proof.
  induction fuel as [|fuel IH]; intros c depth st HV; [reflexivity|].
  cbn [Play.play_slot_recursive].
  destruct (Nat.ltb Play.DEPTH_LIMIT depth); [reflexivity|].
  destruct (Hagree c) as [<-|(v1 & v2 & -> & -> & H1 & H2)].
  - destruct (r1 !! c) as [[v|]|]; try reflexivity.
    destruct (bool_decide (Play.oid v ∈ Play.visited st)); [reflexivity|].
    destruct (Play.value v) as [|seq|data]; try reflexivity.
    rewrite (play_seq_agree _ (fun c => Play.play_slot_recursive r2 fast wait fuel c (S depth))).
    + reflexivity.
    + intros c' st' HV'. now apply IH.
    + intros c' st' st'' E. exact (play_visited r1 fast wait fuel c' (S depth) st' st'' E).
    + cbn. now apply visited_grows.
  - rewrite !bool_decide_eq_true_2 by (apply HV; assumption). reflexivity.
Qed.

End Agree.
Lemma agree_outside_insert (slot_cmds : gmap ascii (option Play.slot)) (k : ascii)
    (v1 v2 : Play.slot) :
  slot_cmds !! k = Some (Some v1) ->
  Play.oid v2 = Play.oid v1 ->
  Play.agree_outside {[Play.oid v1]} slot_cmds (<[k := Some v2]> slot_cmds).
Proof.
  intros Hk Ho c. destruct (decide (k = c)) as [<-|Hne].
  - right. exists v1, v2. rewrite lookup_insert_eq, Ho.
    split; [exact Hk|]. split; [reflexivity|].
    split; now apply elem_of_singleton.
  - left. now rewrite lookup_insert_ne.
Qed.

Lemma play_slot_recursive_unfold (slot_cmds : gmap ascii (option Play.slot))
    (fast wait : bool) (k : nat) (idx_char : ascii) (depth : nat) (st : Play.pstate) :
  Play.play_slot_recursive slot_cmds fast wait (S k) idx_char depth st
  = if Nat.ltb Play.DEPTH_LIMIT depth then Some st
    else match slot_cmds !! idx_char with
         | None => Some st
         | Some None => Some st
         | Some (Some v) =>
             if bool_decide (Play.oid v ∈ Play.visited st) then Some st
             else
               match
                 match Play.value v with
                 | Play.Enter =>
                     Some (Play.send_enter_only fast wait
                             (Play.set_visited ({[Play.oid v]} ∪ Play.visited st) st))
                 | Play.Combo seq =>
                     Play.play_seq slot_cmds
                       (fun c => Play.play_slot_recursive slot_cmds fast wait k c (S depth))
                       seq (Play.set_visited ({[Play.oid v]} ∪ Play.visited st) st)
                 | Play.Raw data =>
                     Some (Play.play_raw fast wait data
                             (Play.set_visited ({[Play.oid v]} ∪ Play.visited st) st))
                 end
               with
               | None => None
               | Some st2 =>
                   Some (Play.set_visited (Play.visited st2 ∖ {[Play.oid v]}) st2)
               end
         end.
Proof. reflexivity. Qed.

(** *** The transmissions of a call *)

Section Emit.
Variables (fast wait : bool).

Local Abbreviation emit := (GlobalCombo.emit fast wait).

Lemma emit_nil (st : Play.pstate) : emit [] st = st.
Proof. destruct st. unfold GlobalCombo.emit. cbn. now rewrite app_nil_r. Qed.

Lemma emit_app (a b : list Play.transmission) (st : Play.pstate) :
  emit (a ++ b) st = emit b (emit a st).
Proof.
  unfold GlobalCombo.emit. cbn [Play.visited Play.ctx Play.sent].
  rewrite length_app, (Nat.add_comm (length a)), Nat.iter_add, app_assoc. reflexivity.
Qed.

Lemma transmit_emit (t : Play.transmission) (st : Play.pstate) :
  Play.transmit fast wait t st = emit [t] st.
Proof. reflexivity. Qed.

Lemma play_line_emit (st : Play.pstate) (line : string) :
  Play.play_line fast wait st line = emit (Play.line_tx line) st.
Proof.
  unfold Play.play_line, Play.line_tx, Play.only_spaces, Play.send_enter_only, Play.send_line.
  destruct (PyStr.is_empty (PyStr.strip line) && negb (PyStr.is_empty line));
    [apply transmit_emit|].
  destruct (negb (PyStr.is_empty line)); [apply transmit_emit|].
  symmetry; apply emit_nil.
Qed.

Lemma play_lines_emit (lines : list string) (st : Play.pstate) :
  fold_left (Play.play_line fast wait) lines st = emit (flat_map Play.line_tx lines) st.
Proof.
  revert st; induction lines as [|l lines IH]; intros st.
  - symmetry; apply emit_nil.
  - cbn [fold_left flat_map]. now rewrite IH, play_line_emit, emit_app.
Qed.

Lemma play_segment_emit (segment : string) (st : Play.pstate) :
  Play.play_segment fast wait segment st = emit (Play.segment_tx segment) st.
Proof.
  unfold Play.play_segment, Play.segment_tx. rewrite play_lines_emit, emit_app.
  f_equal. destruct segment as [|c s].
  - reflexivity.
  - cbn [PyStr.is_empty]. rewrite andb_false_r. symmetry; apply emit_nil.
Qed.

Lemma play_parts_emit (parts : list string) (st : Play.pstate) :
  Play.play_parts fast wait parts st = emit (Play.parts_tx parts) st.
Proof.
  revert st; induction parts as [|seg rest IH]; intros st.
  - symmetry; apply emit_nil.
  - cbn [Play.play_parts Play.parts_tx]. rewrite IH, !emit_app, play_segment_emit.
    destruct rest; [now rewrite !emit_nil | reflexivity].
Qed.

Lemma emit_set_visited (tx : list Play.transmission) (V : gset positive)
    (st : Play.pstate) :
  emit tx (Play.set_visited V st) = Play.set_visited V (emit tx st).
Proof. reflexivity. Qed.

Lemma set_visited_same (st : Play.pstate) : Play.set_visited (Play.visited st) st = st.
Proof. now destruct st. Qed.

Lemma set_visited_twice (V W : gset positive) (st : Play.pstate) :
  Play.set_visited V (Play.set_visited W st) = Play.set_visited V st.
Proof. reflexivity. Qed.

(** The waits of a context after [n] transmissions. *)
Lemma waits_after (n : nat) (c : Play.ScriptContext) :
  Play.waits (Nat.iter n (Play.wait_ready_if_needed fast wait) c)
  = if fast || negb wait then Play.waits c
    else if Play.first_send c then Play.waits c + (n - 1)
         else Play.waits c + n.
Proof.
  destruct (fast || negb wait) eqn:E.
  - assert (H : forall c, Play.wait_ready_if_needed fast wait c = c).
    { intros c'. unfold Play.wait_ready_if_needed.
      destruct fast; [reflexivity|]. cbn [orb] in E. now rewrite E. }
    induction n as [|n IH]; [reflexivity|]. rewrite Nat.iter_succ. now rewrite H.
  - apply orb_false_iff in E as [-> E]. apply negb_false_iff in E as ->.
    assert (H : forall n w, Nat.iter n (Play.wait_ready_if_needed false true)
                              {| Play.first_send := false; Play.waits := w |}
                            = {| Play.first_send := false; Play.waits := w + n |}).
    { clear. induction n as [|n IH]; intros w.
      - cbn. f_equal. lia.
      - rewrite Nat.iter_succ, IH. cbn. f_equal. lia. }
    destruct c as [[] w]; cbn [Play.first_send Play.waits].
    + destruct n as [|n]; [cbn; lia|].
      rewrite Nat.iter_succ_r.
      change (Play.wait_ready_if_needed false true
                {| Play.first_send := true; Play.waits := w |})
        with {| Play.first_send := false; Play.waits := w |}.
      rewrite H. cbn. lia.
    + now rewrite H.
Qed.

End Emit.

Section Path.
Variable slot_cmds : gmap ascii (option Play.slot).
Variables (fast wait : bool).

Local Abbreviation play := (Play.play_slot_recursive slot_cmds fast wait).
Local Abbreviation emit := (GlobalCombo.emit fast wait).

(** The keys of a combo, played one after the other by calls that each
    send what the path asks for and leave the visited set as it was. *)
Lemma play_seq_path (f : ascii -> Play.pstate -> option Play.pstate)
    (g : ascii -> list Play.transmission) (V : gset positive) :
  (forall c st, Play.visited st = V -> f c st = Some (emit (g c) st)) ->
  forall seq st, Play.visited st = V ->
    Play.play_seq slot_cmds f seq st
    = Some (emit (flat_map (fun c => if bool_decide (is_Some (slot_cmds !! c))
                                     then g c else [])
                    (list_ascii_of_string seq)) st).
Proof.
  intros Hf. induction seq as [|c seq IH]; intros st HV.
  - cbn. now rewrite emit_nil.
  - cbn [Play.play_seq list_ascii_of_string flat_map].
    destruct (bool_decide (is_Some (slot_cmds !! c))).
    + rewrite (Hf c st HV), emit_app. apply IH. exact HV.
    + cbn [app]. now apply IH.
Qed.

(** The visited set of the code is the path of the design: a call sends
    exactly the transmissions of [path_trace] for the set it is given,
    and hands that set back. *)
Lemma play_path (fuel : nat) :
  forall c depth st,
    1 <= fuel -> Play.DEPTH_LIMIT + 2 <= fuel + depth ->
    play fuel c depth st
    = Some (emit (PlayPath.path_trace slot_cmds fuel (Play.visited st) depth c) st).
Proof.
  induction fuel as [|fuel IH]; intros c depth st H1 H2; [lia|].
  rewrite play_slot_recursive_unfold. cbn [PlayPath.path_trace].
  destruct (Nat.ltb Play.DEPTH_LIMIT depth) eqn:D; [now rewrite emit_nil|].
  apply Nat.ltb_ge in D. unfold Play.DEPTH_LIMIT in *.
  destruct (slot_cmds !! c) as [[v|]|]; try now rewrite emit_nil.
  destruct (bool_decide (Play.oid v ∈ Play.visited st)) eqn:B; [now rewrite emit_nil|].
  apply bool_decide_eq_false in B.
  assert (Hback : forall tx,
            Play.set_visited
              (Play.visited (emit tx (Play.set_visited ({[Play.oid v]} ∪ Play.visited st) st))
               ∖ {[Play.oid v]})
              (emit tx (Play.set_visited ({[Play.oid v]} ∪ Play.visited st) st))
            = emit tx st).
  { intros tx. cbn [GlobalCombo.emit Play.visited Play.set_visited Play.ctx Play.sent].
    rewrite (visited_restored _ _ B). reflexivity. }
  destruct (Play.value v) as [|seq|data].
  - unfold Play.send_enter_only. rewrite transmit_emit. f_equal. apply Hback.
  - rewrite (play_seq_path (fun c => play fuel c (S depth))
               (PlayPath.path_trace slot_cmds fuel ({[Play.oid v]} ∪ Play.visited st)
                  (S depth))
               ({[Play.oid v]} ∪ Play.visited st)).
    + f_equal. apply Hback.
    + intros c' st' HV. rewrite <- HV. apply IH; lia.
    + reflexivity.
  - unfold Play.play_raw. rewrite play_parts_emit. f_equal. apply Hback.
Qed.

End Path.

(** C7, as stated, fails for what follows the cycle: slot [a] is the
    combo [ab] (and, in the second registry, reaches itself through slot
    [c]); the reference back to [a] is detected and skipped, and the raw
    slot [b] that follows it in the combo is played all the same. *)
Lemma combo_plays_on_after_cycle :
  Play.sent <$> Play.play_slot Samples.self_combo false true "a"
  = Some [Play.TxLine "x"]
  /\ Play.sent <$> Play.play_slot Samples.indirect_combo false true "a"
     = Some [Play.TxLine "x"].
Proof. split; vm_compute; reflexivity. Qed.

(** C7 (amended).  For every slot registry, playing a slot returns: the
    depth cap bounds the recursion.  The visited set of the code is the
    set of the slots that are being played, however many combos lie
    between them: every call, at every depth, sends exactly what
    [path_trace] gives for the visited set it finds, which is nothing for
    a slot that is on the path, directly or through other slots, and
    leaves the set as it found it; so playing a slot sends what
    [path_trace] gives from the empty path.  A reference to a slot that is
    being played returns at once with the state unchanged.  Only that
    reference is dropped: a combo that names itself plays exactly as the
    same combo without that reference, so the keys after it are still
    played. *)
Theorem combo_cycle_is_skipped (slot_cmds : gmap ascii (option Play.slot))
    (fast wait : bool) :
  (forall k, is_Some (Play.play_slot slot_cmds fast wait k))
  /\ (forall k, exists st,
        Play.play_slot slot_cmds fast wait k = Some st
        /\ Play.sent st = PlayPath.path_trace slot_cmds (Play.DEPTH_LIMIT + 2) ∅ 0 k
        /\ Play.visited st = ∅)
  /\ (forall fuel k depth st,
        1 <= fuel -> Play.DEPTH_LIMIT + 2 <= fuel + depth ->
        exists st',
          Play.play_slot_recursive slot_cmds fast wait fuel k depth st = Some st'
          /\ Play.sent st'
             = Play.sent st ++ PlayPath.path_trace slot_cmds fuel (Play.visited st) depth k
          /\ Play.visited st' = Play.visited st)
  /\ (forall fuel path depth k v,
        slot_cmds !! k = Some (Some v) ->
        Play.oid v ∈ path ->
        PlayPath.path_trace slot_cmds fuel path depth k = [])
  /\ (forall fuel k depth st v,
        slot_cmds !! k = Some (Some v) ->
        Play.oid v ∈ Play.visited st ->
        Play.play_slot_recursive slot_cmds fast wait (S fuel) k depth st = Some st)
  /\ (forall k o seq1 seq2,
        slot_cmds !! k
        = Some (Some {| Play.oid := o;
                        Play.value := Play.Combo (seq1 ++ String k seq2)%string |}) ->
        Play.play_slot slot_cmds fast wait k
        = Play.play_slot
            (<[k := Some {| Play.oid := o;
                            Play.value := Play.Combo (seq1 ++ seq2)%string |}]> slot_cmds)
            fast wait k).
Proof.
  split; [|split; [|split; [|split; [|split]]]].
  - intros k. unfold Play.play_slot.
    destruct (slot_cmds !! k); [|eauto].
    apply play_total; unfold Play.DEPTH_LIMIT; lia.
  - intros k. unfold Play.play_slot.
    destruct (slot_cmds !! k) as [v|] eqn:Hk.
    + rewrite play_path by (unfold Play.DEPTH_LIMIT; lia).
      eexists; split; [reflexivity|]. split; reflexivity.
    + exists Play.new_pstate. split; [reflexivity|]. split; [|reflexivity].
      change (Play.DEPTH_LIMIT + 2) with (S 41). cbn [PlayPath.path_trace].
      change (Nat.ltb Play.DEPTH_LIMIT 0) with false. cbn iota. now rewrite Hk.
  - intros fuel k depth st H1 H2. rewrite play_path by assumption.
    eexists; split; [reflexivity|]. split; reflexivity.
  - intros fuel path depth k v Hk Hin. destruct fuel as [|fuel]; [reflexivity|].
    cbn [PlayPath.path_trace]. destruct (Nat.ltb Play.DEPTH_LIMIT depth); [reflexivity|].
    rewrite Hk. now rewrite bool_decide_eq_true_2 by exact Hin.
  - intros fuel k depth st v. apply play_cycle.
  - intros k o seq1 seq2 Hk.
    set (v1 := {| Play.oid := o; Play.value := Play.Combo (seq1 ++ String k seq2)%string |}) in *.
    set (v2 := {| Play.oid := o; Play.value := Play.Combo (seq1 ++ seq2)%string |}).
    pose proof (agree_outside_insert slot_cmds k v1 v2 Hk eq_refl) as Hag.
    set (r2 := <[k := Some v2]> slot_cmds) in *.
    assert (Hk2 : r2 !! k = Some (Some v2)) by apply lookup_insert_eq.
    unfold Play.play_slot. rewrite Hk, Hk2.
    change (Play.DEPTH_LIMIT + 2) with (S 41).
    rewrite !play_slot_recursive_unfold, Hk, Hk2.
    change (Nat.ltb Play.DEPTH_LIMIT 0) with false. cbn iota.
    cbn [Play.oid Play.value v1 v2 Play.new_pstate Play.visited].
    rewrite bool_decide_eq_false_2 by apply not_elem_of_empty.
    set (st1 := Play.set_visited ({[o]} ∪ ∅) _).
    assert (HV1 : {[o]} ⊆ Play.visited st1).
    { intros x Hx. cbn. now apply elem_of_union_l. }
    rewrite !play_seq_app.
    rewrite <- (play_seq_agree slot_cmds r2 {[o]} Hag
                  (fun c => Play.play_slot_recursive slot_cmds fast wait 41 c 1)
                  (fun c => Play.play_slot_recursive r2 fast wait 41 c 1));
      [|intros c st HV; now apply (play_agree slot_cmds r2 {[o]})
       |intros c st st' E; exact (play_visited slot_cmds fast wait 41 c 1 st st' E)
       |exact HV1].
    destruct (Play.play_seq slot_cmds _ seq1 st1) as [st'|] eqn:E1; [|reflexivity].
    cbn [mbind option_bind].
    assert (HV' : Play.visited st' = Play.visited st1).
    { apply (play_seq_visited slot_cmds _
               (fun c st st' E => play_visited slot_cmds fast wait 41 c 1 st st' E)
               _ _ _ E1). }
    cbn [Play.play_seq]. rewrite bool_decide_eq_true_2 by (rewrite Hk; eauto).
    rewrite (play_cycle slot_cmds fast wait 40 k 1 st' v1 Hk)
      by (rewrite HV'; apply HV1; now apply elem_of_singleton).
    rewrite <- (play_seq_agree slot_cmds r2 {[o]} Hag
                  (fun c => Play.play_slot_recursive slot_cmds fast wait 41 c 1)
                  (fun c => Play.play_slot_recursive r2 fast wait 41 c 1));
      [reflexivity
      |intros c st HV; now apply (play_agree slot_cmds r2 {[o]})
      |intros c st st'' E; exact (play_visited slot_cmds fast wait 41 c 1 st st'' E)
      |now rewrite HV'].
Qed.

Lemma combo_cycle_is_skipped_witness :
  (exists st, Play.play_slot Samples.indirect_combo false true "a" = Some st
              /\ Play.sent st = [Play.TxLine "x"] /\ Play.visited st = ∅)
  /\ (exists st, Play.play_slot Samples.self_combo false true "a" = Some st
                 /\ Play.sent st = [Play.TxLine "x"] /\ Play.visited st = ∅)
  /\ Play.play_slot Samples.self_combo false true "a"
     = Play.play_slot (<["a"%char := Samples.combo_slot 1 "b"]> Samples.self_combo)
         false true "a".
Proof.
  destruct (combo_cycle_is_skipped Samples.indirect_combo false true)
    as (_ & H2 & _).
  destruct (combo_cycle_is_skipped Samples.self_combo false true)
    as (_ & H2' & _ & _ & _ & H6).
  split; [|split].
  - destruct (H2 "a"%char) as (st & E & S & V). exists st.
    split; [exact E|]. split; [rewrite S; vm_compute; reflexivity | exact V].
  - destruct (H2' "a"%char) as (st & E & S & V). exists st.
    split; [exact E|]. split; [rewrite S; vm_compute; reflexivity | exact V].
  - apply (H6 "a"%char 1%positive "" "b"). reflexivity.
Defined.

(** ** Waiting for the prompt *)

Local Open Scope Z_scope.




Local Close Scope Z_scope.

(** * Further properties of the code *)

(** ** More on the capture machine *)

Lemma lower_f (c : ascii) :
  PyStr.lower_char c = "f"%char -> c = "f"%char \/ c = "F"%char.
Proof.
  destruct c as [[] [] [] [] [] [] [] []]; vm_compute; intros H;
    first [discriminate H | now left | now right].
Qed.

Lemma terminal_row_first_char (l : string) :
  CaptureShape.is_terminal_row l = true ->
  exists c s, l = String c s /\ (c = "f"%char \/ c = "F"%char).
Proof.
  unfold CaptureShape.is_terminal_row.
  change (Capture._LAST_ADDR ++ ":")%string with "f0:".
  destruct l as [|c s]; [discriminate|].
  cbn [PyStr.lower PyStr.map_str PyStr.startswith].
  destruct (Ascii.eqb "f" (PyStr.lower_char c)) eqn:E; [|discriminate].
  intros _. apply Ascii.eqb_eq in E. symmetry in E. apply lower_f in E. eauto.
Qed.

Lemma terminal_row_not_first (f l : string) :
  CaptureShape.first_line_ok f -> CaptureShape.is_terminal_row l = true -> l <> f.
Proof.
  intros Hf Hl ->. apply terminal_row_first_char in Hl as (c & s & -> & Hc).
  destruct Hf as [Hf|Hf].
  - injection Hf as -> _. destruct Hc; discriminate.
  - apply header_starts_with_space in Hf as (c' & s' & Heq & Hsp).
    injection Heq as <- <-. destruct Hc; subst c; discriminate.
Qed.

Lemma terminal_row_nonblank (l : string) :
  CaptureShape.is_terminal_row l = true -> CaptureShape.nonblank l = true.
Proof.
  intros Hl. apply terminal_row_first_char in Hl as (c & s & -> & Hc).
  unfold CaptureShape.nonblank, PyStr.strip. cbn [PyStr.lstrip].
  assert (E : PyStr.is_space c = false) by (destruct Hc; subst; reflexivity).
  rewrite E. cbn [PyStr.rstrip]. destruct (PyStr.rstrip s); [rewrite E|]; reflexivity.
Qed.

Lemma data_row_nonblank (l : string) :
  Regex.fullmatch Capture._I2C_DATA_ROW_RE l = true -> CaptureShape.nonblank l = true.
Proof.
  intros Hl. apply data_row_starts_with_hex in Hl as (c & s & -> & Hc).
  unfold CaptureShape.nonblank, PyStr.strip. cbn [PyStr.lstrip].
  assert (E : PyStr.is_space c = false).
  { destruct (PyStr.is_space c) eqn:E; [|reflexivity].
    apply space_not_hex in E. congruence. }
  rewrite E. cbn [PyStr.rstrip]. destruct (PyStr.rstrip s); [rewrite E|]; reflexivity.
Qed.

Ltac split_ok :=
  unfold CaptureShape.state_ok; split; [|split; [|split; [|split; [|split]]]].

Lemma state_ok_init : CaptureShape.state_ok Capture.init.
Proof. split_ok; cbn; try discriminate; try lia; auto. Qed.

Lemma state_ok_with_fragment (f : string) (st : Capture.state) :
  CaptureShape.state_ok st -> CaptureShape.state_ok (Capture.with_fragment f st).
Proof. now destruct st. Qed.

(** Finalising a non-empty buffer whose dump is well shaped. *)
Lemma finalize_ok (st : Capture.state) (why : Capture.reason) :
  Forall CaptureShape.dump_ok (Capture.finals st) ->
  CaptureShape.dump_ok {| Capture.fin_reason := why; Capture.fin_lines := Capture.lines st |} ->
  CaptureShape.state_ok (Capture.set_capture (Capture.record_dump st why) false []).
Proof.
  intros Hf Hd. destruct st as [fr a ls ld fs]; cbn in *.
  split_ok; cbn; try discriminate; try lia; auto.
  - apply Forall_app; split; [exact Hf|]. constructor; [exact Hd | constructor].
  - now rewrite last_app_one.
Qed.

Lemma capture_line_ok (st : Capture.state) (line : string) :
  Capture.active st = true -> CaptureShape.state_ok st ->
  exists st', Capture.capture_line st line = Some st' /\ CaptureShape.state_ok st'.
Proof.
  intros Ha (Hne & _ & Hb & Hl & Hf & Hd). specialize (Hne Ha).
  destruct st as [fr a ls ld fs]; cbn in *. subst a.
  unfold Capture.capture_line. proj.
  destruct ls as [|first rest]; [congruence|].
  destruct Hb as [Hfirst Hrest].
  change (length (first :: rest)) with (S (length rest)) in Hl.
  fold (CaptureShape.is_terminal_row line).
  (* whether the line is appended *)
  set (st1 := if Regex.fullmatch Capture._I2C_DATA_ROW_RE line || (line =? first)%string
              then _ else _).
  assert (H1 : (st1 = {| Capture.fragment := fr; Capture.active := true;
                         Capture.lines := first :: rest;
                         Capture.last_dump := ld; Capture.finals := fs |}
                /\ (CaptureShape.is_terminal_row line = true -> False))
               \/ (st1 = {| Capture.fragment := fr; Capture.active := true;
                            Capture.lines := first :: rest ++ [line];
                            Capture.last_dump := ld; Capture.finals := fs |}
                   /\ line <> first /\ CaptureShape.nonblank line = true)).
  { subst st1. unfold Capture.set_capture. proj.
    destruct (String.eqb_spec line first) as [->|Hne'].
    - rewrite orb_true_r. cbn [negb]. left. split; [reflexivity|].
      intros Ht. now apply (terminal_row_not_first first first Hfirst Ht).
    - rewrite orb_false_r. cbn [negb].
      destruct (Regex.fullmatch Capture._I2C_DATA_ROW_RE line) eqn:D.
      + right. split; [reflexivity|]. split; [exact Hne' | now apply data_row_nonblank].
      + fold (CaptureShape.nonblank line).
        destruct (CaptureShape.nonblank line) eqn:N.
        * right. auto.
        * left. split; [reflexivity|]. intros Ht.
          apply terminal_row_nonblank in Ht. congruence. }
  clearbody st1.
  destruct (CaptureShape.is_terminal_row line) eqn:T.
  - destruct H1 as [[_ H]|(-> & Hne' & Hnb)]; [destruct (H eq_refl)|].
    eexists; split; [reflexivity|].
    apply finalize_ok; [exact Hf|]. cbn. split; [exact Hfirst|].
    exists rest, line. auto.
  - destruct H1 as [[-> _]|(-> & Hne' & Hnb)]; proj.
    + replace (Nat.ltb 60 (length (first :: rest))) with false
        by (symmetry; apply Nat.ltb_ge; cbn; lia).
      eexists; split; [reflexivity|].
      split_ok; cbn; try discriminate; try lia; auto.
    + assert (Hk : Forall (CaptureShape.kept_line first) (rest ++ [line])).
      { apply Forall_app; split; [exact Hrest|]. constructor; [|constructor].
        split; [exact Hne' | split; [exact Hnb | exact T]]. }
      destruct (Nat.ltb 60 (length (first :: rest ++ [line]))) eqn:E.
      * eexists; split; [reflexivity|].
        unfold Capture._maybe_finalize_partial. proj. cbn [Prompt.truthy_list andb].
        apply finalize_ok; [exact Hf|]. cbn. split; [exact Hfirst|].
        split; [exact Hk|]. right. split; [reflexivity|].
        apply Nat.ltb_lt in E. cbn in E. rewrite length_app in *. cbn in *. lia.
      * eexists; split; [reflexivity|].
        apply Nat.ltb_ge in E.
        split_ok; cbn; try discriminate; try lia; auto.
Qed.

Lemma process_line_ok (pats : list string) (st : Capture.state) (line : string) :
  CaptureShape.state_ok st ->
  exists st', Capture.process_line pats st line = Some st' /\ CaptureShape.state_ok st'.
Proof.
  intros Hok. unfold Capture.process_line.
  destruct (Prompt.truthy_list pats && Prompt._line_is_prompt_start pats line).
  - eexists; split; [reflexivity|].
    destruct (Capture.active st) eqn:Ha; [|exact Hok].
    destruct Hok as (Hne & _ & Hb & Hl & Hf & Hd). specialize (Hne Ha).
    unfold Capture._maybe_finalize_partial. rewrite Ha.
    destruct (Capture.lines st) as [|first rest] eqn:E; [congruence|].
    cbn [Prompt.truthy_list andb].
    apply finalize_ok; [exact Hf|]. rewrite E. cbn. destruct Hb as [Hfirst Hrest].
    split; [exact Hfirst|]. split; [exact Hrest|]. left. split; [reflexivity|].
    cbn in Hl. lia.
  - destruct (Capture.active st) eqn:Ha; cbn [negb].
    + now apply capture_line_ok.
    + destruct Hok as (_ & Hidle & Hb & Hl & Hf & Hd). specialize (Hidle Ha).
      destruct (Regex.fullmatch Capture._I2C_HEADER_RE line) eqn:H.
      { eexists; split; [reflexivity|].
        destruct st; cbn in *.
        split_ok; cbn; try discriminate; try lia; auto.
        split; [now right | constructor]. }
      destruct (Regex.prefixmatch Capture.FIRST_ROW_RE line).
      * apply capture_line_ok; [now destruct st|].
        destruct st; cbn in *.
        split_ok; cbn; try discriminate; try lia; auto.
        split; [now left | constructor].
      * exists st. split; [reflexivity|].
        split_ok; auto. intros; congruence.
Qed.

Lemma run_lines_ok (pats : list string) (ls : list string) (st : Capture.state) :
  CaptureShape.state_ok st ->
  exists st', Capture.run_lines pats ls st = Some st' /\ CaptureShape.state_ok st'.
Proof.
  revert st; induction ls as [|l ls IH]; intros st Hok; [eauto|].
  cbn [Capture.run_lines].
  destruct (process_line_ok pats st (PyStr.rstrip_cr l) Hok) as (st1 & -> & H1).
  now apply IH.
Qed.

(** X1.  What [_i2c_capture_feed] does with a text does not depend on how
    the serial reader cut it into chunks: two chunkings of the same text,
    fed from the same state, end in the same state with the same dumps
    finalised (or raise alike). *)
Theorem feed_chunking_irrelevant (pats : list string) (st : Capture.state)
    (chunks1 chunks2 : list string) :
  Capture.one_line (Capture.fragment st) ->
  Capture.cat_all chunks1 = Capture.cat_all chunks2 ->
  Capture.feed_all pats st chunks1 = Capture.feed_all pats st chunks2.
Proof.
  intros Hone Hcat.
  rewrite (feed_all_run_lines pats chunks1 st Hone).
  rewrite (feed_all_run_lines pats chunks2 st Hone).
  now rewrite Hcat.
Qed.
Lemma feed_chunking_irrelevant_witness :
  Capture.feed_all Prompt.DEFAULT_PROMPT_PATTERNS Capture.init
    [Capture.unlines [Samples.header]; Capture.unlines [Samples.row "f0"]]
  = Capture.feed_all Prompt.DEFAULT_PROMPT_PATTERNS Capture.init
      ["     00 01 02 03"; (" 04 05 06 07 08 09 0a 0b 0c 0d 0e 0f" ++ String PyStr.LF "f0: 00 11")%string;
       " 22 33 44 55 66 77 88 99 aa bb cc dd ee ff"; String PyStr.LF ""].
Proof.
  apply (feed_chunking_irrelevant Prompt.DEFAULT_PROMPT_PATTERNS Capture.init).
  - reflexivity.
  - vm_compute; reflexivity.
Defined.

(** X2.  Whatever is fed from process start, the feed returns, and: the
    machine is Idle exactly when its buffer is empty; every dump finalised
    so far is non-empty and starts with a header line or the no-header
    sentinel; behind the first line it holds only non-blank lines that
    differ from the first; a complete dump ends with its one and only row
    at the terminal address, an interrupted one holds no such row; a dump
    cut by a prompt has at most 60 lines and one cut by overflow exactly
    61; [_last_captured_dump] is the latest finalised dump; and the
    carried fragment holds no newline. *)
Theorem captured_dumps_well_shaped (pats : list string) (chunks : list string) :
  exists st, Capture.feed_all pats Capture.init chunks = Some st
             /\ CaptureShape.state_ok st
             /\ Capture.one_line (Capture.fragment st).
Proof.
  rewrite feed_all_run_lines by reflexivity.
  cbn [Capture.init Capture.fragment]. rewrite append_nil_l.
  destruct (run_lines_ok pats (fst (Capture.split_lines (Capture.cat_all chunks)))
              Capture.init state_ok_init) as (st & Hrun & Hok).
  fold Capture.init. rewrite Hrun. eexists; split; [reflexivity|]. split.
  - now apply state_ok_with_fragment.
  - destruct st; cbn. apply split_lines_tail_one_line.
Qed.

Lemma split_lines_unlines_app (ls : list string) (t : string) :
  Forall Capture.one_line ls ->
  Capture.split_lines (Capture.unlines ls ++ t)
  = (ls ++ fst (Capture.split_lines t), snd (Capture.split_lines t)).
Proof.
  intros Hls. induction Hls as [|l ls Hl _ IH].
  - cbn [Capture.unlines app]. rewrite append_nil_l. now destruct (Capture.split_lines t).
  - rewrite unlines_cons, append_assoc, append_cons.
    rewrite (split_lines_line _ _ Hl), IH. reflexivity.
Qed.

Lemma idle_noise_dropped (pats : list string) (noise : list string) (st : Capture.state) :
  Capture.active st = false ->
  Forall CaptureShape.idle_noise noise ->
  Capture.run_lines pats noise st = Some st.
Proof.
  intros Ha Hn. induction Hn as [|l ls [Hh Hr] _ IH]; [reflexivity|].
  cbn [Capture.run_lines]. unfold Capture.process_line.
  rewrite Ha, Hh, Hr. cbn [negb].
  destruct (Prompt.truthy_list pats && Prompt._line_is_prompt_start pats (PyStr.rstrip_cr l));
    exact IH.
Qed.

(** X3.  While the machine is Idle and carries no fragment (the text
    received so far ended with a newline), lines that are neither an
    i2cdump header nor a row that starts with [00:] and whitespace leave
    no trace: feeding them, each newline-terminated, in front of a text
    gives the state that the text alone gives. *)
Theorem idle_noise_leaves_no_trace (pats : list string) (st : Capture.state)
    (noise : list string) (text : string) :
  Capture.active st = false ->
  Capture.fragment st = "" ->
  Forall Capture.one_line noise ->
  Forall CaptureShape.idle_noise noise ->
  Capture.feed_all pats st [Capture.unlines noise; text]
  = Capture.feed_all pats st [text].
Proof.
  intros Ha Hfr Hone Hn.
  rewrite !feed_all_run_lines by (rewrite Hfr; reflexivity).
  rewrite Hfr, !append_nil_l. cbn [Capture.cat_all]. rewrite !append_nil_r.
  rewrite (split_lines_unlines_app noise text Hone). cbn [fst snd].
  rewrite run_lines_app, (idle_noise_dropped pats noise st Ha Hn).
  reflexivity.
Qed.
Lemma idle_noise_leaves_no_trace_witness :
  Capture.feed_all Prompt.DEFAULT_PROMPT_PATTERNS Capture.init
    [Capture.unlines Cases.chatter; Capture.unlines [Samples.header; Samples.row "f0"]]
  = Capture.feed_all Prompt.DEFAULT_PROMPT_PATTERNS Capture.init
      [Capture.unlines [Samples.header; Samples.row "f0"]].
Proof.
  apply (idle_noise_leaves_no_trace Prompt.DEFAULT_PROMPT_PATTERNS Capture.init
           Cases.chatter).
  - reflexivity.
  - reflexivity.
  - repeat constructor.
  - repeat (constructor; [split; vm_compute; reflexivity|]); constructor.
Defined.

Lemma data_row_not_first (f r : string) :
  CaptureShape.first_line_ok f ->
  Regex.fullmatch Capture._I2C_DATA_ROW_RE r = true ->
  (r =? f)%string = false.
Proof.
  intros [->|Hf] Hr; [|now apply data_row_is_not_header].
  apply data_row_starts_with_hex in Hr as (c & s & -> & Hc).
  apply String.eqb_neq. intros E. injection E as -> _. discriminate Hc.
Qed.

Lemma data_row_not_header_line (r : string) :
  Regex.fullmatch Capture._I2C_DATA_ROW_RE r = true ->
  Regex.fullmatch Capture._I2C_HEADER_RE r = false.
Proof.
  intros Hr. destruct (Regex.fullmatch Capture._I2C_HEADER_RE r) eqn:Hh; [|reflexivity].
  pose proof (data_row_is_not_header r r Hh Hr) as E.
  now rewrite String.eqb_refl in E.
Qed.

Lemma capture_kept_rows (pats : list string) (h f : string) (rows : list string)
    (acc : list string) (ld : option (list string)) (fs : list Capture.finalized) :
  CaptureShape.first_line_ok h ->
  Forall (Capture.plain_row pats) rows ->
  length acc + length rows <= 59 ->
  Capture.run_lines pats rows
    {| Capture.fragment := f; Capture.active := true; Capture.lines := h :: acc;
       Capture.last_dump := ld; Capture.finals := fs |}
  = Some {| Capture.fragment := f; Capture.active := true;
            Capture.lines := h :: acc ++ map PyStr.rstrip_cr rows;
            Capture.last_dump := ld; Capture.finals := fs |}.
Proof.
  intros Hh Hrows. revert acc.
  induction Hrows as [|r rows (Hr & Hf0 & Hp) _ IH]; intros acc Hlen.
  - cbn. now rewrite app_nil_r.
  - cbn [Capture.run_lines length] in *.
    unfold Capture.process_line at 1. rewrite Hp, andb_false_r. proj. cbn [negb].
    unfold Capture.capture_line. proj.
    rewrite Hr, (data_row_not_first h _ Hh Hr). cbn [orb negb].
    unfold Capture.set_capture. proj. rewrite Hf0.
    replace (Nat.ltb 60 (length ((h :: acc) ++ [PyStr.rstrip_cr r]))) with false
      by (symmetry; apply Nat.ltb_ge; rewrite length_app; cbn; lia).
    change ((h :: acc) ++ [PyStr.rstrip_cr r]) with (h :: (acc ++ [PyStr.rstrip_cr r])).
    rewrite IH by (rewrite length_app; cbn; lia).
    now rewrite <- app_assoc.
Qed.

(** X4.  A dump whose header line was lost is captured all the same.
    The machine is Idle with an empty fragment; the text, in any
    chunking, is a valid data row that starts with [00:] and whitespace,
    further valid rows (59 at most in all, none at the terminal address)
    and a valid row at the terminal address, each a line of its own, and
    none of these lines, the terminal row included, is taken for a prompt
    line.  Then one more dump is finalised, as complete; its first line
    is the sentinel [#NO_HEADER#], followed by the rows as received, with
    trailing carriage returns stripped; it is the last captured dump, and
    the machine is Idle again with an empty fragment. *)
Theorem capture_without_header (pats : list string) (st : Capture.state) (r0 : string)
    (rows : list string) (last : string) (chunks : list string) :
  Capture.active st = false ->
  Capture.fragment st = "" ->
  Forall Capture.one_line (r0 :: rows ++ [last]) ->
  Regex.prefixmatch Capture.FIRST_ROW_RE (PyStr.rstrip_cr r0) = true ->
  Forall (Capture.plain_row pats) (r0 :: rows) ->
  length rows <= 58 ->
  Regex.fullmatch Capture._I2C_DATA_ROW_RE (PyStr.rstrip_cr last) = true ->
  PyStr.startswith (PyStr.lower (PyStr.rstrip_cr last)) (Capture._LAST_ADDR ++ ":") = true ->
  Prompt._line_is_prompt_start pats (PyStr.rstrip_cr last) = false ->
  Capture.cat_all chunks = Capture.unlines (r0 :: rows ++ [last]) ->
  let dump := Capture.NO_HEADER :: map PyStr.rstrip_cr (r0 :: rows ++ [last]) in
  Capture.feed_all pats st chunks
  = Some {| Capture.fragment := ""; Capture.active := false; Capture.lines := [];
            Capture.last_dump := Some dump;
            Capture.finals :=
              Capture.finals st ++ [{| Capture.fin_reason := Capture.Complete;
                                       Capture.fin_lines := dump |}] |}.
Proof.
  intros Ha Hfr Hone H00 Hrows Hlen Hl Hf0 Hlp Hcat dump.
  assert (Hs : CaptureShape.first_line_ok Capture.NO_HEADER) by now left.
  destruct st as [fr a ls ld fs]. cbn in Ha, Hfr. subst fr a.
  rewrite feed_all_run_lines by reflexivity.
  cbn [Capture.fragment Capture.finals]. rewrite append_nil_l, Hcat.
  rewrite <- (append_nil_r (Capture.unlines _)).
  rewrite (split_lines_unlines _ "" Hone) by reflexivity.
  cbn [fst snd]. change (r0 :: rows ++ [last]) with ((r0 :: rows) ++ [last]).
  rewrite run_lines_app.
  assert (Hfirst : Capture.run_lines pats (r0 :: rows)
            {| Capture.fragment := ""; Capture.active := false; Capture.lines := ls;
               Capture.last_dump := ld; Capture.finals := fs |}
          = Capture.run_lines pats (r0 :: rows)
              {| Capture.fragment := ""; Capture.active := true;
                 Capture.lines := [Capture.NO_HEADER];
                 Capture.last_dump := ld; Capture.finals := fs |}).
  { cbn [Capture.run_lines]. inversion Hrows as [|? ? (Hr & Hr0 & Hp) _]; subst.
    unfold Capture.process_line. rewrite Hp, andb_false_r. proj. cbn [negb].
    rewrite (data_row_not_header_line _ Hr), H00. reflexivity. }
  rewrite Hfirst.
  rewrite (capture_kept_rows pats _ "" (r0 :: rows) [] ld fs Hs Hrows) by (cbn; lia).
  cbn [mbind option_bind Capture.run_lines app].
  unfold Capture.process_line. rewrite Hlp, andb_false_r. proj. cbn [negb].
  unfold Capture.capture_line. proj.
  rewrite Hl, (data_row_not_first _ _ Hs Hl). cbn [orb negb].
  unfold Capture.set_capture, Capture.record_dump. proj. rewrite Hf0.
  subst dump. cbn [map app]. rewrite map_app. reflexivity.
Qed.
Lemma capture_without_header_witness :
  let dump := Capture.NO_HEADER
              :: map PyStr.rstrip_cr (Cases.bare_rows ++ [Samples.row "f0"]) in
  Capture.feed_all Prompt.DEFAULT_PROMPT_PATTERNS Capture.init
    [Capture.unlines Cases.bare_rows; Capture.unlines [Samples.row "f0"]]
  = Some {| Capture.fragment := ""; Capture.active := false; Capture.lines := [];
            Capture.last_dump := Some dump;
            Capture.finals := [{| Capture.fin_reason := Capture.Complete;
                                  Capture.fin_lines := dump |}] |}.
Proof.
  apply (capture_without_header Prompt.DEFAULT_PROMPT_PATTERNS Capture.init
           (Samples.row "00") (map Samples.row ["10"; "20"]) (Samples.row "f0")).
  - reflexivity.
  - reflexivity.
  - repeat constructor.
  - vm_compute; reflexivity.
  - repeat (constructor; [split; [|split]; vm_compute; reflexivity|]); constructor.
  - cbn; lia.
  - vm_compute; reflexivity.
  - vm_compute; reflexivity.
  - vm_compute; reflexivity.
  - vm_compute; reflexivity.
Defined.

(** ** The receiver in hex-dump mode *)

Lemma HEXDIGIT_char (n : nat) :
  n < 16 ->
  Receiver.hex_text_char (Receiver.HEXDIGIT n) = true
  /\ PyStr.is_space (Receiver.HEXDIGIT n) = false
  /\ Receiver.HEXDIGIT n <> ":"%char.
Proof.
  intros H. do 16 (destruct n as [|n]; [repeat split; discriminate|]). lia.
Qed.

Lemma all_chars_app (p : ascii -> bool) (s t : string) :
  Receiver.all_chars p (s ++ t)%string = Receiver.all_chars p s && Receiver.all_chars p t.
Proof.
  induction s as [|c s IH]; [reflexivity|].
  rewrite append_cons. cbn [Receiver.all_chars]. now rewrite IH, andb_assoc.
Qed.

Lemma fmt_02X_shape (b : Byte.byte) :
  exists h1 h2, Receiver.fmt_02X b = String h1 (String h2 "")
                /\ Receiver.hex_text_char h1 = true /\ Receiver.hex_text_char h2 = true
                /\ PyStr.is_space h1 = false /\ h1 <> ":"%char /\ h2 <> ":"%char.
Proof.
  unfold Receiver.fmt_02X.
  pose proof (Byte.to_N_bounded b) as Hb.
  set (n := N.to_nat (Byte.to_N b)). assert (Hn : n < 256) by (subst n; lia).
  clearbody n.
  destruct (HEXDIGIT_char (n / 16)) as (A1 & A2 & A3).
  { apply Nat.Div0.div_lt_upper_bound. lia. }
  destruct (HEXDIGIT_char (n mod 16)) as (B1 & B2 & B3).
  { apply Nat.mod_upper_bound. lia. }
  eexists _, _; repeat split; eauto.
Qed.

Lemma format_hex_cons (b b' : Byte.byte) (data : list Byte.byte) :
  Receiver.format_hex (b :: b' :: data)
  = (Receiver.fmt_02X b ++ " " ++ Receiver.format_hex (b' :: data))%string.
Proof. reflexivity. Qed.

(** The text of a non-empty read: two digits, then nothing or a space and
    more, all of it out of the characters of a hex dump. *)
Lemma format_hex_shape (b : Byte.byte) (data : list Byte.byte) :
  exists h1 h2 tail,
    Receiver.format_hex (b :: data) = String h1 (String h2 tail)
    /\ PyStr.is_space h1 = false
    /\ (tail = "" \/ exists t, tail = String " " t)
    /\ Receiver.all_chars Receiver.hex_text_char (Receiver.format_hex (b :: data)) = true.
Proof.
  revert b; induction data as [|b' data IH]; intros b.
  - destruct (fmt_02X_shape b) as (h1 & h2 & E & H1 & H2 & S1 & _).
    exists h1, h2, "". change (Receiver.format_hex [b]) with (Receiver.fmt_02X b).
    rewrite E. cbn [Receiver.all_chars]. rewrite H1, H2. auto.
  - destruct (fmt_02X_shape b) as (h1 & h2 & E & H1 & H2 & S1 & _).
    destruct (IH b') as (_ & _ & _ & _ & _ & _ & Hall).
    rewrite format_hex_cons, E. rewrite !append_cons, append_nil_l.
    exists h1, h2, (String " " (Receiver.format_hex (b' :: data))).
    split; [reflexivity|]. split; [exact S1|]. split; [eauto|].
    cbn [Receiver.all_chars]. rewrite append_nil_l, H1, H2, Hall. reflexivity.
Qed.

Lemma all_chars_one_line (s : string) :
  Receiver.all_chars Receiver.hex_text_char s = true ->
  Capture.one_line s /\ PyStr.rstrip_cr s = s.
Proof.
  unfold Capture.one_line. induction s as [|c s IH]; [auto|].
  cbn [Receiver.all_chars PyStr.split_first_nl PyStr.rstrip_cr].
  intros H. apply andb_true_iff in H as [Hc Hs]. destruct (IH Hs) as [H1 H2].
  rewrite H1, H2.
  assert (PyStr.is_lf c = false /\ Ascii.eqb c PyStr.CR = false) as [-> ->].
  { destruct c as [[] [] [] [] [] [] [] []]; try discriminate Hc; split; reflexivity. }
  split; [reflexivity|]. now destruct s.
Qed.

Lemma dead_prefixmatch (r : Regex.re) (s : string) :
  Regex.dead r = true -> Regex.prefixmatch r s = false.
Proof.
  revert r; induction s as [|c s IH]; intros r H; cbn [Regex.prefixmatch].
  - now rewrite (dead_not_nullable r H).
  - rewrite (dead_not_nullable r H). apply IH. now apply dead_deriv.
Qed.

(** A line that [^00:\s] accepts has a colon in third place. *)
Lemma first_row_third_char (a b : ascii) (t : string) :
  Regex.prefixmatch Capture.FIRST_ROW_RE (String a (String b t)) = true ->
  exists t', t = String ":" t'.
Proof.
  unfold Capture.FIRST_ROW_RE.
  cbn [Regex.lit Regex.prefixmatch Regex.deriv Regex.nullable Regex.chr andb orb].
  destruct (Ascii.eqb "0" a);
    [|intros H; rewrite dead_prefixmatch in H; [discriminate | reflexivity]].
  cbn [Regex.lit Regex.prefixmatch Regex.deriv Regex.nullable Regex.chr andb orb].
  destruct (Ascii.eqb "0" b);
    [|destruct t; intros H; [discriminate|];
      rewrite dead_prefixmatch in H; [discriminate | reflexivity]].
  destruct t as [|c t]; [discriminate|].
  cbn [Regex.lit Regex.prefixmatch Regex.deriv Regex.nullable Regex.chr andb orb].
  destruct (Ascii.eqb_spec ":" c) as [<-|_]; [eauto|].
  intros H. rewrite dead_prefixmatch in H; [discriminate | reflexivity].
Qed.

Lemma format_hex_idle_noise (b : Byte.byte) (data : list Byte.byte) :
  Capture.one_line (Receiver.format_hex (b :: data))
  /\ CaptureShape.idle_noise (Receiver.format_hex (b :: data)).
Proof.
  destruct (format_hex_shape b data) as (h1 & h2 & tail & E & S1 & Ht & Hall).
  destruct (all_chars_one_line _ Hall) as [H1 H2].
  split; [exact H1|]. unfold CaptureShape.idle_noise. rewrite H2, E. split.
  - destruct (Regex.fullmatch Capture._I2C_HEADER_RE (String h1 (String h2 tail))) eqn:F;
      [|reflexivity].
    apply header_starts_with_space in F as (c & s & Heq & Hc).
    injection Heq as <- _. congruence.
  - destruct (Regex.prefixmatch Capture.FIRST_ROW_RE (String h1 (String h2 tail))) eqn:F;
      [|reflexivity].
    apply first_row_third_char in F as [t' ->].
    destruct Ht as [Ht|[t Ht]]; discriminate Ht.
Qed.

Lemma all_chars_substring (p : ascii -> bool) (m text : string) :
  Prompt.is_substring m text ->
  Receiver.all_chars p text = true -> Receiver.all_chars p m = true.
Proof.
  intros (pre & post & ->). rewrite !all_chars_app.
  intros H. apply andb_true_iff in H as [_ H]. now apply andb_true_iff in H as [H _].
Qed.

Lemma hex_text_hides_markers (pats : list string) (text : string) :
  Forall (fun p => Receiver.all_chars Receiver.hex_text_char p = false) pats ->
  Receiver.all_chars Receiver.hex_text_char text = true ->
  Prompt._any_prompt_in pats text = false.
Proof.
  intros Hp Ht. unfold Prompt._any_prompt_in.
  induction Hp as [|p pats Hp _ IH]; [reflexivity|].
  cbn [existsb]. rewrite IH, orb_false_r.
  destruct (PyStr.str_in p text) eqn:E; [|apply andb_false_r].
  apply str_in_spec in E. rewrite (all_chars_substring _ _ _ E Ht) in Hp. discriminate.
Qed.

(** X5.  The receiver in hex-dump mode is blind to i2cdump output: from
    an Idle machine with an empty fragment, whatever bytes are read, no
    capture starts and no dump is finalised (the capture state stays as
    it was); and when every configured marker holds a character that is
    not an upper-case hex digit or a space (the default marker [i2c>]
    does), the prompt counter never advances either. *)
Theorem hex_dump_mode_sees_no_dump (pats : list string) (st : Receiver.rx)
    (reads : list (list Byte.byte)) :
  Capture.active (Receiver.capture st) = false ->
  Capture.fragment (Receiver.capture st) = "" ->
  exists seq,
    Receiver.run_hex_dump_all pats st reads
    = Some {| Receiver.prompt_seq := seq; Receiver.capture := Receiver.capture st |}
    /\ (Forall (fun p => Receiver.all_chars Receiver.hex_text_char p = false) pats ->
        seq = Receiver.prompt_seq st).
Proof.
  destruct st as [seq0 c]. cbn [Receiver.capture Receiver.prompt_seq].
  intros Ha Hfr. revert seq0; induction reads as [|data reads IH]; intros seq0.
  - exists seq0. auto.
  - cbn [Receiver.run_hex_dump_all]. destruct data as [|b data].
    + cbn [Receiver.run_hex_dump]. apply IH.
    + unfold Receiver.run_hex_dump. cbn [Receiver.capture Receiver.prompt_seq].
      destruct (format_hex_idle_noise b data) as [Hone Hnoise].
      destruct (format_hex_shape b data) as (_ & _ & _ & _ & _ & _ & Hall).
      rewrite feed_run_lines by (rewrite Hfr; reflexivity).
      rewrite Hfr, append_nil_l.
      rewrite (split_lines_line _ "" Hone). cbn [Capture.split_lines fst snd].
      rewrite (idle_noise_dropped pats [_] c Ha) by (constructor; [exact Hnoise|constructor]).
      cbn [fmap option_fmap option_map].
      assert (Capture.with_fragment "" c = c) as ->.
      { destruct c; cbn in *. now subst. }
      destruct (IH (Prompt.inc_prompt_if_in pats seq0 (Receiver.format_hex (b :: data))))
        as (seq & -> & Hseq).
      exists seq. split; [reflexivity|]. intros Hp. rewrite (Hseq Hp).
      unfold Prompt.inc_prompt_if_in.
      now rewrite (hex_text_hides_markers pats _ Hp Hall), andb_false_r.
Qed.
Lemma hex_dump_mode_sees_no_dump_witness :
  exists seq,
    Receiver.run_hex_dump_all Prompt.DEFAULT_PROMPT_PATTERNS
      {| Receiver.prompt_seq := 0; Receiver.capture := Capture.init |}
      [[Byte.x20; Byte.x30; Byte.x30; Byte.x0a]; []; [Byte.x69; Byte.x32; Byte.x63; Byte.x3e]]
    = Some {| Receiver.prompt_seq := seq; Receiver.capture := Capture.init |}
    /\ (Forall (fun p => Receiver.all_chars Receiver.hex_text_char p = false)
          Prompt.DEFAULT_PROMPT_PATTERNS ->
        seq = 0%Z).
Proof.
  apply (hex_dump_mode_sees_no_dump Prompt.DEFAULT_PROMPT_PATTERNS
           {| Receiver.prompt_seq := 0; Receiver.capture := Capture.init |}).
  - reflexivity.
  - reflexivity.
Defined.

(** ** Scripts: what a play sends, and when it waits *)


Lemma line_tx_sound (line : string) : Forall GlobalCombo.sound (Play.line_tx line).
Proof.
  unfold Play.line_tx, Play.only_spaces.
  destruct (PyStr.is_empty (PyStr.strip line)) eqn:E; cbn [andb].
  - destruct (negb (PyStr.is_empty line)); repeat constructor.
  - destruct (negb (PyStr.is_empty line)); repeat constructor.
    cbn. unfold Play.has_text. now rewrite E.
Qed.

Lemma parts_tx_sound (parts : list string) : Forall GlobalCombo.sound (Play.parts_tx parts).
Proof.
  induction parts as [|seg rest IH]; [constructor|].
  cbn [Play.parts_tx]. apply Forall_app; split; [|apply Forall_app; split; [|exact IH]].
  - unfold Play.segment_tx. apply Forall_app; split.
    + destruct (PyStr.is_empty seg); repeat constructor.
    + apply Forall_flat_map, Forall_forall. intros l _. apply line_tx_sound.
  - destruct rest; repeat constructor.
Qed.

Section Frame.
Variable slot_cmds : gmap ascii (option Play.slot).
Variables (fast wait : bool).

Local Abbreviation play := (Play.play_slot_recursive slot_cmds fast wait).
Local Abbreviation emit := (GlobalCombo.emit fast wait).

(** A call sends the same whatever the context and whatever was sent
    before: its transmissions depend on the visited set alone. *)
Definition framed (f : ascii -> Play.pstate -> option Play.pstate) : Prop :=
  forall c st st', f c st = Some st' ->
    exists tx, Forall GlobalCombo.sound tx
               /\ forall st2, Play.visited st2 = Play.visited st ->
                              f c st2 = Some (emit tx st2).

Lemma play_seq_framed (f : ascii -> Play.pstate -> option Play.pstate) :
  framed f ->
  forall seq st st', Play.play_seq slot_cmds f seq st = Some st' ->
    exists tx, Forall GlobalCombo.sound tx
               /\ forall st2, Play.visited st2 = Play.visited st ->
                              Play.play_seq slot_cmds f seq st2 = Some (emit tx st2).
Proof.
  intros Hf. induction seq as [|c seq IH]; intros st st' H.
  - exists []. split; [constructor|]. intros st2 _. cbn. now rewrite emit_nil.
  - cbn [Play.play_seq] in *.
    destruct (bool_decide (is_Some (slot_cmds !! c))).
    + destruct (f c st) as [st1|] eqn:E; [|discriminate].
      destruct (Hf c st st1 E) as (tx1 & S1 & F1).
      assert (E1 : st1 = emit tx1 st).
      { specialize (F1 st eq_refl). congruence. }
      destruct (IH st1 st' H) as (tx2 & S2 & F2).
      exists (tx1 ++ tx2). split; [now apply Forall_app|].
      intros st2 HV. rewrite (F1 st2 HV), emit_app.
      apply F2. subst st1. cbn. exact HV.
    + destruct (IH st st' H) as (tx & S & F). exists tx. auto.
Qed.

Lemma play_framed (fuel : nat) (depth : nat) : framed (fun c => play fuel c depth).
Proof.
  revert depth; induction fuel as [|fuel IH]; intros depth c st st' H; [discriminate|].
  assert (Hnil : forall st2, Some st2 = Some (emit [] st2))
    by (intros; now rewrite emit_nil).
  rewrite play_slot_recursive_unfold in H.
  setoid_rewrite play_slot_recursive_unfold.
  destruct (Nat.ltb Play.DEPTH_LIMIT depth); [exists []; split; [constructor|auto]|].
  destruct (slot_cmds !! c) as [[v|]|]; try solve [exists []; split; [constructor|auto]].
  destruct (bool_decide (Play.oid v ∈ Play.visited st)) eqn:B.
  { exists []. split; [constructor|]. intros st2 ->. rewrite B. auto. }
  apply bool_decide_eq_false in B.
  assert (Hback : forall tx st2, Play.visited st2 = Play.visited st ->
            Play.set_visited
              (Play.visited (emit tx (Play.set_visited ({[Play.oid v]} ∪ Play.visited st2) st2))
               ∖ {[Play.oid v]})
              (emit tx (Play.set_visited ({[Play.oid v]} ∪ Play.visited st2) st2))
            = emit tx st2).
  { intros tx st2 HV. cbn [GlobalCombo.emit Play.visited Play.set_visited Play.ctx Play.sent].
    rewrite HV, (visited_restored _ _ B). unfold GlobalCombo.emit. now rewrite HV. }
  destruct (Play.value v) as [|seq|data].
  - exists [Play.TxEnter]. split; [repeat constructor|].
    intros st2 HV. rewrite (bool_decide_eq_false_2 (Play.oid v ∈ Play.visited st2))
      by (rewrite HV; exact B).
    unfold Play.send_enter_only. rewrite transmit_emit. f_equal. now apply Hback.
  - destruct (Play.play_seq slot_cmds _ seq _) as [st1|] eqn:E in H; [|discriminate].
    destruct (play_seq_framed _ (IH (S depth)) seq _ _ E) as (tx & S & F).
    exists tx. split; [exact S|].
    intros st2 HV. rewrite (bool_decide_eq_false_2 (Play.oid v ∈ Play.visited st2))
      by (rewrite HV; exact B).
    rewrite (F (Play.set_visited ({[Play.oid v]} ∪ Play.visited st2) st2))
      by (cbn; now rewrite HV).
    f_equal. now apply Hback.
  - exists (Play.parts_tx (PyStr.split_on Play.TOKEN_ENTER data)).
    split; [apply parts_tx_sound|].
    intros st2 HV. rewrite (bool_decide_eq_false_2 (Play.oid v ∈ Play.visited st2))
      by (rewrite HV; exact B).
    unfold Play.play_raw. rewrite play_parts_emit. f_equal. now apply Hback.
Qed.

(** Playing a key with a fresh visited set, anywhere in a script, sends
    what [play_slot] sends for it. *)
Lemma play_fresh (c : ascii) (st : Play.pstate) :
  is_Some (slot_cmds !! c) ->
  Forall GlobalCombo.sound (GlobalCombo.slot_trace slot_cmds fast wait c)
  /\ play (Play.DEPTH_LIMIT + 2) c 0 (Play.set_visited ∅ st)
     = Some (emit (GlobalCombo.slot_trace slot_cmds fast wait c) (Play.set_visited ∅ st)).
Proof.
  intros Hc. unfold GlobalCombo.slot_trace, Play.play_slot.
  destruct Hc as [v Hc]. rewrite Hc.
  destruct (play_total slot_cmds fast wait (Play.DEPTH_LIMIT + 2) c 0 Play.new_pstate)
    as [st' E]; [unfold Play.DEPTH_LIMIT; lia | unfold Play.DEPTH_LIMIT; lia |].
  destruct (play_framed _ 0 c _ _ E) as (tx & S & F).
  rewrite (F Play.new_pstate eq_refl). cbn [Play.sent GlobalCombo.emit Play.new_pstate app].
  split; [exact S|]. now apply F.
Qed.

Lemma slot_trace_absent (c : ascii) :
  slot_cmds !! c = None -> GlobalCombo.slot_trace slot_cmds fast wait c = [].
Proof. intros H. unfold GlobalCombo.slot_trace, Play.play_slot. now rewrite H. Qed.

Lemma run_seq_emit (seq : string) (st : Play.pstate) :
  Play.visited st = ∅ ->
  Forall GlobalCombo.sound
    (flat_map (GlobalCombo.slot_trace slot_cmds fast wait) (list_ascii_of_string seq))
  /\ GlobalCombo.run_seq slot_cmds fast wait seq st
     = Some (emit (flat_map (GlobalCombo.slot_trace slot_cmds fast wait)
                     (list_ascii_of_string seq)) st).
Proof.
  revert st; induction seq as [|c seq IH]; intros st HV.
  - cbn. rewrite emit_nil. split; [constructor | reflexivity].
  - cbn [GlobalCombo.run_seq list_ascii_of_string flat_map].
    assert (Hst : Play.set_visited ∅ st = st) by (rewrite <- HV; apply set_visited_same).
    destruct (decide (is_Some (slot_cmds !! c))) as [Hc|Hc].
    + rewrite bool_decide_eq_true_2 by exact Hc.
      destruct (play_fresh c st Hc) as [S1 ->]. rewrite Hst.
      destruct (IH (emit (GlobalCombo.slot_trace slot_cmds fast wait c) st) HV) as [S2 ->].
      split; [now apply Forall_app|]. now rewrite emit_app.
    + rewrite bool_decide_eq_false_2 by exact Hc.
      rewrite slot_trace_absent by (destruct (slot_cmds !! c); [destruct Hc; eauto | reflexivity]).
      cbn [app]. now apply IH.
Qed.

End Frame.

Lemma waits_fresh (fast wait : bool) (tx : list Play.transmission) :
  Play.waits (Play.ctx (GlobalCombo.emit fast wait tx Play.new_pstate))
  = if fast || negb wait then 0 else length tx - 1.
Proof.
  cbn [GlobalCombo.emit Play.ctx Play.new_pstate]. rewrite waits_after. reflexivity.
Qed.

(** X6.  Playing a slot returns, for every registry, and: every line it
    has sent holds a character other than whitespace (a blank line goes
    out as a terminator alone, never as a line); with fast play on or
    scripted waiting off it has waited for no prompt, otherwise it has
    waited once before every transmission but the first; and the visited
    set is empty again at the end. *)
Theorem play_slot_sends_and_waits (slot_cmds : gmap ascii (option Play.slot))
    (fast wait : bool) (k : ascii) :
  exists st,
    Play.play_slot slot_cmds fast wait k = Some st
    /\ Play.visited st = ∅
    /\ Forall GlobalCombo.sound (Play.sent st)
    /\ Play.waits (Play.ctx st)
       = if fast || negb wait then 0 else length (Play.sent st) - 1.
Proof.
  unfold Play.play_slot. destruct (slot_cmds !! k) as [v|] eqn:Hk.
  - destruct (play_fresh slot_cmds fast wait k Play.new_pstate) as [S E];
      [rewrite Hk; eauto|].
    change (Play.set_visited ∅ Play.new_pstate) with Play.new_pstate in E.
    rewrite E. eexists; split; [reflexivity|].
    split; [reflexivity|]. split; [exact S|]. apply waits_fresh.
  - exists Play.new_pstate. split; [reflexivity|]. split; [reflexivity|].
    split; [constructor|]. cbn. now destruct (fast || negb wait).
Qed.

Lemma combo_trace_spec (slot_cmds : gmap ascii (option Play.slot))
    (global_combos : gmap ascii string) (fast wait : bool) (d : ascii) :
  GlobalCombo.run_global_combo slot_cmds global_combos fast wait d
  = Some (GlobalCombo.emit fast wait
            (GlobalCombo.combo_trace slot_cmds global_combos fast wait d) Play.new_pstate)
  /\ GlobalCombo.combo_trace slot_cmds global_combos fast wait d
     = flat_map (GlobalCombo.slot_trace slot_cmds fast wait)
         (list_ascii_of_string (default "" (global_combos !! d))).
Proof.
  unfold GlobalCombo.combo_trace, GlobalCombo.run_global_combo.
  destruct (global_combos !! d) as [seq|]; cbn [default].
  - destruct (run_seq_emit slot_cmds fast wait seq Play.new_pstate eq_refl) as [_ ->].
    split; reflexivity.
  - split; reflexivity.
Qed.

(** X7.  Running the global combo of a digit returns, and sends, key by
    key of its sequence, exactly what playing that key alone sends (a key
    that is no slot sends nothing; an undefined digit sends nothing at
    all): a cycle is detected inside one key only, and a slot named twice
    in the sequence is played twice.  The keys share one script context:
    with scripted waiting on and fast play off, only the first
    transmission of the whole combo goes out without a prompt wait. *)
Theorem run_global_combo_concatenates (slot_cmds : gmap ascii (option Play.slot))
    (global_combos : gmap ascii string) (fast wait : bool) (d : ascii) :
  exists st,
    GlobalCombo.run_global_combo slot_cmds global_combos fast wait d = Some st
    /\ Play.sent st
       = flat_map (GlobalCombo.slot_trace slot_cmds fast wait)
           (list_ascii_of_string (default "" (global_combos !! d)))
    /\ Forall GlobalCombo.sound (Play.sent st)
    /\ Play.waits (Play.ctx st)
       = if fast || negb wait then 0 else length (Play.sent st) - 1.
Proof.
  destruct (combo_trace_spec slot_cmds global_combos fast wait d) as [E T].
  rewrite E. eexists; split; [reflexivity|].
  cbn [Play.sent GlobalCombo.emit Play.new_pstate app]. rewrite T.
  split; [reflexivity|]. split.
  - apply (run_seq_emit slot_cmds fast wait _ Play.new_pstate eq_refl).
  - rewrite <- T. apply waits_fresh.
Qed.

Lemma flat_map_filter_nil {A B} (f : A -> list B) (p : A -> bool) (l : list A) :
  (forall x, p x = false -> f x = []) ->
  flat_map f (List.filter p l) = flat_map f l.
Proof.
  intros H. induction l as [|x l IH]; [reflexivity|].
  cbn [List.filter flat_map]. destruct (p x) eqn:E.
  - cbn [flat_map]. now rewrite IH.
  - now rewrite IH, (H x E).
Qed.

Lemma run_defined_emit (slot_cmds : gmap ascii (option Play.slot))
    (global_combos : gmap ascii string) (fast wait : bool)
    (ds : list ascii) (st : Play.pstate) :
  Forall (fun d => is_Some (global_combos !! d)) ds ->
  Play.visited st = ∅ ->
  GlobalCombo.run_defined slot_cmds global_combos fast wait ds st
  = Some (GlobalCombo.emit fast wait
            (flat_map (GlobalCombo.combo_trace slot_cmds global_combos fast wait) ds) st).
Proof.
  intros Hds. revert st; induction Hds as [|d ds [seq Hd] _ IH]; intros st HV.
  - cbn. now rewrite emit_nil.
  - cbn [GlobalCombo.run_defined flat_map].
    destruct (combo_trace_spec slot_cmds global_combos fast wait d) as [_ ->].
    rewrite Hd. cbn [default].
    destruct (run_seq_emit slot_cmds fast wait seq st HV) as [_ ->].
    rewrite IH by exact HV. now rewrite emit_app.
Qed.

(** X8.  Running all global combos returns, and sends what the combos of
    the digits 0 to 9 send one after the other, in that order, each as
    [run_global_combo] sends it; digits without a combo contribute
    nothing.  All of it is one script: only its very first transmission
    goes out without a prompt wait (when waiting is on and fast play
    off). *)
Theorem run_all_global_combos_in_digit_order (slot_cmds : gmap ascii (option Play.slot))
    (global_combos : gmap ascii string) (fast wait : bool) :
  exists st,
    GlobalCombo.run_all_global_combos slot_cmds global_combos fast wait = Some st
    /\ Play.sent st
       = flat_map (GlobalCombo.combo_trace slot_cmds global_combos fast wait)
           GlobalCombo.DIGIT_SLOTS
    /\ Play.waits (Play.ctx st)
       = if fast || negb wait then 0 else length (Play.sent st) - 1.
Proof.
  unfold GlobalCombo.run_all_global_combos.
  set (p := fun d => bool_decide (is_Some (global_combos !! d))).
  assert (Hp : forall d, p d = false ->
            GlobalCombo.combo_trace slot_cmds global_combos fast wait d = []).
  { intros d Hd. apply bool_decide_eq_false in Hd.
    unfold GlobalCombo.combo_trace, GlobalCombo.run_global_combo.
    destruct (global_combos !! d); [destruct Hd; eauto | reflexivity]. }
  rewrite <- (flat_map_filter_nil _ p GlobalCombo.DIGIT_SLOTS Hp).
  assert (Hall : Forall (fun d => is_Some (global_combos !! d))
                   (List.filter p GlobalCombo.DIGIT_SLOTS)).
  { apply Forall_forall. intros d Hd. apply list_elem_of_In, filter_In in Hd as [_ Hd].
    now apply bool_decide_eq_true in Hd. }
  rewrite (run_defined_emit slot_cmds global_combos fast wait _ Play.new_pstate Hall eq_refl).
  destruct (List.filter p GlobalCombo.DIGIT_SLOTS) as [|d ds] eqn:E.
  - cbn [Prompt.truthy_list negb flat_map]. eexists; split; [reflexivity|].
    split; [reflexivity|]. cbn. now destruct (fast || negb wait).
  - cbn [Prompt.truthy_list negb]. eexists; split; [reflexivity|].
    split; [reflexivity|]. apply waits_fresh.
Qed.

(** ** The wait is bounded *)



(** ** The compare of two dumps *)

Lemma rows_of_map (m : gmap string (list string)) (addrs : list string) :
  (forall a, In a addrs -> is_Some (m !! a)) ->
  mapM (fun a => r ← Compare.row_of m a; Some (a, r)) addrs
  = Some (map (fun a => (a, default [] (m !! a))) addrs).
Proof.
  induction addrs as [|a addrs IH]; intros Hin; [reflexivity|].
  cbn [mapM map]. unfold Compare.row_of in *.
  destruct (Hin a (or_introl eq_refl)) as [row ->].
  cbn [mbind option_bind default].
  rewrite IH by (intros b Hb; apply Hin; now right). reflexivity.
Qed.

Lemma rows_of_parsed (lines : list string) :
  Compare.rows_of (Compare._parse_dump_to_matrix lines)
  = Some (CompareViews.fixed_rows lines).
Proof.
  unfold Compare.rows_of, CompareViews.fixed_rows, CompareViews.fixed_row.
  apply rows_of_map. intros a Ha. now apply parse_has_fixed_rows.
Qed.

Lemma fixed_row_length (lines : list string) (a : string) :
  In a Compare.ROW_ADDRS -> length (CompareViews.fixed_row lines a) = 16.
Proof.
  intros Hin. unfold CompareViews.fixed_row.
  destruct (parse_has_fixed_rows lines a Hin) as [row E]. rewrite E. cbn [default].
  revert E. unfold Compare._parse_dump_to_matrix.
  apply (fold_fill_row_rows16 Compare.ROW_ADDRS).
  apply fold_parse_line_rows16. intros x r Hx. now rewrite lookup_empty in Hx.
Qed.

Lemma count_diff_sym (rA rB : list string) :
  Compare.count_diff rA rB = Compare.count_diff rB rA.
Proof.
  unfold Compare.count_diff. f_equal.
  induction (seq 0 16) as [|i l IH]; [reflexivity|].
  rewrite !filter_cons, IH, (String.eqb_sym (Compare.cell rA i)). reflexivity.
Qed.

Lemma count_diff_le (rA rB : list string) : Compare.count_diff rA rB <= 16.
Proof.
  unfold Compare.count_diff.
  etransitivity; [apply length_filter|]. reflexivity.
Qed.

Lemma render_tokens_sym (f : string -> string) (rA rB shown : list string) :
  Compare.render_tokens f rA rB shown = Compare.render_tokens f rB rA shown.
Proof.
  unfold Compare.render_tokens. apply map_ext. intros i.
  now rewrite (String.eqb_sym (Compare.cell rA i)).
Qed.

Section Pairs.
Variables (fA fB : string -> list string).

Local Abbreviation rowsA := (map (fun a => (a, fA a))).
Local Abbreviation rowsB := (map (fun a => (a, fB a))).

Lemma side_swap (f : string -> string) (pick : bool) (addrs : list string) :
  Compare.side f pick (zip (rowsB addrs) (rowsA addrs))
  = Compare.side f (negb pick) (zip (rowsA addrs) (rowsB addrs)).
Proof.
  unfold Compare.side.
  induction addrs as [|a addrs IH]; [reflexivity|].
  cbn [map zip zip_with]. f_equal; [|exact IH].
  rewrite render_tokens_sym. now destruct pick.
Qed.

Lemma side_length (f : string -> string) (pick : bool) (addrs : list string) :
  length (Compare.side f pick (zip (rowsA addrs) (rowsB addrs))) = length addrs.
Proof.
  unfold Compare.side. rewrite length_map, length_zip_with, !length_map. lia.
Qed.

Lemma counts_swap (addrs : list string) :
  length (filter (fun '((_, rowA), (_, rowB)) => 0 < Compare.count_diff rowA rowB)
            (zip (rowsB addrs) (rowsA addrs)))
  = length (filter (fun '((_, rowA), (_, rowB)) => 0 < Compare.count_diff rowA rowB)
              (zip (rowsA addrs) (rowsB addrs)))
  /\ foldr (fun '((_, rowA), (_, rowB)) n => Compare.count_diff rowA rowB + n) 0
       (zip (rowsB addrs) (rowsA addrs))
     = foldr (fun '((_, rowA), (_, rowB)) n => Compare.count_diff rowA rowB + n) 0
         (zip (rowsA addrs) (rowsB addrs)).
Proof.
  induction addrs as [|a addrs [IH1 IH2]]; [split; reflexivity|].
  cbn [map zip zip_with foldr] in *. rewrite !filter_cons.
  pose proof (count_diff_sym (fB a) (fA a)) as Hs.
  destruct (decide (0 < Compare.count_diff (fB a) (fA a)));
    destruct (decide (0 < Compare.count_diff (fA a) (fB a)));
    cbn [length]; split; lia.
Qed.

Lemma counts_bounds (addrs : list string) :
  length (filter (fun '((_, rowA), (_, rowB)) => 0 < Compare.count_diff rowA rowB)
            (zip (rowsA addrs) (rowsB addrs))) <= length addrs
  /\ length (filter (fun '((_, rowA), (_, rowB)) => 0 < Compare.count_diff rowA rowB)
               (zip (rowsA addrs) (rowsB addrs)))
     <= foldr (fun '((_, rowA), (_, rowB)) n => Compare.count_diff rowA rowB + n) 0
          (zip (rowsA addrs) (rowsB addrs))
  /\ foldr (fun '((_, rowA), (_, rowB)) n => Compare.count_diff rowA rowB + n) 0
       (zip (rowsA addrs) (rowsB addrs))
     <= 16 * length (filter (fun '((_, rowA), (_, rowB)) =>
                               0 < Compare.count_diff rowA rowB)
                       (zip (rowsA addrs) (rowsB addrs)))
  /\ (foldr (fun '((_, rowA), (_, rowB)) n => Compare.count_diff rowA rowB + n) 0
        (zip (rowsA addrs) (rowsB addrs)) = 0
      <-> forall a, In a addrs -> Compare.count_diff (fA a) (fB a) = 0).
Proof.
  induction addrs as [|a addrs IH].
  - cbn [map zip zip_with foldr length]. rewrite filter_nil. cbn [length].
    split; [lia|]. split; [lia|]. split; [lia|].
    split; [intros _ a []|reflexivity].
  - destruct IH as (I1 & I2 & I3 & I4).
    cbn [map zip zip_with foldr length] in *. rewrite filter_cons.
    pose proof (count_diff_le (fA a) (fB a)) as Hle.
    destruct (decide (0 < Compare.count_diff (fA a) (fB a))) as [Hd|Hd];
      cbn [length]; (split; [lia|]); (split; [lia|]); (split; [lia|]).
    + split; [lia|]. intros H. specialize (H a (or_introl eq_refl)). lia.
    + split.
      * intros Hk x [<-|Hx]; [lia|]. apply I4; [lia | exact Hx].
      * intros H. rewrite (H a (or_introl eq_refl)).
        apply I4. intros x Hx. apply H. now right.
Qed.

End Pairs.

Lemma count_diff_zero (rA rB : list string) :
  length rA = 16 -> length rB = 16 ->
  Compare.count_diff rA rB = 0 <-> rA = rB.
Proof.
  intros HA HB. split; [|intros ->; apply count_diff_self].
  unfold Compare.count_diff. intros H.
  apply (nth_ext _ _ "" ""); [lia|]. intros i Hi. rewrite HA in Hi.
  assert (Hin : i ∈ seq 0 16) by (apply elem_of_seq; lia).
  apply length_zero_iff_nil in H.
  destruct (String.eqb_spec (Compare.cell rA i) (Compare.cell rB i)) as [E|E]; [exact E|].
  exfalso. apply (not_elem_of_nil i). rewrite <- H. apply list_elem_of_filter.
  split; [|exact Hin].
  destruct (String.eqb_spec (Compare.cell rA i) (Compare.cell rB i)); [contradiction | exact I].
Qed.

Lemma render_parsed (a b : string) (la lb : list string) :
  Compare.render a b (Compare._parse_dump_to_matrix la) (Compare._parse_dump_to_matrix lb)
  = let rows := zip (CompareViews.fixed_rows la) (CompareViews.fixed_rows lb) in
    Some {|
      Compare.changed_rows :=
        length (filter (fun '((_, rowA), (_, rowB)) => 0 < Compare.count_diff rowA rowB) rows);
      Compare.changed_bytes :=
        foldr (fun '((_, rowA), (_, rowB)) n => Compare.count_diff rowA rowB + n) 0 rows;
      Compare.hex_lines :=
        ["hex"; Compare.title " disk:" a; Compare.HEADER_LINE] ++ Compare.side id true rows
        ++ [Compare.title "disk:" b; Compare.HEADER_LINE] ++ Compare.side id false rows;
      Compare.bin_lines :=
        [""; "binary"; Compare.title "disk:" a; Compare.HEADER_LINE]
        ++ Compare.side Compare._hex_to_bin true rows
        ++ [Compare.title "disk:" b; Compare.HEADER_LINE]
        ++ Compare.side Compare._hex_to_bin false rows
    |}.
Proof. unfold Compare.render. now rewrite !rows_of_parsed. Qed.

Lemma view_rows_first (pre : list string) (sA mid sB : list string) (off : nat) :
  off = length pre -> length sA = 16 ->
  CompareViews.view_rows off (pre ++ sA ++ mid ++ sB) = sA.
Proof.
  intros -> H. unfold CompareViews.view_rows.
  rewrite drop_app_length. now apply take_app_length'.
Qed.

Lemma view_rows_second (pre : list string) (sA mid sB : list string) (off : nat) :
  off = length pre + 16 + length mid -> length sA = 16 -> length sB = 16 ->
  CompareViews.view_rows off (pre ++ sA ++ mid ++ sB) = sB.
Proof.
  intros -> HA HB. unfold CompareViews.view_rows.
  rewrite !app_assoc.
  replace (length pre + 16 + length mid) with (length ((pre ++ sA) ++ mid))
    by (rewrite !length_app; lia).
  rewrite drop_app_length. apply take_ge. lia.
Qed.

(** X10.  The compare is symmetric: comparing the dumps the other way
    round counts the same changed rows and the same changed bytes, and
    shows the same rows with the two sides exchanged, in the hex view and
    in the binary view. *)
Theorem compare_is_symmetric (a b : string) (la lb : list string) :
  exists r r',
    Compare.render a b (Compare._parse_dump_to_matrix la) (Compare._parse_dump_to_matrix lb)
    = Some r
    /\ Compare.render b a (Compare._parse_dump_to_matrix lb)
         (Compare._parse_dump_to_matrix la) = Some r'
    /\ Compare.changed_rows r' = Compare.changed_rows r
    /\ Compare.changed_bytes r' = Compare.changed_bytes r
    /\ CompareViews.view_rows 3 (Compare.hex_lines r')
       = CompareViews.view_rows 21 (Compare.hex_lines r)
    /\ CompareViews.view_rows 21 (Compare.hex_lines r')
       = CompareViews.view_rows 3 (Compare.hex_lines r)
    /\ CompareViews.view_rows 4 (Compare.bin_lines r')
       = CompareViews.view_rows 22 (Compare.bin_lines r)
    /\ CompareViews.view_rows 22 (Compare.bin_lines r')
       = CompareViews.view_rows 4 (Compare.bin_lines r).
Proof.
  rewrite !render_parsed. cbn zeta. eexists _, _.
  split; [reflexivity|]. split; [reflexivity|].
  cbn [Compare.changed_rows Compare.changed_bytes Compare.hex_lines Compare.bin_lines].
  unfold CompareViews.fixed_rows.
  destruct (counts_swap (CompareViews.fixed_row la) (CompareViews.fixed_row lb)
              Compare.ROW_ADDRS) as [-> ->].
  split; [reflexivity|]. split; [reflexivity|].
  rewrite (side_swap (CompareViews.fixed_row la) (CompareViews.fixed_row lb) id true),
    (side_swap (CompareViews.fixed_row la) (CompareViews.fixed_row lb) id false),
    (side_swap (CompareViews.fixed_row la) (CompareViews.fixed_row lb)
       Compare._hex_to_bin true),
    (side_swap (CompareViews.fixed_row la) (CompareViews.fixed_row lb)
       Compare._hex_to_bin false).
  cbn [negb].
  assert (L : forall f p,
            length (Compare.side f p
                      (zip (map (fun a => (a, CompareViews.fixed_row la a)) Compare.ROW_ADDRS)
                           (map (fun a => (a, CompareViews.fixed_row lb a)) Compare.ROW_ADDRS)))
            = 16) by (intros; now rewrite side_length).
  split; [|split; [|split]].
  - rewrite (view_rows_first _ _ _ _ 3), (view_rows_second _ _ _ _ 21)
      by (reflexivity || apply L). reflexivity.
  - rewrite (view_rows_first _ _ _ _ 3), (view_rows_second _ _ _ _ 21)
      by (reflexivity || apply L). reflexivity.
  - rewrite (view_rows_first _ _ _ _ 4), (view_rows_second _ _ _ _ 22)
      by (reflexivity || apply L). reflexivity.
  - rewrite (view_rows_first _ _ _ _ 4), (view_rows_second _ _ _ _ 22)
      by (reflexivity || apply L). reflexivity.
Qed.

(** X11.  The counts of a compare are consistent: at most 16 changed
    rows; every changed row holds between 1 and 16 changed bytes, so the
    bytes lie between the rows and 16 times the rows; the hex view has 37
    lines and the binary view 38; and no byte is counted exactly when the
    two parsed dumps hold the same row at each of the sixteen fixed
    addresses. *)
Theorem compare_counts_consistent (a b : string) (la lb : list string) :
  exists r,
    Compare.render a b (Compare._parse_dump_to_matrix la) (Compare._parse_dump_to_matrix lb)
    = Some r
    /\ Compare.changed_rows r <= 16
    /\ Compare.changed_rows r <= Compare.changed_bytes r <= 16 * Compare.changed_rows r
    /\ length (Compare.hex_lines r) = 37
    /\ length (Compare.bin_lines r) = 38
    /\ (Compare.changed_bytes r = 0
        <-> forall addr, In addr Compare.ROW_ADDRS ->
              Compare._parse_dump_to_matrix la !! addr
              = Compare._parse_dump_to_matrix lb !! addr).
Proof.
  rewrite render_parsed. cbn zeta. eexists. split; [reflexivity|].
  cbn [Compare.changed_rows Compare.changed_bytes Compare.hex_lines Compare.bin_lines].
  unfold CompareViews.fixed_rows.
  destruct (counts_bounds (CompareViews.fixed_row la) (CompareViews.fixed_row lb)
              Compare.ROW_ADDRS) as (B1 & B2 & B3 & B4).
  split; [exact B1|]. split; [split; [exact B2 | exact B3]|].
  split; [|split].
  - rewrite !length_app, !side_length. reflexivity.
  - rewrite !length_app, !side_length. reflexivity.
  - destruct B4 as [B4a B4b]. split.
    + intros Hk addr Hin. specialize (B4a Hk addr Hin).
      apply (count_diff_zero _ _ (fixed_row_length la addr Hin)
               (fixed_row_length lb addr Hin)) in B4a.
      revert B4a. unfold CompareViews.fixed_row. intros B4a.
      destruct (parse_has_fixed_rows la addr Hin) as [ra Ea].
      destruct (parse_has_fixed_rows lb addr Hin) as [rb Eb].
      rewrite Ea, Eb in B4a |- *. cbn in B4a. congruence.
    + intros H. apply B4b. intros addr Hin.
      unfold CompareViews.fixed_row. rewrite (H addr Hin). apply count_diff_self.
Qed.
